(** * Neon Orb Catcher: the gameplay logic of [src/App.tsx]

    A shallow embedding of the game's state machine (the [App] component's
    React state and its callbacks), of the per-frame collision loop of
    [GameScene], of the entity generators and of the frame callbacks of
    [PlayerShip] and [Obstacle], followed by the properties proved about
    them.

    Conventions of the embedding.
    - JavaScript numbers that hold integers (ids, score, lives, level,
      points) are [Z]; numbers that hold coordinates, speeds and the results
      of [Math.random()] are IEEE-754 binary64 values, Rocq's primitive
      [float], with the same operations as the source.
    - [Date.now()], [Math.random()] and [setTimeout] are services of the
      JavaScript host.  The host is explicit state ([Host]) threaded through
      a small state monad: an oracle gives the successive clock readings and
      random draws, and pending timers are kept in a queue.
    - React state is the record [App].  A handler that sets values
      ([startGame]) or queues a single updater (the timeout callback) is a
      function on [App].  The callbacks of the frame loop queue updaters that
      queue further updates while they run; they are modelled as React runs
      them, by the queues of [Pending] and the render that empties them.
      What a callback closes over (the values of the render in which it was
      created) is an explicit argument. *)

From Stdlib Require Import ZArith List Lia Floats.
From stdpp Require Import base decidable option list gmap strings.

Local Open Scope Z_scope.

(** ** The JavaScript host: clock, random source and timers *)

(** The callbacks handed to [setTimeout].  The source has a single one:
    [() => setOrbs(prev => [...prev, ...generateOrbs(1)])] (line 408). *)
Inductive Task := Replenish.

Record Timer := { delay : Z; task : Task }.

Record Host := {
  clock : nat -> Z;          (* the n-th reading of Date.now() *)
  entropy : nat -> float;    (* the n-th result of Math.random() *)
  clockReads : nat;          (* readings consumed so far *)
  draws : nat;               (* random draws consumed so far *)
  timers : list Timer        (* pending timeouts, oldest first *)
}.

Definition M (A : Type) : Type := Host -> A * Host.

Definition ret {A} (a : A) : M A := fun h => (a, h).

Definition bind {A B} (m : M A) (k : A -> M B) : M B :=
  fun h => let (a, h') := m h in k a h'.

Notation "x <- m ;; k" := (bind m (fun x => k))
  (at level 100, m at next level, right associativity).
Notation "m ;;; k" := (bind m (fun _ => k))
  (at level 100, right associativity).

Definition Date_now : M Z := fun h =>
  (clock h (clockReads h),
   {| clock := clock h; entropy := entropy h; clockReads := S (clockReads h);
      draws := draws h; timers := timers h |}).

Definition Math_random : M float := fun h =>
  (entropy h (draws h),
   {| clock := clock h; entropy := entropy h; clockReads := clockReads h;
      draws := S (draws h); timers := timers h |}).

Definition setTimeout (t : Task) (ms : Z) : M unit := fun h =>
  (tt,
   {| clock := clock h; entropy := entropy h; clockReads := clockReads h;
      draws := draws h; timers := timers h ++ [{| delay := ms; task := t |}] |}).

(** [Math.floor] on a finite binary64 value, as an integer: the value of
    [S754_finite s m e] is [(-1)^s * m * 2^e] and [Z.shiftl] by a negative
    amount is the flooring division by a power of two.  On NaN and the
    infinities JavaScript returns its argument, which is no integer; the
    embedding returns [0] there. *)
Definition Math_floor (x : float) : Z :=
  match Prim2SF x with
  | S754_finite s m e => Z.shiftl (cond_Zopp s (Zpos m)) e
  | _ => 0
  end.

(** [Array.from({ length: count }, (_, i) => f i)]: the callback runs for
    [i = 0 .. count-1] in order. *)
Fixpoint Array_from {A} (count : nat) (f : Z -> M A) (i : Z) : M (list A) :=
  match count with
  | O => ret []
  | S n => a <- f i ;; rest <- Array_from n f (i + 1) ;; ret (a :: rest)
  end.

(** ** Game state types (lines 7-18) *)

Definition Triple : Type := float * float * float.

Record Orb := {
  orb_id : Z;
  orb_position : Triple;
  orb_color : option string;
  orb_points : Z
}.

Record Obstacle := {
  obs_id : Z;
  obs_position : Triple;
  obs_speed : float
}.

(** [randomPosition] (lines 21-25). *)
Definition randomPosition (range : float) : M Triple :=
  r1 <- Math_random ;;
  r2 <- Math_random ;;
  r3 <- Math_random ;;
  ret (((r1 - 0.5) * range, (r2 - 0.5) * range, (r3 - 0.5) * range)%float).

(** ** three.js vectors

    [THREE.Vector3] is the rendering library's class; [distanceTo] is
    [Math.sqrt(dx*dx + dy*dy + dz*dz)] with [dx = this.x - v.x] and so on. *)
Record Vector3 := { vx : float; vy : float; vz : float }.

Definition Vector3_of (p : Triple) : Vector3 :=
  let '(a, b, c) := p in {| vx := a; vy := b; vz := c |}.

Definition distanceTo (p q : Vector3) : float :=
  (let dx := vx p - vx q in
   let dy := vy p - vy q in
   let dz := vz p - vz q in
   sqrt (dx * dx + dy * dy + dz * dz))%float.

(** ** The [App] component (lines 350-423) *)

Inductive GameState := title | playing | gameover.

#[global] Instance GameState_eq_dec : EqDecision GameState.
Proof. solve_decision. Defined.

Record App := {
  gameState : GameState;
  score : Z;
  highScore : Z;
  orbs : list Orb;
  obstacles : list Obstacle;
  lives : Z;
  level : Z
}.

(** The state of the first render (the [useState] initial values). *)
Definition App_init : App :=
  {| gameState := title; score := 0; highScore := 0; orbs := [];
     obstacles := []; lives := 3; level := 1 |}.

Definition setGameState (f : GameState -> GameState) (a : App) : App :=
  {| gameState := f (gameState a); score := score a; highScore := highScore a;
     orbs := orbs a; obstacles := obstacles a; lives := lives a;
     level := level a |}.

Definition setScore (f : Z -> Z) (a : App) : App :=
  {| gameState := gameState a; score := f (score a); highScore := highScore a;
     orbs := orbs a; obstacles := obstacles a; lives := lives a;
     level := level a |}.

Definition setHighScore (f : Z -> Z) (a : App) : App :=
  {| gameState := gameState a; score := score a; highScore := f (highScore a);
     orbs := orbs a; obstacles := obstacles a; lives := lives a;
     level := level a |}.

Definition setOrbs (f : list Orb -> list Orb) (a : App) : App :=
  {| gameState := gameState a; score := score a; highScore := highScore a;
     orbs := f (orbs a); obstacles := obstacles a; lives := lives a;
     level := level a |}.

Definition setObstacles (f : list Obstacle -> list Obstacle) (a : App) : App :=
  {| gameState := gameState a; score := score a; highScore := highScore a;
     orbs := orbs a; obstacles := f (obstacles a); lives := lives a;
     level := level a |}.

Definition setLives (f : Z -> Z) (a : App) : App :=
  {| gameState := gameState a; score := score a; highScore := highScore a;
     orbs := orbs a; obstacles := obstacles a; lives := f (lives a);
     level := level a |}.

Definition setLevel (f : Z -> Z) (a : App) : App :=
  {| gameState := gameState a; score := score a; highScore := highScore a;
     orbs := orbs a; obstacles := obstacles a; lives := lives a;
     level := f (level a) |}.

Definition colors : list string :=
  ["#00ffff"; "#ff00ff"; "#ffff00"; "#00ff00"; "#ff6600"]%string.

(** [colors[n]]: [undefined] (here [None]) outside the array. *)
Definition index {A} (l : list A) (n : Z) : option A :=
  if 0 <=? n then l !! Z.to_nat n else None.

(** [generateOrbs] (lines 360-368).  The fields of the object literal are
    evaluated in order: id, position, color, points. *)
Definition generateOrbs (count : nat) : M (list Orb) :=
  Array_from count (fun i =>
    now <- Date_now ;;
    pos <- randomPosition 15 ;;
    c <- Math_random ;;
    p <- Math_random ;;
    ret {| orb_id := now + i;
           orb_position := pos;
           orb_color := index colors (Math_floor (c * 5));
           orb_points := Math_floor (p * 50) + 10 |}) 0.

(** [generateObstacles] (lines 371-381). *)
Definition generateObstacles (count : nat) : M (list Obstacle) :=
  Array_from count (fun i =>
    now <- Date_now ;;
    r1 <- Math_random ;;
    r2 <- Math_random ;;
    r3 <- Math_random ;;
    r4 <- Math_random ;;
    ret {| obs_id := now + i + 1000;
           obs_position :=
             ((r1 - 0.5) * 12, (r2 - 0.5) * 8, -10 - r3 * 20)%float;
           obs_speed := (1 + r4 * 2)%float |}) 0.

(** [startGame] (lines 384-391). *)
Definition startGame (a : App) : M App :=
  let a := setGameState (fun _ => playing) a in
  let a := setScore (fun _ => 0) a in
  let a := setLives (fun _ => 3) a in
  let a := setLevel (fun _ => 1) a in
  fresh <- generateOrbs 10 ;;
  let a := setOrbs (fun _ => fresh) a in
  hazards <- generateObstacles 5 ;;
  ret (setObstacles (fun _ => hazards) a).

(** The timeout callback of [handleCollect] (lines 408-410). *)
Definition runTask (t : Task) (a : App) : M App :=
  match t with
  | Replenish =>
      fresh <- generateOrbs 1 ;;
      ret (setOrbs (fun prev => prev ++ fresh) a)
  end.

(** ** Queued state updates

    [handleCollect] and [handleHit] are called from the frame loop, several
    times in one frame, and call their setters with updater functions.  A
    setter queues the updater on its hook; nothing runs before [App] renders
    again.  The render then runs the queues hook by hook, in the order of the
    [useState] calls (lines 351-357: gameState, score, highScore, orbs,
    obstacles, lives, level), each queue oldest first.  An updater that calls
    other setters while it runs (lines 399-401 and 418-419) queues those
    updates during the render: on a hook that has yet to run they land
    behind what the callbacks queued, and on a hook that has already run
    they are applied when React repeats the render, which it does at
    once. *)

(** The updates an updater queues while it runs, per hook, oldest first. *)
Record Nested := {
  onGameState : list (GameState -> GameState);
  onHighScore : list (Z -> Z);
  onOrbs : list (list Orb -> M (list Orb));
  onObstacles : list (list Obstacle -> M (list Obstacle));
  onLevel : list (Z -> Z)
}.

Definition noNested : Nested :=
  {| onGameState := []; onHighScore := []; onOrbs := []; onObstacles := [];
     onLevel := [] |}.

Definition nest (n1 n2 : Nested) : Nested :=
  {| onGameState := onGameState n1 ++ onGameState n2;
     onHighScore := onHighScore n1 ++ onHighScore n2;
     onOrbs := onOrbs n1 ++ onOrbs n2;
     onObstacles := onObstacles n1 ++ onObstacles n2;
     onLevel := onLevel n1 ++ onLevel n2 |}.

(** The updates the callbacks have queued since the last render: on the
    score (line 395), on the orbs (line 405) and on the lives (line 415). *)
Record Pending := {
  scoreUpdates : list (Z -> Z * Nested);
  orbsUpdates : list (list Orb -> M (list Orb));
  livesUpdates : list (Z -> Z * Nested)
}.

Definition idle : Pending :=
  {| scoreUpdates := []; orbsUpdates := []; livesUpdates := [] |}.

(** The updater of [setScore] (lines 395-404).  [Math.floor(n / 200)] on
    integers is [Z]'s flooring division.  [generateOrbs(3)] and
    [generateObstacles(2)] are called by the queued updaters, when these
    run. *)
Definition scoreUpdater (points : Z) (prev : Z) : Z * Nested :=
  let newScore := prev + points in
  (newScore,
   if prev / 200 <? newScore / 200 then
     {| onGameState := []; onHighScore := [];
        onLevel := [fun l => l + 1];
        onOrbs := [fun prevOrbs =>
                     fresh <- generateOrbs 3 ;; ret (prevOrbs ++ fresh)];
        onObstacles := [fun prevObs =>
                          hazards <- generateObstacles 2 ;;
                          ret (prevObs ++ hazards)] |}
   else noNested).

(** [handleCollect] (lines 394-411): two updates are queued and the
    timeout is set. *)
Definition handleCollect (id points : Z) (p : Pending) : M Pending :=
  let p :=
    {| scoreUpdates := scoreUpdates p ++ [scoreUpdater points];
       orbsUpdates :=
         orbsUpdates p
         ++ [fun prev => ret (filter (fun o => orb_id o ≠ id) prev)];
       livesUpdates := livesUpdates p |} in
  setTimeout Replenish 500 ;;;
  ret p.

(** The updater of [setLives] (lines 415-422).  [score] is the value the
    callback closed over: the score of the render that created it
    (dependency list [[score]]). *)
Definition livesUpdater (score : Z) (prev : Z) : Z * Nested :=
  let newLives := prev - 1 in
  (newLives,
   if newLives <=? 0 then
     {| onGameState := [fun _ => gameover];
        onHighScore := [fun h => Z.max h score];
        onOrbs := []; onObstacles := []; onLevel := [] |}
   else noNested).

(** [handleHit] (lines 414-423). *)
Definition handleHit (score : Z) (p : Pending) : Pending :=
  {| scoreUpdates := scoreUpdates p;
     orbsUpdates := orbsUpdates p;
     livesUpdates := livesUpdates p ++ [livesUpdater score] |}.

(** Running the queue of a hook. *)
Definition runUpdaters (queue : list (Z -> Z * Nested)) (state : Z)
  : Z * Nested :=
  foldl (fun acc f => let '(s, n) := f (fst acc) in (s, nest (snd acc) n))
    (state, noNested) queue.

Fixpoint runQueue {A} (queue : list (A -> M A)) (state : A) : M A :=
  match queue with
  | [] => ret state
  | f :: rest => state' <- f state ;; runQueue rest state'
  end.

Definition applyAll {A} (queue : list (A -> A)) (state : A) : A :=
  foldl (fun s f => f s) state queue.

(** The render that follows: the state [App] renders with next.  What the
    score updaters queue on orbs, obstacles and level runs in the same
    pass, behind the queued updates of those hooks; what the lives updaters
    queue on gameState and highScore runs in the repeated pass. *)
Definition render (p : Pending) (a : App) : M App :=
  let '(score', n1) := runUpdaters (scoreUpdates p) (score a) in
  orbs' <- runQueue (orbsUpdates p ++ onOrbs n1) (orbs a) ;;
  obstacles' <- runQueue (onObstacles n1) (obstacles a) ;;
  let '(lives', n2) := runUpdaters (livesUpdates p) (lives a) in
  let level' := applyAll (onLevel n1 ++ onLevel n2) (level a) in
  let gameState' :=
    applyAll (onGameState n1 ++ onGameState n2) (gameState a) in
  let highScore' :=
    applyAll (onHighScore n1 ++ onHighScore n2) (highScore a) in
  orbs'' <- runQueue (onOrbs n2) orbs' ;;
  obstacles'' <- runQueue (onObstacles n2) obstacles' ;;
  ret {| gameState := gameState'; score := score'; highScore := highScore';
         orbs := orbs''; obstacles := obstacles''; lives := lives';
         level := level' |}.

(** ** The [GameScene] component (lines 233-269)

    [handlePositionChange] runs once per rendered frame with the player's
    position.  It reads the props of the render that created it ([orbs],
    [obstacles], [gameActive]) and the mutable set [collectedIds], and calls
    [onCollect] and [onHit].  The callbacks are parameters, as in the source;
    [S] is whatever they act on. *)
Section GameScene.
Context {S : Type}.
Variable onCollect : Z -> Z -> S -> S.
Variable onHit : S -> S.

(** The body of [orbs.forEach] (lines 253-260). *)
Definition checkOrb (pos : Vector3) (acc : gset Z * S) (orb : Orb)
  : gset Z * S :=
  let (collectedIds, s) := acc in
  if decide (orb_id orb ∈ collectedIds) then acc
  else if (distanceTo pos (Vector3_of (orb_position orb)) <? 0.8)%float
  then ({[ orb_id orb ]} ∪ collectedIds,
        onCollect (orb_id orb) (orb_points orb) s)
  else acc.

(** The body of [obstacles.forEach] (lines 263-268). *)
Definition checkObstacle (pos : Vector3) (s : S) (obs : Obstacle) : S :=
  if (distanceTo pos (Vector3_of (obs_position obs)) <? 1.2)%float
  then onHit s else s.

Definition handlePositionChange (gameActive : bool) (orbs : list Orb)
    (obstacles : list Obstacle) (pos : Vector3) (acc : gset Z * S)
  : gset Z * S :=
  if negb gameActive then acc
  else
    let (collectedIds, s) := foldl (checkOrb pos) acc orbs in
    (collectedIds, foldl (checkObstacle pos) s obstacles).
End GameScene.

(** ** The running application

    The React state of [App], the [collectedIds] ref of [GameScene] and the
    host.  [GameScene] is mounted when the game leaves the title screen and
    stays mounted afterwards (line 438), so its ref lives as long as the
    world does. *)
Record World := {
  app : App;
  collectedIds : gset Z;
  host : Host
}.

Definition World_init (h : Host) : World :=
  {| app := App_init; collectedIds := ∅; host := h |}.

(** A click on START GAME or PLAY AGAIN; the buttons are rendered on the
    title and game-over screens only (lines 453-474 and 519-558). *)
Definition click (w : World) : World :=
  if decide (gameState (app w) = playing) then w
  else
    let (a, h) := startGame (app w) (host w) in
    {| app := a; collectedIds := collectedIds w; host := h |}.

(** One rendered frame: [PlayerShip]'s [useFrame] calls
    [handlePositionChange] (line 72) with the callbacks of the last render:
    [onCollect] is [handleCollect], [onHit] is [handleHit] closed over the
    rendered score, and the props are the rendered lists.  The callbacks
    queue their updates; [App] renders once, after the frame. *)
Definition frame (pos : Vector3) (w : World) : World :=
  let rendered := app w in
  let onCollect id points (s : Pending * Host) :=
    handleCollect id points (fst s) (snd s) in
  let onHit (s : Pending * Host) :=
    (handleHit (score rendered) (fst s), snd s) in
  let '(ids, (p, h)) :=
    handlePositionChange onCollect onHit
      (bool_decide (gameState rendered = playing))
      (orbs rendered) (obstacles rendered) pos
      (collectedIds w, (idle, host w)) in
  let (a, h') := render p (app w) h in
  {| app := a; collectedIds := ids; host := h' |}.

Definition dropTimer (h : Host) : Host :=
  {| clock := clock h; entropy := entropy h; clockReads := clockReads h;
     draws := draws h; timers := tail (timers h) |}.

(** The oldest pending timeout fires (all delays are equal, so timeouts
    fire in the order in which they were set). *)
Definition timeout (w : World) : World :=
  match timers (host w) with
  | [] => w
  | t :: _ =>
      let (a, h) := runTask (task t) (app w) (dropTimer (host w)) in
      {| app := a; collectedIds := collectedIds w; host := h |}
  end.

Inductive Input :=
  | Click
  | Frame (pos : Vector3)
  | Timeout.

Definition step (w : World) (i : Input) : World :=
  match i with
  | Click => click w
  | Frame pos => frame pos w
  | Timeout => timeout w
  end.

Definition run (w : World) (inputs : list Input) : World :=
  foldl step w inputs.

(** The events of a frame, as data: [handlePositionChange] with callbacks
    that record their calls. *)
Inductive Event :=
  | Collect (id points : Z)
  | Hit.

Definition emitted (gameActive : bool) (orbs : list Orb)
    (obstacles : list Obstacle) (pos : Vector3) (ids : gset Z)
  : gset Z * list Event :=
  handlePositionChange (fun id points log => log ++ [Collect id points])
    (fun log => log ++ [Hit]) gameActive orbs obstacles pos (ids, []).

(** ** The [PlayerShip] component (lines 28-80)

    The mesh is created at [[0, 0, 0]] and [targetPos] at the origin.  The
    pointer and touch handlers set the target ([z] is the literal 0); the
    frame callback moves the mesh towards the target with [Vector3.lerp]
    ([this.x += (v.x - this.x) * alpha], and so on for [y] and [z]), copies
    the position and passes it to [onPositionChange].  The tilt of lines
    74-78 only writes the rotation. *)
Definition lerp (p v : Vector3) (alpha : float) : Vector3 :=
  {| vx := vx p + (vx v - vx p) * alpha;
     vy := vy p + (vy v - vy p) * alpha;
     vz := vz p + (vz v - vz p) * alpha |}%float.

Record PlayerShip := {
  meshPosition : Vector3;
  targetPos : Vector3
}.

Definition PlayerShip_mount : PlayerShip :=
  {| meshPosition := {| vx := 0; vy := 0; vz := 0 |};
     targetPos := {| vx := 0; vy := 0; vz := 0 |} |}.

(** What the handlers read from the window and the canvas. *)
Record Screen := {
  innerWidth : float;
  innerHeight : float;
  viewportWidth : float;
  viewportHeight : float
}.

Definition handlePointerMove (scr : Screen) (clientX clientY : float)
    (s : PlayerShip) : PlayerShip :=
  (let x := clientX / innerWidth scr * 2 - 1 in
   let y := - (clientY / innerHeight scr) * 2 + 1 in
   {| meshPosition := meshPosition s;
      targetPos := {| vx := x * viewportWidth scr / 2 * 0.8;
                      vy := y * viewportHeight scr / 2 * 0.8;
                      vz := 0 |} |})%float.

Definition handleTouchMove (scr : Screen) (touches : list (float * float))
    (s : PlayerShip) : PlayerShip :=
  match touches with
  | [] => s
  | (clientX, clientY) :: _ => handlePointerMove scr clientX clientY s
  end.

(** The frame callback: the new state of the ship and the position given
    to [onPositionChange]. *)
Definition PlayerShip_frame (delta : float) (s : PlayerShip)
  : PlayerShip * Vector3 :=
  let p := lerp (meshPosition s) (targetPos s) (delta * 8)%float in
  ({| meshPosition := p; targetPos := targetPos s |}, p).

Inductive Gesture :=
  | PointerMove (scr : Screen) (clientX clientY : float)
  | TouchMove (scr : Screen) (touches : list (float * float))
  | Tick (delta : float).

(** The positions reported over a sequence of events, oldest first. *)
Fixpoint reported (s : PlayerShip) (gs : list Gesture) : list Vector3 :=
  match gs with
  | [] => []
  | PointerMove scr x y :: rest => reported (handlePointerMove scr x y s) rest
  | TouchMove scr touches :: rest =>
      reported (handleTouchMove scr touches s) rest
  | Tick delta :: rest =>
      let (s', p) := PlayerShip_frame delta s in p :: reported s' rest
  end.

(** ** The [Obstacle] component (lines 174-190)

    Each obstacle's mesh is created at the position of its record and
    moved by its own frame callback; the callback writes the mesh only,
    the record that [handlePositionChange] reads is never touched. *)
Record Mesh := {
  mesh_position : Vector3;
  mesh_rotation : Vector3
}.

Definition Obstacle_frame (speed delta : float) (m : Mesh) : M Mesh :=
  let rot := {| vx := vx (mesh_rotation m) + delta * speed;
                vy := vy (mesh_rotation m) + delta * speed * 0.7;
                vz := vz (mesh_rotation m) |}%float in
  let z := (vz (mesh_position m) + delta * speed * 2)%float in
  if (10 <? z)%float then
    r1 <- Math_random ;;
    r2 <- Math_random ;;
    ret {| mesh_position := {| vx := (r1 - 0.5) * 12;
                               vy := (r2 - 0.5) * 8;
                               vz := -30 |}%float;
           mesh_rotation := rot |}
  else
    ret {| mesh_position := {| vx := vx (mesh_position m);
                               vy := vy (mesh_position m);
                               vz := z |};
           mesh_rotation := rot |}.

Fixpoint Obstacle_frames (speed : float) (deltas : list float) (m : Mesh)
  : M Mesh :=
  match deltas with
  | [] => ret m
  | delta :: rest =>
      m' <- Obstacle_frame speed delta m ;; Obstacle_frames speed rest m'
  end.

(** The mesh as it is mounted for a record. *)
Definition Obstacle_mount (obs : Obstacle) : Mesh :=
  {| mesh_position := Vector3_of (obs_position obs);
     mesh_rotation := {| vx := 0; vy := 0; vz := 0 |} |}.

(** ** What the overlay shows (lines 451-559)

    The lives row is [Array.from({ length: 3 }, (_, i) => ...)] with the
    slot lit when [i < lives]; it is rendered while the phase is Playing.
    The title screen is the only place that prints [highScore]. *)
Definition livesRow (lives : Z) : list bool :=
  (fun i : nat => Z.of_nat i <? lives) <$> seq 0 3.

(** ** A whole session

    The application together with its ship.  [PlayerShip] is mounted
    while the game is active (line 288): a start mounts a new ship at the
    origin, and outside play there is no ship to move, no listener for the
    pointer and no frame callback. *)
Record Session := {
  world : World;
  ship : PlayerShip
}.

Inductive Action :=
  | Press
  | Pointer (scr : Screen) (clientX clientY : float)
  | Touch (scr : Screen) (touches : list (float * float))
  | Render (delta : float)
  | Expire.

Definition act (s : Session) (a : Action) : Session :=
  if bool_decide (gameState (app (world s)) = playing) then
    match a with
    | Press => s
    | Pointer scr x y =>
        {| world := world s; ship := handlePointerMove scr x y (ship s) |}
    | Touch scr touches =>
        {| world := world s; ship := handleTouchMove scr touches (ship s) |}
    | Render delta =>
        let (ship', pos) := PlayerShip_frame delta (ship s) in
        {| world := frame pos (world s); ship := ship' |}
    | Expire => {| world := timeout (world s); ship := ship s |}
    end
  else
    match a with
    | Press => {| world := click (world s); ship := PlayerShip_mount |}
    | Expire => {| world := timeout (world s); ship := ship s |}
    | _ => s
    end.

Definition play (h : Host) (actions : list Action) : Session :=
  foldl act {| world := World_init h; ship := PlayerShip_mount |} actions.

(** * Binary64 arithmetic

    Bounds on the results of the floating-point operations of the
    generators, from the specification of the primitive operations
    ([mul_spec], [sub_spec], [add_spec]: the operation on [spec_float],
    rounding to nearest, ties to even). *)

Lemma pow2_pred (k : Z) : 0 < k -> 2 ^ k = 2 * 2 ^ (k - 1).
Proof.
  intros Hk. rewrite <- Z.pow_succ_r by lia. f_equal. lia.
Qed.

Lemma pow2_pos (k : Z) : 0 <= k -> 0 < 2 ^ k.
Proof. intros. apply Z.pow_pos_nonneg; lia. Qed.

(** ** Powers of two and the number of digits *)
Lemma digits2_pos_bounds (m : positive) :
  2 ^ (Zpos (digits2_pos m) - 1) <= Zpos m < 2 ^ Zpos (digits2_pos m).
Proof.
  induction m as [m IH|m IH|]; cbn [digits2_pos].
  - rewrite Pos2Z.inj_succ.
    replace (Z.succ (Zpos (digits2_pos m)) - 1) with (Zpos (digits2_pos m)) by lia.
    rewrite Z.pow_succ_r by lia.
    rewrite (pow2_pred (Zpos (digits2_pos m))) in * by lia.
    change (Zpos m~1) with (2 * Zpos m + 1). lia.
  - rewrite Pos2Z.inj_succ.
    replace (Z.succ (Zpos (digits2_pos m)) - 1) with (Zpos (digits2_pos m)) by lia.
    rewrite Z.pow_succ_r by lia.
    rewrite (pow2_pred (Zpos (digits2_pos m))) in * by lia.
    change (Zpos m~0) with (2 * Zpos m). lia.
  - cbn. lia.
Qed.

Lemma digits2_pos_le (m : positive) (j : Z) :
  0 <= j -> Zpos m < 2 ^ j -> Zpos (digits2_pos m) <= j.
Proof.
  intros Hj Hm. destruct (digits2_pos_bounds m) as [Hlo _].
  destruct (Z_lt_le_dec j (Zpos (digits2_pos m))) as [Hlt|]; [|assumption].
  assert (2 ^ j <= 2 ^ (Zpos (digits2_pos m) - 1)) by (apply Z.pow_le_mono_r; lia).
  lia.
Qed.

Lemma digits2_pos_gt (m : positive) (j : Z) :
  2 ^ j <= Zpos m -> j < Zpos (digits2_pos m).
Proof.
  intros Hm. destruct (digits2_pos_bounds m) as [_ Hhi].
  destruct (Z_lt_le_dec j (Zpos (digits2_pos m))) as [|Hle]; [assumption|].
  assert (2 ^ Zpos (digits2_pos m) <= 2 ^ j) by (apply Z.pow_le_mono_r; lia).
  lia.
Qed.

(** ** Shifting a mantissa right *)
Lemma iter_pos_nat {A} (f : A -> A) (p : positive) (x : A) :
  SpecFloat.iter_pos f p x = Nat.iter (Pos.to_nat p) f x.
Proof.
  revert x; induction p as [p IH|p IH|]; intros x; cbn [SpecFloat.iter_pos].
  - rewrite !IH, Pos2Nat.inj_xI.
    replace (S (2 * Pos.to_nat p)) with (Pos.to_nat p + S (Pos.to_nat p))%nat by lia.
    rewrite Nat.iter_add. f_equal. now rewrite Nat.iter_succ_r.
  - rewrite !IH, Pos2Nat.inj_xO.
    replace (2 * Pos.to_nat p)%nat with (Pos.to_nat p + Pos.to_nat p)%nat by lia.
    now rewrite Nat.iter_add.
  - reflexivity.
Qed.

Lemma shr_1_m (r : shr_record) :
  0 <= shr_m r -> shr_m (shr_1 r) = shr_m r / 2 /\ shr_r (shr_1 r) = Z.odd (shr_m r).
Proof.
  destruct r as [m rb sb]. cbn [shr_m]. intros Hm. unfold shr_1.
  destruct m as [|[p|p|]|p]; cbn [shr_m shr_r]; try lia.
  - split; reflexivity.
  - split; [|reflexivity]. change (Zpos p~1) with (2 * Zpos p + 1).
    apply Z.div_unique with (r := 1); lia.
  - split; [|reflexivity]. change (Zpos p~0) with (2 * Zpos p).
    apply Z.div_unique with (r := 0); lia.
  - split; reflexivity.
Qed.

Lemma shr_iter (N : Z) (k : nat) (r0 : shr_record) :
  0 <= N -> shr_m r0 = N ->
  let r := Nat.iter k shr_1 r0 in
  shr_m r = N / 2 ^ Z.of_nat k /\
  (0 < k -> shr_r r = Z.odd (N / 2 ^ (Z.of_nat k - 1)))%nat.
Proof.
  intros HN H0. cbv zeta. induction k as [|k IH].
  - simpl. rewrite Z.div_1_r. split; [assumption|lia].
  - rewrite Nat.iter_succ. destruct IH as [IHm IHr].
    assert (Hq : 0 <= N / 2 ^ Z.of_nat k).
    { apply Z.div_pos; [lia|]. apply pow2_pos; lia. }
    destruct (shr_1_m (Nat.iter k shr_1 r0)) as [Hm Hr]; [rewrite IHm; exact Hq|].
    rewrite Hm, Hr, IHm. split.
    + rewrite Z.div_div by (try apply pow2_pos; lia).
      f_equal. rewrite Nat2Z.inj_succ, Z.pow_succ_r by lia. lia.
    + intros _. replace (Z.of_nat (S k) - 1) with (Z.of_nat k) by lia.
      reflexivity.
Qed.

Lemma fexp_eq (e : Z) : fexp prec emax e = Z.max (e - 53) (-1074).
Proof. reflexivity. Qed.

Lemma odd_half (N n : Z) :
  0 <= N -> 0 < n -> Z.odd (N / 2 ^ (n - 1)) = true ->
  2 ^ n <= 2 * (N mod 2 ^ n).
Proof.
  intros HN Hn Hodd.
  rewrite (pow2_pred n) by lia.
  assert (Hp : 0 < 2 ^ (n - 1)) by (apply pow2_pos; lia).
  rewrite (Z.mul_comm 2 (2 ^ (n - 1))) at 2.
  rewrite Z.rem_mul_r by lia.
  rewrite Zmod_odd, Hodd.
  pose proof (Z.mod_pos_bound N (2 ^ (n - 1)) Hp). lia.
Qed.

Definition rounded (s : bool) (m1 e1 : Z) (x : spec_float) : Prop :=
  (m1 = 0 /\ x = S754_zero s) \/
  (0 < m1 < 2 ^ 53 /\ x = S754_finite s (Z.to_pos m1) e1) \/
  (m1 = 2 ^ 53 /\ x = S754_finite s (Z.to_pos (2 ^ 52)) (e1 + 1)).

Lemma second_shift (s : bool) (m1 e1 : Z) :
  0 <= m1 <= 2 ^ 53 -> -1074 <= e1 -> e1 + 1 <= 971 ->
  rounded s m1 e1
    (let '(mrs'', e'') := shr_fexp prec emax m1 e1 loc_Exact in
     match shr_m mrs'' with
     | Z0 => S754_zero s
     | Zpos m => if Z.leb e'' (Z.sub emax prec) then S754_finite s m e''
                 else S754_infinity s
     | _ => S754_nan
     end).
Proof.
  intros Hm He Hmax. unfold shr_fexp, rounded.
  destruct m1 as [|p|p]; [| |lia].
  - left. cbn [Zdigits2]. rewrite fexp_eq.
    replace (0 + e1) with e1 by lia.
    unfold shr.
    destruct (Z.max (e1 - 53) (-1074) - e1) eqn:E; try (split; reflexivity).
    lia.
  - destruct (Z.eq_dec (Zpos p) (2 ^ 53)) as [Heq|Hne].
    + right; right. split; [assumption|].
      assert (Hp : p = 9007199254740992%positive) by lia. subst p.
      cbn [Zdigits2].
      change (Zpos (digits2_pos 9007199254740992)) with 54.
      rewrite fexp_eq.
      replace (Z.max (54 + e1 - 53) (-1074) - e1) with 1 by lia.
      cbn [shr SpecFloat.iter_pos shr_record_of_loc shr_1 shr_m].
      change (Z.sub emax prec) with 971.
      destruct (Z.leb_spec (e1 + 1) 971); [reflexivity|lia].
    + right; left. split; [lia|]. cbn [Zdigits2]. rewrite fexp_eq.
      assert (Hd : Zpos (digits2_pos p) <= 53) by (apply digits2_pos_le; lia).
      unfold shr.
      destruct (Z.max (Z.pos (digits2_pos p) + e1 - 53) (-1074) - e1) eqn:E;
        try lia; cbn [shr_record_of_loc shr_m];
        change (Z.sub emax prec) with 971;
        (destruct (Z.leb_spec e1 971); [reflexivity|lia]).
Qed.

Lemma binary_round_aux_spec (s : bool) (N : positive) (ex : Z) :
  let e1 := fexp prec emax (Zpos (digits2_pos N) + ex) in
  let n := e1 - ex in
  let q := Zpos N / 2 ^ n in
  ex <= e1 -> e1 + 1 <= 971 ->
  exists m1,
    q <= m1 <= q + 1 /\
    (m1 = q + 1 -> 0 < n /\ 2 ^ n <= 2 * (Zpos N mod 2 ^ n)) /\
    rounded s m1 e1 (binary_round_aux prec emax s (Zpos N) ex loc_Exact).
Proof.
  intros e1 n q Hn Hmax.
  assert (He1 : -1074 <= e1) by (unfold e1; rewrite fexp_eq; lia).
  assert (He1' : Zpos (digits2_pos N) + ex - 53 <= e1)
    by (unfold e1; rewrite fexp_eq; lia).
  assert (Hpow : 0 < 2 ^ n) by (apply pow2_pos; lia).
  assert (Hq : 0 <= q < 2 ^ 53).
  { unfold q. split; [apply Z.div_pos; lia|].
    apply Z.div_lt_upper_bound; [lia|].
    rewrite <- Z.pow_add_r by lia.
    destruct (digits2_pos_bounds N) as [_ Hhi].
    eapply Z.lt_le_trans; [exact Hhi|]. apply Z.pow_le_mono_r; lia. }
  unfold binary_round_aux.
  unfold shr_fexp at 1. cbn [Zdigits2]. fold e1. fold n.
  unfold shr. cbn [shr_record_of_loc].
  destruct n as [|p|p] eqn:En; [| |lia].
  - (* no shift *)
    exists (Zpos N).
    assert (q = Zpos N) by (unfold q; rewrite Z.pow_0_r, Z.div_1_r; reflexivity).
    split; [lia|]. split; [lia|].
    cbv beta iota.
    cbn [shr_m shr_r shr_s loc_of_shr_record round_nearest_even].
    replace ex with e1 at 1 by lia.
    apply second_shift; lia.
  - (* shift by p *)
    cbv beta iota. rewrite iter_pos_nat.
    destruct (shr_iter (Zpos N) (Pos.to_nat p)
                {| shr_m := Zpos N; shr_r := false; shr_s := false |})
      as [Hm Hr]; [lia|reflexivity|].
    rewrite positive_nat_Z in Hm, Hr.
    specialize (Hr (Pos2Nat.is_pos p)).
    destruct (Nat.iter (Pos.to_nat p) shr_1 _) as [m rb sb].
    cbn [shr_m shr_r shr_s] in *. fold q in Hm. subst m.
    replace (ex + Zpos p) with e1 by lia.
    destruct rb.
    + (* at least half *)
      pose proof (odd_half (Zpos N) (Zpos p) ltac:(lia) ltac:(lia)
                    (eq_sym Hr)) as Hhalf.
      destruct sb; cbn [loc_of_shr_record round_nearest_even].
      * exists (q + 1). split; [lia|]. split; [intros; split; lia|].
        apply second_shift; lia.
      * destruct (Z.even q).
        -- exists q. split; [lia|]. split; [lia|]. apply second_shift; lia.
        -- exists (q + 1). split; [lia|]. split; [intros; split; lia|].
           apply second_shift; lia.
    + exists q. split; [lia|]. split; [lia|].
      destruct sb; cbn [loc_of_shr_record round_nearest_even];
        apply second_shift; lia.
Qed.

(** [x] is a zero of sign [s] or a finite number of sign [s] whose
    magnitude is at most that of the canonical pair [(kb, eb)]. *)
Definition below (s : bool) (kb : positive) (eb : Z) (x : spec_float) : Prop :=
  x = S754_zero s \/
  exists m e, x = S754_finite s m e /\
              (e < eb \/ (e = eb /\ Zpos m <= Zpos kb)).

Lemma round_below (s : bool) (N : positive) (ex : Z) (kb : positive)
    (eb : Z) :
  ex <= fexp prec emax (Zpos (digits2_pos N) + ex) ->
  2 ^ 52 <= Zpos kb < 2 ^ 53 -> -1074 <= eb <= 970 -> ex <= eb ->
  2 * Zpos N < (2 * Zpos kb + 1) * 2 ^ (eb - ex) ->
  below s kb eb (binary_round_aux prec emax s (Zpos N) ex loc_Exact).
Proof.
  intros Hn Hkb Heb Hex Hmid.
  set (e1 := fexp prec emax (Zpos (digits2_pos N) + ex)) in *.
  assert (HP : 0 < 2 ^ (eb - ex)) by (apply pow2_pos; lia).
  assert (He1 : e1 <= eb).
  { unfold e1. rewrite fexp_eq.
    assert (Zpos (digits2_pos N) <= 53 + (eb - ex)); [|lia].
    apply digits2_pos_le; [lia|].
    rewrite Z.pow_add_r by lia. nia. }
  destruct (binary_round_aux_spec s N ex) as (m1 & Hm1 & Hup & Hr);
    [exact Hn | fold e1; lia |].
  fold e1 in Hm1, Hup, Hr.
  set (n := e1 - ex) in *. set (q := Zpos N / 2 ^ n) in *.
  assert (Hpn : 0 < 2 ^ n) by (apply pow2_pos; unfold n; lia).
  pose proof (Z.div_mod (Zpos N) (2 ^ n) ltac:(lia)) as Hdm. fold q in Hdm.
  pose proof (Z.mod_pos_bound (Zpos N) (2 ^ n) Hpn) as Hmod.
  destruct (Z.eq_dec e1 eb) as [Heq|Hne].
  - assert (Hle : m1 <= Zpos kb).
    { assert (En : eb - ex = n) by (unfold n; lia). rewrite En in Hmid.
      destruct (Z.eq_dec m1 (q + 1)) as [Hq1|Hq1].
      - destruct (Hup Hq1) as [_ Hhalf]. nia.
      - assert (m1 = q) by lia. nia. }
    destruct Hr as [[H0 ->]|[[Hpos ->]|[H53 _]]]; [now left| |lia].
    right. exists (Z.to_pos m1), e1. split; [reflexivity|].
    right. split; [assumption|]. rewrite Z2Pos.id by lia. assumption.
  - destruct Hr as [[H0 ->]|[[Hpos ->]|[H53 ->]]]; [now left| |].
    + right. exists (Z.to_pos m1), e1. split; [reflexivity|]. left. lia.
    + right. exists (Z.to_pos (2 ^ 52)), (e1 + 1). split; [reflexivity|].
      destruct (Z.eq_dec (e1 + 1) eb); [right|left; lia].
      split; [assumption|]. rewrite Z2Pos.id by lia. lia.
Qed.

(** ** Comparisons on [spec_float] *)

Lemma pos_compare_cont (p q : positive) :
  Pos.compare_cont Eq p q = Z.compare (Zpos p) (Zpos q).
Proof. reflexivity. Qed.

(** A float in [[0, 1)]: a zero, or positive with exponent at most [-53]. *)
Definition unitSF (x : spec_float) : Prop :=
  (exists s, x = S754_zero s) \/
  exists m e, x = S754_finite false m e /\ e <= -53 /\ Zpos m < 2 ^ 53.

Lemma valid_finite (s : bool) (m : positive) (e : Z) :
  valid_binary (S754_finite s m e) = true ->
  e = fexp prec emax (Zpos (digits2_pos m) + e) /\ e <= 971 /\
  Zpos m < 2 ^ 53 /\ -1074 <= e.
Proof.
  cbn [valid_binary]. unfold bounded, canonical_mantissa.
  intros H. apply andb_prop in H as [Hc Hb].
  apply Z.eqb_eq in Hc. apply Z.leb_le in Hb.
  change (Z.sub emax prec) with 971 in Hb.
  split; [now symmetry|]. split; [assumption|].
  rewrite fexp_eq in Hc.
  destruct (digits2_pos_bounds m) as [_ Hhi].
  split; [|lia].
  eapply Z.lt_le_trans; [exact Hhi|]. apply Z.pow_le_mono_r; lia.
Qed.

Lemma unit_interval (r : float) :
  (0 <=? r)%float = true -> (r <? 1)%float = true -> unitSF (Prim2SF r).
Proof.
  rewrite leb_spec, ltb_spec. intros H0 H1.
  pose proof (Prim2SF_valid r) as Hv.
  change (Prim2SF 0) with (S754_zero false) in H0.
  change (Prim2SF 1) with (S754_finite false 4503599627370496 (-52)) in H1.
  unfold SFleb, SFltb in *.
  destruct (Prim2SF r) as [s|s| |s m e]; cbn [SFcompare] in *.
  - left. now exists s.
  - destruct s; discriminate.
  - discriminate.
  - destruct s; [discriminate|].
    apply valid_finite in Hv as (Hc & _ & Hm & _).
    right. exists m, e. split; [reflexivity|]. split; [|assumption].
    rewrite fexp_eq in Hc.
    destruct (Z.compare_spec e (-52)) as [He|He|He]; [|lia|discriminate].
    rewrite pos_compare_cont in H1.
    destruct (Z.compare_spec (Zpos m) 4503599627370496) as [Hm'|Hm'|Hm'];
      try discriminate.
    assert (Zpos (digits2_pos m) <= 52) by (apply digits2_pos_le; lia).
    lia.
Qed.

(** ** Alignment and [binary_round] *)

Lemma pos_iter_xO (m d : positive) :
  Zpos (Pos.iter xO m d) = Zpos m * 2 ^ Zpos d.
Proof.
  induction d as [|d IH] using Pos.peano_ind.
  - cbn [Pos.iter]. change (Zpos m~0) with (2 * Zpos m). cbn. lia.
  - rewrite Pos.iter_succ, Pos2Z.inj_succ, Z.pow_succ_r by lia.
    change (Zpos (Pos.iter xO m d)~0) with (2 * Zpos (Pos.iter xO m d)).
    rewrite IH. lia.
Qed.

Lemma shl_align_spec (mx : positive) (ex ex' : Z) :
  let '(mz, ez) := shl_align mx ex ex' in
  ez = Z.min ex ex' /\ Zpos mz = Zpos mx * 2 ^ (ex - ez).
Proof.
  unfold shl_align. destruct (ex' - ex) as [|d|d] eqn:E.
  - split; [lia|]. rewrite Z.sub_diag, Z.pow_0_r. lia.
  - split; [lia|]. rewrite Z.sub_diag, Z.pow_0_r. lia.
  - split; [lia|]. rewrite pos_iter_xO.
    replace (ex - ex') with (Zpos d) by lia. reflexivity.
Qed.

Lemma digits2_pos_shift (m mz : positive) (k : Z) :
  0 <= k -> Zpos mz = Zpos m * 2 ^ k ->
  Zpos (digits2_pos m) + k <= Zpos (digits2_pos mz).
Proof.
  intros Hk Hmz.
  assert (Zpos (digits2_pos m) + k - 1 < Zpos (digits2_pos mz)); [|lia].
  apply digits2_pos_gt. rewrite Hmz.
  replace (Zpos (digits2_pos m) + k - 1) with (Zpos (digits2_pos m) - 1 + k)
    by lia.
  rewrite Z.pow_add_r by lia.
  destruct (digits2_pos_bounds m) as [Hlo _].
  apply Z.mul_le_mono_nonneg_r; [|assumption].
  apply Z.lt_le_incl, pow2_pos; lia.
Qed.

Lemma binary_round_below (s : bool) (p : positive) (e : Z) (kb : positive)
    (eb : Z) :
  2 ^ 52 <= Zpos kb < 2 ^ 53 -> -1074 <= eb <= 970 -> e <= eb ->
  Zpos p <= Zpos kb * 2 ^ (eb - e) ->
  below s kb eb (binary_round prec emax s p e).
Proof.
  intros Hkb Heb He Hp. unfold binary_round.
  pose proof (shl_align_spec p e (fexp prec emax (Zpos (digits2_pos p) + e)))
    as Hal.
  destruct (shl_align p e _) as [mz ez]. destruct Hal as [Hez Hmz].
  assert (Hpow : 0 < 2 ^ (e - ez)) by (apply pow2_pos; lia).
  apply round_below; try assumption; try lia.
  - pose proof (digits2_pos_shift p mz (e - ez) ltac:(lia) Hmz) as Hd.
    rewrite fexp_eq in *. lia.
  - rewrite Hmz.
    replace (eb - ez) with ((eb - e) + (e - ez)) by lia.
    rewrite Z.pow_add_r by lia.
    assert (0 < 2 ^ (eb - e)) by (apply pow2_pos; lia).
    nia.
Qed.

(** ** Subtraction of one half from a number of the unit interval *)

Lemma sub_half_below (x : spec_float) :
  unitSF x ->
  exists s, below s 4503599627370496 (-53)
              (SF64sub x (S754_finite false 4503599627370496 (-53))).
Proof.
  intros [[s ->]|(m & e & -> & He & Hm)].
  - exists true. right. exists 4503599627370496%positive, (-53).
    split; [reflexivity|]. right. split; [reflexivity|lia].
  - unfold SF64sub, SFsub. cbn [cond_Zopp].
    rewrite Z.min_l by lia.
    pose proof (shl_align_spec m e e) as Ha.
    destruct (shl_align m e e) as [a ea]. destruct Ha as [Hea Ha].
    rewrite Z.min_id in Hea. subst ea.
    pose proof (shl_align_spec 4503599627370496 (-53) e) as Hb.
    destruct (shl_align 4503599627370496 (-53) e) as [b eb'].
    destruct Hb as [Heb Hb]. cbn [fst].
    rewrite Z.min_r in Heb by lia. subst eb'.
    rewrite Z.sub_diag, Z.pow_0_r, Z.mul_1_r in Ha.
    assert (Hpow : 1 <= 2 ^ (-53 - e)).
    { change 1 with (2 ^ 0). apply Z.pow_le_mono_r; lia. }
    change (Zpos 4503599627370496) with (2 ^ 52) in Hb.
    assert (Hbb : Zpos b = 2 ^ 52 * 2 ^ (-53 - e)) by exact Hb.
    unfold binary_normalize.
    destruct (Zpos a - Zpos b) as [|p|p] eqn:E.
    + exists false. now left.
    + exists false. apply binary_round_below; lia.
    + exists true. apply binary_round_below; lia.
Qed.

(** ** Products *)

Lemma mul_below (sx sc : bool) (mx mc : positive) (ex ec : Z)
    (kb : positive) (eb : Z) :
  2 ^ 52 <= Zpos mc -> 2 ^ 52 <= Zpos kb < 2 ^ 53 ->
  -1074 <= eb <= 970 -> ex + ec <= eb ->
  2 * (Zpos mx * Zpos mc) < (2 * Zpos kb + 1) * 2 ^ (eb - (ex + ec)) ->
  below (xorb sx sc) kb eb
    (SF64mul (S754_finite sx mx ex) (S754_finite sc mc ec)).
Proof.
  intros Hmc Hkb Heb Hex Hmid. unfold SF64mul, SFmul.
  apply round_below; try assumption.
  rewrite fexp_eq.
  assert (52 < Zpos (digits2_pos (mx * mc))); [|lia].
  apply digits2_pos_gt. rewrite Pos2Z.inj_mul. nia.
Qed.

(** Half of a constant: [|x| <= 1/2] gives [|x * c| <= c / 2]. *)
Lemma mul_half_below (s : bool) (x : spec_float) (mc : positive) (ec : Z) :
  valid_binary x = true ->
  below s 4503599627370496 (-53) x ->
  2 ^ 52 <= Zpos mc < 2 ^ 53 -> -1000 <= ec <= 900 ->
  below s mc (ec - 1) (SF64mul x (S754_finite false mc ec)).
Proof.
  intros Hv [->|(m & e & -> & Hle)] Hmc Hec.
  - left. unfold SF64mul, SFmul. now destruct s.
  - apply valid_finite in Hv as (_ & _ & Hm & He).
    replace s with (xorb s false) at 1 by now destruct s.
    change (Zpos 4503599627370496) with (2 ^ 52) in Hle.
    assert (Hp : Zpos m <= 2 ^ (-1 - e) /\ e <= -53).
    { destruct Hle as [Hlt|[-> Hm52]]; [|split; [exact Hm52|lia]].
      split; [|lia].
      transitivity (2 ^ 53); [lia|]. apply Z.pow_le_mono_r; lia. }
    destruct Hp as [Hp He53].
    apply mul_below; try lia.
    replace (ec - 1 - (e + ec)) with (-1 - e) by lia.
    assert (0 < 2 ^ (-1 - e)) by (apply pow2_pos; lia).
    nia.
Qed.

(** A zero of either sign, or a positive number of magnitude at most
    [(kb, eb)]. *)
Definition upto (kb : positive) (eb : Z) (x : spec_float) : Prop :=
  (exists s, x = S754_zero s) \/
  exists m e, x = S754_finite false m e /\
              (e < eb \/ (e = eb /\ Zpos m <= Zpos kb)).

Lemma below_upto (kb : positive) (eb : Z) (x : spec_float) :
  below false kb eb x -> upto kb eb x.
Proof.
  intros [->|H]; [left; now exists false | right; exact H].
Qed.

(** A number of the unit interval times a positive constant [c]: the
    product is at most [c], and below [c] when [c] is no power of two. *)
Lemma mul_unit_upto (x : spec_float) (mc : positive) (ec : Z) :
  unitSF x -> 2 ^ 52 <= Zpos mc < 2 ^ 53 -> -1000 <= ec <= 900 ->
  upto mc ec (SF64mul x (S754_finite false mc ec)) /\
  (2 ^ 52 < Zpos mc ->
   upto (Pos.pred mc) ec (SF64mul x (S754_finite false mc ec))).
Proof.
  intros [[s ->]|(m & e & -> & He & Hm)] Hmc Hec.
  - unfold SF64mul, SFmul. split; [|intros _]; left; eexists; reflexivity.
  - assert (Hpow : 2 ^ 53 <= 2 ^ (- e)) by (apply Z.pow_le_mono_r; lia).
    assert (Hprod : Zpos m * Zpos mc <= (2 ^ 53 - 1) * Zpos mc)
      by (apply Z.mul_le_mono_nonneg_r; lia).
    split; [|intros Hgt]; apply below_upto.
    + apply (mul_below false false); try lia.
      replace (ec - (e + ec)) with (- e) by lia.
      assert ((2 * Zpos mc + 1) * 2 ^ 53 <= (2 * Zpos mc + 1) * 2 ^ (- e))
        by (apply Z.mul_le_mono_nonneg_l; lia).
      lia.
    + assert (Hpred : Zpos (Pos.pred mc) = Zpos mc - 1)
        by (rewrite Pos2Z.inj_pred; lia).
      apply (mul_below false false); try lia.
      replace (ec - (e + ec)) with (- e) by lia. rewrite Hpred.
      assert ((2 * (Zpos mc - 1) + 1) * 2 ^ 53
              <= (2 * (Zpos mc - 1) + 1) * 2 ^ (- e))
        by (apply Z.mul_le_mono_nonneg_l; lia).
      lia.
Qed.

(** ** Back to primitive floats *)

(** The contract of [Math.random()]: a number in [[0, 1)]. *)
Definition inUnitInterval (r : float) : Prop :=
  (0 <=? r)%float = true /\ (r <? 1)%float = true.

(** [(r - 0.5) * c] for [r] in the unit interval and a positive constant
    [c = mc * 2^ec]: the magnitude is at most [c / 2]. *)
Lemma centred_below (r c : float) (mc : positive) (ec : Z) :
  inUnitInterval r -> Prim2SF c = S754_finite false mc ec ->
  2 ^ 52 <= Zpos mc < 2 ^ 53 -> -1000 <= ec <= 900 ->
  exists s, below s mc (ec - 1) (Prim2SF ((r - 0.5) * c)).
Proof.
  intros [H0 H1] Hc Hmc Hec.
  pose proof (Prim2SF_valid (r - 0.5)) as Hv.
  rewrite mul_spec, Hc. rewrite sub_spec in *.
  change (Prim2SF 0.5) with (S754_finite false 4503599627370496 (-53)) in *.
  destruct (sub_half_below (Prim2SF r) (unit_interval r H0 H1)) as [s Hs].
  exists s. now apply mul_half_below.
Qed.

Lemma below_leb (x lo hi : float) (s : bool) (kb : positive) (eb : Z) :
  below s kb eb (Prim2SF x) ->
  Prim2SF lo = S754_finite true kb eb ->
  Prim2SF hi = S754_finite false kb eb ->
  (lo <=? x)%float = true /\ (x <=? hi)%float = true.
Proof.
  intros Hx Hlo Hhi. rewrite !leb_spec, Hlo, Hhi. unfold SFleb.
  destruct Hx as [->|(m & e & -> & Hle)]; cbn [SFcompare].
  - split; reflexivity.
  - rewrite !pos_compare_cont.
    destruct s; split; try reflexivity.
    + destruct (Z.compare_spec eb e);
        [destruct (Z.compare_spec (Zpos kb) (Zpos m))| |];
        first [reflexivity | lia].
    + destruct (Z.compare_spec e eb);
        [destruct (Z.compare_spec (Zpos m) (Zpos kb))| |];
        first [reflexivity | lia].
Qed.

Lemma upto_floor (x : float) (kb : positive) (eb : Z) :
  upto kb eb (Prim2SF x) -> 2 ^ 52 <= Zpos kb -> eb <= 0 ->
  0 <= Math_floor x <= Zpos kb / 2 ^ (- eb).
Proof.
  intros Hx Hkb Heb. unfold Math_floor.
  pose proof (Prim2SF_valid x) as Hv.
  assert (Hpb : 0 < 2 ^ (- eb)) by (apply pow2_pos; lia).
  assert (Hb : 0 <= Zpos kb / 2 ^ (- eb)) by (apply Z.div_pos; lia).
  destruct Hx as [[s Hx]|(m & e & Hx & Hle)]; rewrite Hx in *; [lia|].
  apply valid_finite in Hv as (_ & _ & Hm & _).
  cbn [cond_Zopp].
  assert (He : e <= eb) by lia.
  replace e with (- (- e)) at 1 2 by lia.
  rewrite Z.shiftl_opp_r, Z.shiftr_div_pow2 by lia.
  assert (Hpe : 0 < 2 ^ (eb - e)) by (apply pow2_pos; lia).
  split; [apply Z.div_pos; [lia | apply pow2_pos; lia]|].
  assert (Hmk : Zpos m <= Zpos kb * 2 ^ (eb - e)).
  { destruct Hle as [Hlt|[-> Hmk]].
    - assert (2 ^ 1 <= 2 ^ (eb - e)) by (apply Z.pow_le_mono_r; lia).
      change (2 ^ 1) with 2 in *. nia.
    - rewrite Z.sub_diag, Z.pow_0_r. lia. }
  replace (- e) with ((eb - e) + (- eb)) by lia.
  rewrite Z.pow_add_r by lia.
  transitivity (Zpos kb * 2 ^ (eb - e) / (2 ^ (eb - e) * 2 ^ (- eb))).
  - apply Z.div_le_mono; [nia | assumption].
  - rewrite (Z.mul_comm (Zpos kb)).
    rewrite Z.div_mul_cancel_l by lia. lia.
Qed.

Lemma centred_range (r c lo hi : float) (mc : positive) (ec : Z) :
  inUnitInterval r -> Prim2SF c = S754_finite false mc ec ->
  Prim2SF lo = S754_finite true mc (ec - 1) ->
  Prim2SF hi = S754_finite false mc (ec - 1) ->
  2 ^ 52 <= Zpos mc < 2 ^ 53 -> -1000 <= ec <= 900 ->
  (lo <=? (r - 0.5) * c)%float = true /\ ((r - 0.5) * c <=? hi)%float = true.
Proof.
  intros Hr Hc Hlo Hhi Hmc Hec.
  destruct (centred_below r c mc ec Hr Hc Hmc Hec) as [s Hs].
  exact (below_leb _ lo hi s mc (ec - 1) Hs Hlo Hhi).
Qed.

Lemma scaled_floor (r c : float) (mc : positive) (ec : Z) :
  inUnitInterval r -> Prim2SF c = S754_finite false mc ec ->
  2 ^ 52 < Zpos mc < 2 ^ 53 -> -1000 <= ec <= 0 ->
  0 <= Math_floor (r * c) <= Zpos (Pos.pred mc) / 2 ^ (- ec).
Proof.
  intros [H0 H1] Hc Hmc Hec.
  apply upto_floor; [|rewrite Pos2Z.inj_pred; lia|lia].
  rewrite mul_spec, Hc.
  apply mul_unit_upto; [apply unit_interval; assumption|lia|lia|lia].
Qed.

Lemma orb_coordinate (r : float) :
  inUnitInterval r ->
  (-7.5 <=? (r - 0.5) * 15)%float = true /\
  ((r - 0.5) * 15 <=? 7.5)%float = true.
Proof.
  intros Hr.
  apply (centred_range r 15 (-7.5) 7.5 8444249301319680 (-49));
    [exact Hr|reflexivity|reflexivity|reflexivity|lia|lia].
Qed.

Lemma orb_points_range (p : float) :
  inUnitInterval p -> 10 <= Math_floor (p * 50) + 10 <= 59.
Proof.
  intros Hp.
  pose proof (scaled_floor p 50 7036874417766400 (-47) Hp eq_refl
                ltac:(lia) ltac:(lia)) as H.
  change (Zpos (Pos.pred 7036874417766400) / 2 ^ (- -47)) with 49 in H. lia.
Qed.

Lemma color_index_range (c : float) :
  inUnitInterval c -> 0 <= Math_floor (c * 5) <= 4.
Proof.
  intros Hc.
  pose proof (scaled_floor c 5 5629499534213120 (-50) Hc eq_refl
                ltac:(lia) ltac:(lia)) as H.
  change (Zpos (Pos.pred 5629499534213120) / 2 ^ (- -50)) with 4 in H. lia.
Qed.

(** ** Lower bounds *)

(** [x] is finite of sign [s] with magnitude at least that of [(kb, eb)]. *)
Definition above (s : bool) (kb : positive) (eb : Z) (x : spec_float) : Prop :=
  exists m e, x = S754_finite s m e /\
              (eb < e \/ (e = eb /\ Zpos kb <= Zpos m)).

Lemma round_above (s : bool) (N : positive) (ex : Z) (kb : positive)
    (eb : Z) :
  ex <= fexp prec emax (Zpos (digits2_pos N) + ex) ->
  fexp prec emax (Zpos (digits2_pos N) + ex) <= 970 ->
  2 ^ 52 <= Zpos kb < 2 ^ 53 -> -1074 <= eb -> ex <= eb ->
  Zpos kb * 2 ^ (eb - ex) <= Zpos N ->
  above s kb eb (binary_round_aux prec emax s (Zpos N) ex loc_Exact).
Proof.
  intros Hn Hmax Hkb Heb Hex Hlow.
  set (e1 := fexp prec emax (Zpos (digits2_pos N) + ex)) in *.
  assert (HP : 0 < 2 ^ (eb - ex)) by (apply pow2_pos; lia).
  assert (Hd : 52 + (eb - ex) < Zpos (digits2_pos N)).
  { apply digits2_pos_gt. rewrite Z.pow_add_r by lia. nia. }
  assert (He1 : eb <= e1) by (unfold e1; rewrite fexp_eq; lia).
  destruct (binary_round_aux_spec s N ex) as (m1 & Hm1 & _ & Hr);
    [exact Hn | fold e1; lia |].
  fold e1 in Hm1, Hr.
  set (n := e1 - ex) in *. set (q := Zpos N / 2 ^ n) in *.
  assert (Hpn : 0 < 2 ^ n) by (apply pow2_pos; unfold n; lia).
  assert (Hq : 2 ^ 52 <= q /\ (e1 = eb -> Zpos kb <= q)).
  { split.
    - destruct (Z.eq_dec e1 eb) as [Heq|Hne].
      + transitivity (Zpos kb); [lia|].
        apply Z.div_le_lower_bound; [lia|].
        replace n with (eb - ex) by (unfold n; lia). lia.
      + assert (Hn53 : n = Zpos (digits2_pos N) - 53)
          by (unfold n, e1 in *; rewrite fexp_eq in *; lia).
        apply Z.div_le_lower_bound; [lia|].
        rewrite <- Z.pow_add_r by lia.
        destruct (digits2_pos_bounds N) as [Hlo _].
        replace (n + 52) with (Zpos (digits2_pos N) - 1) by lia. exact Hlo.
    - intros Heq. apply Z.div_le_lower_bound; [lia|].
      replace n with (eb - ex) by (unfold n; lia). lia. }
  destruct Hq as [Hq52 Hqk].
  destruct Hr as [[H0 _]|[[Hpos ->]|[H53 ->]]]; [lia| |].
  - exists (Z.to_pos m1), e1. split; [reflexivity|].
    rewrite Z2Pos.id by lia.
    destruct (Z.eq_dec e1 eb) as [Heq|Hne]; [right|left; lia].
    split; [assumption|]. specialize (Hqk Heq). lia.
  - exists (Z.to_pos (2 ^ 52)), (e1 + 1). split; [reflexivity|]. left. lia.
Qed.

Lemma binary_round_above (s : bool) (p : positive) (e : Z) (kb : positive)
    (eb : Z) :
  2 ^ 52 <= Zpos kb < 2 ^ 53 -> -1074 <= eb -> e <= eb ->
  Zpos (digits2_pos p) + e <= 1000 ->
  Zpos kb * 2 ^ (eb - e) <= Zpos p ->
  above s kb eb (binary_round prec emax s p e).
Proof.
  intros Hkb Heb He Hmag Hp. unfold binary_round.
  pose proof (shl_align_spec p e (fexp prec emax (Zpos (digits2_pos p) + e)))
    as Hal.
  destruct (shl_align p e _) as [mz ez]. destruct Hal as [Hez Hmz].
  assert (Hpow : 0 < 2 ^ (e - ez)) by (apply pow2_pos; lia).
  assert (Hdz : Zpos (digits2_pos mz) <= Zpos (digits2_pos p) + (e - ez)).
  { apply digits2_pos_le; [lia|]. rewrite Hmz, Z.pow_add_r by lia.
    destruct (digits2_pos_bounds p) as [_ Hhi]. nia. }
  pose proof (digits2_pos_shift p mz (e - ez) ltac:(lia) Hmz) as Hd.
  apply round_above; try assumption; try lia.
  - rewrite fexp_eq in *. lia.
  - rewrite fexp_eq in *. lia.
  - rewrite Hmz.
    replace (eb - ez) with ((eb - e) + (e - ez)) by lia.
    rewrite Z.pow_add_r by lia.
    assert (0 < 2 ^ (eb - e)) by (apply pow2_pos; lia).
    nia.
Qed.

(** ** Sums of two magnitudes *)

Lemma sum_bounds (s : bool) (ma mt kt ku : positive) (ea et etb eu : Z) :
  2 ^ 52 <= Zpos ma < 2 ^ 53 -> 2 ^ 52 <= Zpos kt ->
  2 ^ 52 <= Zpos ku < 2 ^ 53 ->
  -1074 <= ea -> ea <= eu -> eu <= 900 -> -1074 <= et -> Zpos mt < 2 ^ 53 ->
  (et < etb \/ (et = etb /\ Zpos mt <= Zpos kt)) ->
  Zpos ma * 2 ^ (ea - Z.min ea etb) + Zpos kt * 2 ^ (etb - Z.min ea etb)
    <= Zpos ku * 2 ^ (eu - Z.min ea etb) ->
  let ez := Z.min ea et in
  let sum := (fst (shl_align ma ea ez) + fst (shl_align mt et ez))%positive in
  below s ku eu (binary_round prec emax s sum ez) /\
  above s ma ea (binary_round prec emax s sum ez).
Proof.
  intros Hma Hkt Hku Hea Heu Heu' Het Hmt Hle Hsum ez sum.
  set (c0 := Z.min ea etb) in *.
  pose proof (shl_align_spec ma ea ez) as Ha.
  pose proof (shl_align_spec mt et ez) as Hb.
  unfold sum. clear sum.
  destruct (shl_align ma ea ez) as [a ea']. destruct Ha as [Ea' Ha].
  destruct (shl_align mt et ez) as [b eb']. destruct Hb as [Eb' Hb].
  cbn [fst].
  assert (Ea'' : ea' = ez) by (unfold ez in *; lia).
  assert (Eb'' : eb' = ez) by (unfold ez in *; lia).
  rewrite Ea'' in Ha. rewrite Eb'' in Hb. clear Ea' Eb' Ea'' Eb'' ea' eb'.
  assert (Hez : ez <= c0) by (unfold ez, c0; lia).
  assert (P1 : 0 < 2 ^ (c0 - ez)) by (apply pow2_pos; lia).
  assert (P2 : 0 < 2 ^ (ea - c0)) by (apply pow2_pos; unfold c0; lia).
  assert (P3 : 0 < 2 ^ (etb - c0)) by (apply pow2_pos; unfold c0; lia).
  assert (P4 : 0 < 2 ^ (eu - c0)) by (apply pow2_pos; unfold c0; lia).
  assert (P5 : 0 < 2 ^ (ea - ez)) by (apply pow2_pos; unfold ez; lia).
  assert (Ea : 2 ^ (ea - ez) = 2 ^ (ea - c0) * 2 ^ (c0 - ez)).
  { rewrite <- Z.pow_add_r by (unfold c0; lia). f_equal. lia. }
  assert (Eu : 2 ^ (eu - ez) = 2 ^ (eu - c0) * 2 ^ (c0 - ez)).
  { rewrite <- Z.pow_add_r by (unfold c0; lia). f_equal. lia. }
  assert (Hbt : Zpos b <= Zpos kt * 2 ^ (etb - c0) * 2 ^ (c0 - ez)).
  { rewrite Hb, <- Z.mul_assoc, <- Z.pow_add_r by (unfold c0; lia).
    replace (etb - c0 + (c0 - ez)) with (etb - ez) by lia.
    assert (R : 0 < 2 ^ (et - ez)) by (apply pow2_pos; unfold ez; lia).
    destruct Hle as [Hlt|[Heq Hmk]].
    - replace (etb - ez) with ((etb - et - 1) + 1 + (et - ez)) by lia.
      rewrite !Z.pow_add_r by (unfold ez; lia).
      assert (Q : 0 < 2 ^ (etb - et - 1)) by (apply pow2_pos; lia).
      change (2 ^ 1) with 2.
      transitivity (Zpos kt * (1 * 2) * 2 ^ (et - ez)).
      + apply Z.mul_le_mono_nonneg_r; lia.
      + rewrite !Z.mul_assoc.
        apply Z.mul_le_mono_nonneg_r; [lia|].
        apply Z.mul_le_mono_nonneg_r; [lia|].
        apply Z.mul_le_mono_nonneg_l; lia.
    - rewrite <- Heq. apply Z.mul_le_mono_nonneg_r; lia. }
  assert (Hup : Zpos (a + b) <= Zpos ku * 2 ^ (eu - ez)).
  { rewrite Pos2Z.inj_add, Ha, Ea, Eu.
    transitivity ((Zpos ma * 2 ^ (ea - c0) + Zpos kt * 2 ^ (etb - c0))
                  * 2 ^ (c0 - ez)); [lia|].
    rewrite Z.mul_assoc. apply Z.mul_le_mono_nonneg_r; lia. }
  split.
  - apply binary_round_below; try lia.
  - assert (U : 0 < 2 ^ (eu - ez)) by (apply pow2_pos; unfold ez; lia).
    apply binary_round_above; try lia.
    assert (Zpos (digits2_pos (a + b)) <= 53 + (eu - ez)); [|lia].
      apply digits2_pos_le; [lia|].
      rewrite Z.pow_add_r by lia.
      eapply Z.le_lt_trans; [exact Hup|].
      apply Z.mul_lt_mono_pos_r; lia.
Qed.

Lemma lex_of_sum (ma kt ku : positive) (ea etb eu : Z) :
  ea <= eu ->
  Zpos ma * 2 ^ (ea - Z.min ea etb) + Zpos kt * 2 ^ (etb - Z.min ea etb)
    <= Zpos ku * 2 ^ (eu - Z.min ea etb) ->
  ea < eu \/ (ea = eu /\ Zpos ma <= Zpos ku).
Proof.
  intros Heu Hsum.
  destruct (Z.eq_dec ea eu) as [<-|Hne]; [right|left; lia].
  split; [reflexivity|].
  assert (0 < 2 ^ (ea - Z.min ea etb)) by (apply pow2_pos; lia).
  assert (0 < 2 ^ (etb - Z.min ea etb)) by (apply pow2_pos; lia).
  nia.
Qed.

(** [a - t] for a negative constant [a] and [0 <= t <= T]: the result is
    negative, of magnitude between [|a|] and [|a| + T]. *)
Lemma negative_minus (a t : float) (ma kt ku : positive) (ea etb eu : Z) :
  Prim2SF a = S754_finite true ma ea -> upto kt etb (Prim2SF t) ->
  2 ^ 52 <= Zpos ma < 2 ^ 53 -> 2 ^ 52 <= Zpos kt ->
  2 ^ 52 <= Zpos ku < 2 ^ 53 -> -1074 <= ea -> ea <= eu -> eu <= 900 ->
  Zpos ma * 2 ^ (ea - Z.min ea etb) + Zpos kt * 2 ^ (etb - Z.min ea etb)
    <= Zpos ku * 2 ^ (eu - Z.min ea etb) ->
  below true ku eu (Prim2SF (a - t)) /\ above true ma ea (Prim2SF (a - t)).
Proof.
  intros Ha Ht Hma Hkt Hku Hea Heu Heu' Hsum.
  pose proof (Prim2SF_valid t) as Hv.
  rewrite sub_spec, Ha. unfold SF64sub.
  destruct Ht as [[s Ht]|(mt & et & Ht & Hle)]; rewrite Ht in *.
  - cbn [SFsub]. split.
    + right. exists ma, ea. split; [reflexivity|].
      now apply (lex_of_sum ma kt ku ea etb eu).
    + exists ma, ea. split; [reflexivity|]. right. split; [reflexivity|lia].
  - apply valid_finite in Hv as (_ & _ & Hmt & Het).
    cbn [SFsub cond_Zopp Z.opp Z.sub Z.add binary_normalize].
    now apply (sum_bounds true ma mt kt ku ea et etb eu).
Qed.

(** [a + t] for a positive constant [a] and [0 <= t <= T]. *)
Lemma positive_plus (a t : float) (ma kt ku : positive) (ea etb eu : Z) :
  Prim2SF a = S754_finite false ma ea -> upto kt etb (Prim2SF t) ->
  2 ^ 52 <= Zpos ma < 2 ^ 53 -> 2 ^ 52 <= Zpos kt ->
  2 ^ 52 <= Zpos ku < 2 ^ 53 -> -1074 <= ea -> ea <= eu -> eu <= 900 ->
  Zpos ma * 2 ^ (ea - Z.min ea etb) + Zpos kt * 2 ^ (etb - Z.min ea etb)
    <= Zpos ku * 2 ^ (eu - Z.min ea etb) ->
  below false ku eu (Prim2SF (a + t)) /\ above false ma ea (Prim2SF (a + t)).
Proof.
  intros Ha Ht Hma Hkt Hku Hea Heu Heu' Hsum.
  pose proof (Prim2SF_valid t) as Hv.
  rewrite add_spec, Ha. unfold SF64add.
  destruct Ht as [[s Ht]|(mt & et & Ht & Hle)]; rewrite Ht in *.
  - cbn [SFadd]. split.
    + right. exists ma, ea. split; [reflexivity|].
      now apply (lex_of_sum ma kt ku ea etb eu).
    + exists ma, ea. split; [reflexivity|]. right. split; [reflexivity|lia].
  - apply valid_finite in Hv as (_ & _ & Hmt & Het).
    cbn [SFadd cond_Zopp Z.add binary_normalize].
    now apply (sum_bounds false ma mt kt ku ea et etb eu).
Qed.

Lemma above_leb (x c : float) (s : bool) (kb : positive) (eb : Z) :
  above s kb eb (Prim2SF x) -> Prim2SF c = S754_finite s kb eb ->
  (if s then (x <=? c)%float else (c <=? x)%float) = true.
Proof.
  intros (m & e & Hx & Hle) Hc.
  destruct s; rewrite leb_spec, Hx, Hc; unfold SFleb; cbn [SFcompare];
    rewrite pos_compare_cont.
  - destruct (Z.compare_spec e eb);
      [destruct (Z.compare_spec (Zpos m) (Zpos kb))| |];
      first [reflexivity | lia].
  - destruct (Z.compare_spec eb e);
      [destruct (Z.compare_spec (Zpos kb) (Zpos m))| |];
      first [reflexivity | lia].
Qed.

Lemma obstacle_z (r : float) :
  inUnitInterval r ->
  (-30 <=? -10 - r * 20)%float = true /\ (-10 - r * 20 <=? -10)%float = true.
Proof.
  intros [H0 H1].
  assert (Ht : upto 5629499534213120 (-48) (Prim2SF (r * 20))).
  { rewrite mul_spec.
    change (Prim2SF 20) with (S754_finite false 5629499534213120 (-48)).
    apply mul_unit_upto; [now apply unit_interval|lia|lia]. }
  destruct (negative_minus (-10) (r * 20) 5629499534213120 5629499534213120
              8444249301319680 (-49) (-48) (-48) eq_refl Ht)
    as [Hlo Hhi]; try lia.
  { vm_compute. discriminate. }
  split.
  - exact (proj1 (below_leb _ (-30) 30 true 8444249301319680 (-48) Hlo
                    eq_refl eq_refl)).
  - exact (above_leb _ (-10) true 5629499534213120 (-49) Hhi eq_refl).
Qed.

Lemma obstacle_speed (r : float) :
  inUnitInterval r ->
  (1 <=? 1 + r * 2)%float = true /\ (1 + r * 2 <=? 3)%float = true.
Proof.
  intros [H0 H1].
  assert (Ht : upto 4503599627370496 (-51) (Prim2SF (r * 2))).
  { rewrite mul_spec.
    change (Prim2SF 2) with (S754_finite false 4503599627370496 (-51)).
    apply mul_unit_upto; [now apply unit_interval|lia|lia]. }
  destruct (positive_plus 1 (r * 2) 4503599627370496 4503599627370496
              6755399441055744 (-52) (-51) (-51) eq_refl Ht)
    as [Hhi Hlo]; try lia.
  { vm_compute. discriminate. }
  split.
  - exact (above_leb _ 1 false 4503599627370496 (-52) Hlo eq_refl).
  - exact (proj2 (below_leb _ (-3) 3 false 6755399441055744 (-51) Hhi
                    eq_refl eq_refl)).
Qed.

(** * Properties *)

(** ** The generators *)

Lemma Array_from_length {A} (count : nat) (f : Z -> M A) (i : Z) (h : Host) :
  length (fst (Array_from count f i h)) = count.
Proof.
  revert i h; induction count as [|n IH]; intros i h; simpl; [reflexivity|].
  unfold bind. destruct (f i h) as [a h1].
  specialize (IH (i + 1) h1).
  destruct (Array_from n f (i + 1) h1) as [rest h2]; simpl in *.
  now rewrite IH.
Qed.

Lemma Array_from_timers {A} (count : nat) (f : Z -> M A) (i : Z) (h : Host) :
  (forall j g, timers (snd (f j g)) = timers g) ->
  timers (snd (Array_from count f i h)) = timers h.
Proof.
  intros Hf. revert i h; induction count as [|n IH]; intros i h; simpl;
    [reflexivity|].
  unfold bind. specialize (Hf i h). destruct (f i h) as [a h1].
  specialize (IH (i + 1) h1).
  destruct (Array_from n f (i + 1) h1) as [rest h2]; simpl in *.
  congruence.
Qed.

Lemma generateOrbs_length (count : nat) (h : Host) :
  length (fst (generateOrbs count h)) = count.
Proof. apply Array_from_length. Qed.

Lemma generateObstacles_length (count : nat) (h : Host) :
  length (fst (generateObstacles count h)) = count.
Proof. apply Array_from_length. Qed.

Lemma generateOrbs_timers (count : nat) (h : Host) :
  timers (snd (generateOrbs count h)) = timers h.
Proof. apply Array_from_timers. intros j g. reflexivity. Qed.

Lemma generateObstacles_timers (count : nat) (h : Host) :
  timers (snd (generateObstacles count h)) = timers h.
Proof. apply Array_from_timers. intros j g. reflexivity. Qed.

(** The ids of one call are the clock readings taken during the call, each
    offset by its index. *)
Lemma Array_from_ids {A} (count : nat) (f : Z -> M A) (key : A -> Z)
    (off i : Z) (h : Host) :
  (forall j g, key (fst (f j g)) = clock g (clockReads g) + j + off) ->
  (forall j g, clock (snd (f j g)) = clock g) ->
  (forall j g, clockReads (snd (f j g)) = Datatypes.S (clockReads g)) ->
  key <$> fst (Array_from count f i h) =
  (fun k : nat => clock h (clockReads h + k)%nat + (i + Z.of_nat k) + off)
    <$> seq 0 count.
Proof.
  intros Hkey Hclock Hreads.
  revert i h; induction count as [|n IH]; intros i h; simpl; [reflexivity|].
  unfold bind.
  specialize (Hkey i h); specialize (Hclock i h); specialize (Hreads i h).
  destruct (f i h) as [a h1]; simpl in *.
  specialize (IH (i + 1) h1).
  destruct (Array_from n f (i + 1) h1) as [rest h2]; simpl in *.
  rewrite Hkey. f_equal.
  - replace (clockReads h + 0)%nat with (clockReads h) by lia. lia.
  - etransitivity; [exact IH|].
    rewrite Hclock, Hreads, <- (fmap_S_seq 0 n), <- list_fmap_compose.
    apply list_fmap_ext. intros _ k _. simpl.
    replace (clockReads h + S k)%nat with (S (clockReads h + k)) by lia.
    lia.
Qed.

Lemma generateOrbs_ids (count : nat) (h : Host) :
  orb_id <$> fst (generateOrbs count h) =
  (fun k : nat => clock h (clockReads h + k)%nat + Z.of_nat k) <$> seq 0 count.
Proof.
  unfold generateOrbs.
  rewrite (Array_from_ids count _ orb_id 0 0 h).
  - apply list_fmap_ext. intros _ k _. lia.
  - intros j g. simpl. lia.
  - reflexivity.
  - reflexivity.
Qed.

Lemma generateObstacles_ids (count : nat) (h : Host) :
  obs_id <$> fst (generateObstacles count h) =
  (fun k : nat => clock h (clockReads h + k)%nat + Z.of_nat k + 1000)
    <$> seq 0 count.
Proof.
  unfold generateObstacles.
  rewrite (Array_from_ids count _ obs_id 1000 0 h).
  - apply list_fmap_ext. intros _ k _. lia.
  - intros j g. reflexivity.
  - reflexivity.
  - reflexivity.
Qed.

(** Reduction of the setters and projections of [App], and nothing else. *)
Ltac app_simpl :=
  unfold setGameState, setScore, setHighScore, setOrbs, setObstacles,
    setLives, setLevel;
  cbn [fst snd gameState score highScore orbs obstacles lives level].

Ltac host_simpl :=
  unfold bind, ret, setTimeout;
  cbn [fst snd clock entropy clockReads draws timers].

Ltac app_simpl_in H :=
  unfold setGameState, setScore, setHighScore, setOrbs, setObstacles,
    setLives, setLevel in H;
  cbn [fst snd gameState score highScore orbs obstacles lives level] in H.

#[global] Arguments generateOrbs : simpl never.
#[global] Arguments generateObstacles : simpl never.
#[global] Arguments Math_floor : simpl never.
#[global] Arguments distanceTo : simpl never.

(** A host whose random source always returns [0.5]: every generated orb
    then sits at the origin and is worth 35 points. *)
Definition sameMillisecond (pending : list Timer) : Host :=
  {| clock := fun _ => 1700000000000; entropy := fun _ => 0.5%float;
     clockReads := 0; draws := 0; timers := pending |}.

(** The same random source with a clock that advances: the first 15
    readings (a start) fall in one millisecond, the next 5 (a level-up) in
    the frame 16 ms later, and the readings after that 500 ms later. *)
Definition arcade : Host :=
  {| clock := fun n => if (n <? 15)%nat then 1700000000000
                       else if (n <? 20)%nat then 1700000000016
                       else 1700000000516;
     entropy := fun _ => 0.5%float;
     clockReads := 0; draws := 0; timers := [] |}.

Definition origin : Vector3 := {| vx := 0; vy := 0; vz := 0 |}.

(** C2 (the defect).  A game is started and a frame collects the ten orbs
    at once, which sets ten replenishment timeouts.  The first two fire in
    the same millisecond: each calls [generateOrbs(1)], both read the same
    [Date.now()], and both new orbs get the id [Date.now() + 0]. *)
Theorem generateOrbs_id_reused :
  orb_id <$> orbs (app (run (World_init arcade)
                          [Click; Frame origin; Timeout; Timeout]))
  = [1700000000016; 1700000000017; 1700000000018;
     1700000000516; 1700000000516].
Proof. vm_compute. reflexivity. Qed.

(** ** Starting a game *)

(** C6.  Whatever the state before (title, game over, any scores and live
    sets), [startGame] leaves the game playing with score 0, 3 lives, level
    1, and the live sets are exactly the 10 orbs and 5 obstacles it has just
    generated. *)
Theorem startGame_resets (a : App) (h : Host) :
  let a' := fst (startGame a h) in
  let fresh := fst (generateOrbs 10 h) in
  let hazards := fst (generateObstacles 5 (snd (generateOrbs 10 h))) in
  gameState a' = playing /\ score a' = 0 /\ lives a' = 3 /\ level a' = 1 /\
  orbs a' = fresh /\ length (orbs a') = 10%nat /\
  obstacles a' = hazards /\ length (obstacles a') = 5%nat /\
  highScore a' = highScore a.
Proof.
  cbv zeta. unfold startGame, bind, ret.
  pose proof (generateOrbs_length 10 h) as Ho.
  destruct (generateOrbs 10 h) as [fresh h1]. cbn [fst snd] in *.
  pose proof (generateObstacles_length 5 h1) as Hb.
  destruct (generateObstacles 5 h1) as [hazards h2]. app_simpl.
  repeat (split; [first [reflexivity | assumption]|]). reflexivity.
Qed.

(** ** Collecting an orb *)

Lemma handleCollect_timers (id points : Z) (p : Pending) (h : Host) :
  timers (snd (handleCollect id points p h)) =
    timers h ++ [ {| delay := 500; task := Replenish |} ].
Proof. reflexivity. Qed.

Lemma runUpdaters_nil (state : Z) : runUpdaters [] state = (state, noNested).
Proof. reflexivity. Qed.

Lemma runUpdaters_one (f : Z -> Z * Nested) (state : Z) :
  runUpdaters [f] state = (fst (f state), nest noNested (snd (f state))).
Proof.
  unfold runUpdaters. cbn [foldl fst snd]. now destruct (f state).
Qed.

(** C4.  One Collect, followed by the render that runs what it queued,
    adds the points to the score and removes the collected id from the orb
    list.  When the score passes a multiple of 200 the level goes up by
    one, whatever the number of multiples passed, and three generated orbs
    and two generated obstacles are appended to the live lists: the orb
    list is the old one without the collected id, followed by the three new
    orbs.  Otherwise level and obstacles are unchanged and the orb list only
    loses the collected id. *)
Theorem handleCollect_level_up (id points : Z) (a : App) (h : Host) :
  let queued := handleCollect id points idle h in
  let a' := fst (render (fst queued) a (snd queued)) in
  let fresh := fst (generateOrbs 3 (snd queued)) in
  let hazards :=
    fst (generateObstacles 2 (snd (generateOrbs 3 (snd queued)))) in
  let kept := filter (fun o => orb_id o ≠ id) (orbs a) in
  score a' = score a + points /\
  highScore a' = highScore a /\ lives a' = lives a /\
  gameState a' = gameState a /\
  if score a / 200 <? (score a + points) / 200
  then level a' = level a + 1 /\
       length fresh = 3%nat /\ length hazards = 2%nat /\
       orbs a' = kept ++ fresh /\
       length (orbs a') = (length kept + 3)%nat /\
       obstacles a' = obstacles a ++ hazards /\
       length (obstacles a') = (length (obstacles a) + 2)%nat
  else level a' = level a /\ orbs a' = kept /\ obstacles a' = obstacles a.
Proof.
  cbv zeta.
  set (h1 := {| clock := clock h; entropy := entropy h;
                clockReads := clockReads h; draws := draws h;
                timers := timers h ++ [{| delay := 500; task := Replenish |}]
             |}).
  change (handleCollect id points idle h)
    with ({| scoreUpdates := [scoreUpdater points];
             orbsUpdates :=
               [fun prev => ret (filter (fun o => orb_id o ≠ id) prev)];
             livesUpdates := [] |}, h1).
  cbn [fst snd]. unfold render.
  cbn [scoreUpdates orbsUpdates livesUpdates].
  rewrite runUpdaters_one, runUpdaters_nil. unfold scoreUpdater.
  cbn [fst snd].
  destruct (score a / 200 <? (score a + points) / 200).
  - unfold nest, noNested.
    cbn [onGameState onHighScore onOrbs onObstacles onLevel Datatypes.app
         runQueue].
    unfold applyAll, bind, ret. cbn [foldl].
    pose proof (generateOrbs_length 3 h1) as Hlf.
    destruct (generateOrbs 3 h1) as [fresh h2]. cbn [fst snd] in *.
    pose proof (generateObstacles_length 2 h2) as Hlh.
    destruct (generateObstacles 2 h2) as [hazards h3]. cbn [fst snd] in *.
    cbn [score highScore lives gameState level orbs obstacles].
    rewrite !length_app, Hlf, Hlh.
    repeat (split; [first [reflexivity | assumption]|]). reflexivity.
  - unfold nest, noNested.
    cbn [onGameState onHighScore onOrbs onObstacles onLevel Datatypes.app
         runQueue].
    unfold applyAll, bind, ret. cbn [foldl fst snd].
    cbn [score highScore lives gameState level orbs obstacles].
    repeat (split; [reflexivity|]). reflexivity.
Qed.

(** The scenario of the specification: the score is 185 and a Collect is
    worth 30 points. *)
Definition collectAt185 : App :=
  {| gameState := playing; score := 185; highScore := 0;
     orbs := [ {| orb_id := 7; orb_position := (0, 0, 0)%float;
                  orb_color := None; orb_points := 30 |} ];
     obstacles := []; lives := 3; level := 1 |}.

Lemma handleCollect_level_up_witness :
  let queued := handleCollect 7 30 idle (sameMillisecond []) in
  let a' := fst (render (fst queued) collectAt185 (snd queued)) in
  score a' = 215 /\ level a' = 2 /\
  length (orbs a') = 3%nat /\ length (obstacles a') = 2%nat.
Proof.
  pose proof (handleCollect_level_up 7 30 collectAt185 (sameMillisecond []))
    as H.
  cbv zeta in H.
  destruct H as (Hs & _ & _ & _ & H).
  change (score collectAt185 / 200 <? (score collectAt185 + 30) / 200)
    with true in H.
  destruct H as (Hl & _ & _ & _ & Ho & _ & Hb).
  split; [exact Hs|]. split; [exact Hl|]. split; [|exact Hb].
  rewrite Ho. reflexivity.
Defined.

(** ** Replenishment *)

(** C7.  Every Collect sets one timeout of 500 ms for the replenishment
    callback.  When a pending timeout fires, whatever the state of the game
    then (playing, game over, or a later session), exactly one generated orb
    is appended to the orb list of that moment and nothing else changes. *)
Theorem replenishment_unconditional (id points : Z) (p : Pending)
    (h : Host) (w : World) :
  timers (snd (handleCollect id points p h)) =
    timers h ++ [ {| delay := 500; task := Replenish |} ] /\
  match timers (host w) with
  | [] => timeout w = w
  | _ :: rest =>
      let w' := timeout w in
      let fresh := fst (generateOrbs 1 (dropTimer (host w))) in
      length fresh = 1%nat /\
      orbs (app w') = orbs (app w) ++ fresh /\
      timers (host w') = rest /\
      gameState (app w') = gameState (app w) /\
      score (app w') = score (app w) /\
      highScore (app w') = highScore (app w) /\
      obstacles (app w') = obstacles (app w) /\
      lives (app w') = lives (app w) /\
      level (app w') = level (app w) /\
      collectedIds w' = collectedIds w
  end.
Proof.
  split; [apply handleCollect_timers|].
  unfold timeout.
  destruct (timers (host w)) as [|t rest] eqn:Ht; [reflexivity|].
  destruct t as [d []]. cbv zeta. unfold runTask, bind, ret. cbn [task].
  pose proof (generateOrbs_length 1 (dropTimer (host w))) as Hl.
  pose proof (generateOrbs_timers 1 (dropTimer (host w))) as Hd.
  destruct (generateOrbs 1 (dropTimer (host w))) as [fresh h1].
  cbn [fst snd app host collectedIds] in *. app_simpl.
  unfold dropTimer in Hd. cbn [timers] in Hd. rewrite Ht in Hd.
  cbn [tail] in Hd.
  repeat (split; [first [reflexivity | assumption]|]). reflexivity.
Qed.

(** ** The collision loop *)

(** Whether an entity at [p] is within [limit] of the player: the test of
    lines 256 and 265. *)
Definition near (limit : float) (pos : Vector3) (p : Triple) : bool :=
  (distanceTo pos (Vector3_of p) <? limit)%float.

(** The Collect events of one pass over the orbs, with the set of collected
    ids after the pass. *)
Fixpoint collectsOf (pos : Vector3) (ids : gset Z) (orbs : list Orb)
  : gset Z * list Event :=
  match orbs with
  | [] => (ids, [])
  | orb :: rest =>
      if decide (orb_id orb ∈ ids) then collectsOf pos ids rest
      else if near 0.8 pos (orb_position orb) then
        let (ids', events) := collectsOf pos ({[ orb_id orb ]} ∪ ids) rest in
        (ids', Collect (orb_id orb) (orb_points orb) :: events)
      else collectsOf pos ids rest
  end.

(** The Hit events of one pass over the obstacles: one per obstacle in
    range. *)
Definition hitsOf (pos : Vector3) (obstacles : list Obstacle) : list Event :=
  (fun _ => Hit) <$> filter (fun obs => near 1.2 pos (obs_position obs) = true)
                       obstacles.

Definition dispatch {S} (onCollect : Z -> Z -> S -> S) (onHit : S -> S)
    (s : S) (e : Event) : S :=
  match e with
  | Collect id points => onCollect id points s
  | Hit => onHit s
  end.

Section Callbacks.
Context {S : Type}.
Variable onCollect : Z -> Z -> S -> S.
Variable onHit : S -> S.

Lemma foldl_checkOrb (pos : Vector3) (orbs : list Orb) (ids : gset Z)
    (s : S) :
  foldl (checkOrb onCollect pos) (ids, s) orbs =
  (fst (collectsOf pos ids orbs),
   foldl (dispatch onCollect onHit) s (snd (collectsOf pos ids orbs))).
Proof.
  revert ids s; induction orbs as [|orb rest IH]; intros ids s; simpl;
    [reflexivity|].
  destruct (decide (orb_id orb ∈ ids)) as [Hin|Hout]; [apply IH|].
  unfold near.
  destruct (distanceTo pos (Vector3_of (orb_position orb)) <? 0.8)%float;
    [|apply IH].
  rewrite IH.
  destruct (collectsOf pos ({[orb_id orb]} ∪ ids) rest) as [ids' events].
  reflexivity.
Qed.

Lemma foldl_checkObstacle (pos : Vector3) (obstacles : list Obstacle)
    (s : S) :
  foldl (checkObstacle onHit pos) s obstacles =
  foldl (dispatch onCollect onHit) s (hitsOf pos obstacles).
Proof.
  unfold hitsOf.
  revert s; induction obstacles as [|obs rest IH]; intros s; simpl;
    [reflexivity|].
  unfold checkObstacle at 2, near at 1.
  destruct (distanceTo pos (Vector3_of (obs_position obs)) <? 1.2)%float
    eqn:Hd.
  - rewrite filter_cons_True by (unfold near; exact Hd). simpl. apply IH.
  - rewrite filter_cons_False
      by (unfold near; rewrite Hd; discriminate).
    apply IH.
Qed.

(** The callbacks are called once per event, in order: orbs first, then
    obstacles. *)
Lemma handlePositionChange_events (orbs : list Orb)
    (obstacles : list Obstacle) (pos : Vector3) (ids : gset Z) (s : S) :
  handlePositionChange onCollect onHit true orbs obstacles pos (ids, s) =
  (fst (collectsOf pos ids orbs),
   foldl (dispatch onCollect onHit) s
     (snd (collectsOf pos ids orbs) ++ hitsOf pos obstacles)).
Proof.
  unfold handlePositionChange. simpl.
  rewrite foldl_checkOrb, foldl_checkObstacle, foldl_app. reflexivity.
Qed.
End Callbacks.

Lemma foldl_log (log events : list Event) :
  foldl (dispatch (fun id points l => l ++ [Collect id points])
           (fun l => l ++ [Hit])) log events = log ++ events.
Proof.
  revert log; induction events as [|e rest IH]; intros log; simpl.
  - now rewrite app_nil_r.
  - rewrite IH. destruct e; simpl; now rewrite <- app_assoc.
Qed.

Lemma emitted_active (orbs : list Orb) (obstacles : list Obstacle)
    (pos : Vector3) (ids : gset Z) :
  emitted true orbs obstacles pos ids =
  (fst (collectsOf pos ids orbs),
   snd (collectsOf pos ids orbs) ++ hitsOf pos obstacles).
Proof.
  unfold emitted. rewrite handlePositionChange_events, foldl_log. reflexivity.
Qed.

Lemma emitted_inactive (orbs : list Orb) (obstacles : list Obstacle)
    (pos : Vector3) (ids : gset Z) :
  emitted false orbs obstacles pos ids = (ids, []).
Proof. reflexivity. Qed.

Definition collectsId (id : Z) (e : Event) : bool :=
  match e with
  | Collect id' _ => bool_decide (id' = id)
  | Hit => false
  end.

Definition isHit (e : Event) : bool :=
  match e with
  | Hit => true
  | Collect _ _ => false
  end.

Definition count (p : Event -> bool) (events : list Event) : nat :=
  length (filter (fun e => p e = true) events).

Lemma count_app (p : Event -> bool) (l k : list Event) :
  count p (l ++ k) = (count p l + count p k)%nat.
Proof. unfold count. now rewrite filter_app, length_app. Qed.

Lemma count_hitsOf_collects (id : Z) (pos : Vector3)
    (obstacles : list Obstacle) :
  count (collectsId id) (hitsOf pos obstacles) = 0%nat.
Proof.
  unfold hitsOf.
  induction (filter (fun obs => near 1.2 pos (obs_position obs) = true)
               obstacles) as [|o l IH]; [reflexivity|].
  exact IH.
Qed.

Lemma collectsOf_mono (pos : Vector3) (orbs : list Orb) (ids : gset Z) :
  ids ⊆ fst (collectsOf pos ids orbs).
Proof.
  revert ids; induction orbs as [|orb rest IH]; intros ids; simpl;
    [reflexivity|].
  destruct (decide (orb_id orb ∈ ids)); [apply IH|].
  destruct (near 0.8 pos (orb_position orb)); [|apply IH].
  specialize (IH ({[orb_id orb]} ∪ ids)).
  destruct (collectsOf pos ({[orb_id orb]} ∪ ids) rest) as [ids' events].
  simpl in *. set_solver.
Qed.

(** Within one pass an id already in the set is never collected, and an id
    outside it is collected at most once and is in the set afterwards. *)
Lemma collectsOf_count (id : Z) (pos : Vector3) (orbs : list Orb)
    (ids : gset Z) :
  let n := count (collectsId id) (snd (collectsOf pos ids orbs)) in
  (id ∈ ids -> n = 0%nat) /\
  (n <= 1)%nat /\
  (n = 1%nat -> id ∈ fst (collectsOf pos ids orbs)).
Proof.
  revert ids; induction orbs as [|orb rest IH]; intros ids; simpl.
  - unfold count; simpl. repeat split; intros; lia.
  - destruct (decide (orb_id orb ∈ ids)) as [Hin|Hout]; [apply IH|].
    destruct (near 0.8 pos (orb_position orb)); [|apply IH].
    specialize (IH ({[orb_id orb]} ∪ ids)).
    pose proof (collectsOf_mono pos rest ({[orb_id orb]} ∪ ids)) as Hmono.
    destruct (collectsOf pos ({[orb_id orb]} ∪ ids) rest) as [ids' events].
    cbn [fst snd] in *. destruct IH as (IH0 & IH1 & IH2).
    unfold count in *. simpl.
    destruct (decide (orb_id orb = id)) as [Heq|Hne]; [subst id|].
    + rewrite filter_cons_True
        by (simpl; now rewrite bool_decide_eq_true).
      simpl.
      rewrite IH0 by (apply elem_of_union; left; now apply elem_of_singleton).
      split; [intros; contradiction|]. split; [lia|].
      intros _. apply Hmono, elem_of_union. left. now apply elem_of_singleton.
    + rewrite filter_cons_False
        by (simpl; rewrite bool_decide_eq_false_2; [discriminate|exact Hne]).
      split; [intros; apply IH0, elem_of_union; now right|].
      split; assumption.
Qed.

Lemma collectsOf_no_hit (pos : Vector3) (orbs : list Orb) (ids : gset Z) :
  count isHit (snd (collectsOf pos ids orbs)) = 0%nat.
Proof.
  revert ids; induction orbs as [|orb rest IH]; intros ids; simpl;
    [reflexivity|].
  destruct (decide (orb_id orb ∈ ids)); [apply IH|].
  destruct (near 0.8 pos (orb_position orb)); [|apply IH].
  specialize (IH ({[orb_id orb]} ∪ ids)).
  destruct (collectsOf pos ({[orb_id orb]} ∪ ids) rest) as [ids' events].
  exact IH.
Qed.

Lemma count_isHit_hitsOf (pos : Vector3) (obstacles : list Obstacle) :
  count isHit (hitsOf pos obstacles) =
  length (filter (fun obs => near 1.2 pos (obs_position obs) = true)
            obstacles).
Proof.
  unfold hitsOf.
  induction (filter (fun obs => near 1.2 pos (obs_position obs) = true)
               obstacles) as [|o l IH]; [reflexivity|].
  unfold count in *. rewrite fmap_cons, filter_cons_True by reflexivity.
  cbn [length]. now rewrite IH.
Qed.

(** An orb in range whose id is not yet in the set is collected by the
    pass, wherever it stands in the list. *)
Lemma collectsOf_all (pos : Vector3) (orbs : list Orb) (ids : gset Z)
    (orb : Orb) :
  orb ∈ orbs -> near 0.8 pos (orb_position orb) = true ->
  orb_id orb ∉ ids ->
  count (collectsId (orb_id orb)) (snd (collectsOf pos ids orbs)) = 1%nat.
Proof.
  intros Hin Hnear. revert ids.
  induction orbs as [|o rest IH]; intros ids Hout; [inversion Hin|].
  cbn [collectsOf].
  apply elem_of_cons in Hin as [Heq|Hrest].
  - subst o. rewrite decide_False by exact Hout. rewrite Hnear.
    pose proof (collectsOf_count (orb_id orb) pos rest ({[orb_id orb]} ∪ ids))
      as (H0 & _).
    destruct (collectsOf pos ({[orb_id orb]} ∪ ids) rest) as [ids' events].
    cbn [fst snd] in *. unfold count in *.
    rewrite filter_cons_True
      by (cbn [collectsId]; now rewrite bool_decide_eq_true).
    cbn [length]. rewrite H0 by set_solver. reflexivity.
  - destruct (decide (orb_id o ∈ ids)); [now apply IH|].
    destruct (near 0.8 pos (orb_position o)); [|now apply IH].
    destruct (decide (orb_id o = orb_id orb)) as [Heq|Hid].
    + pose proof (collectsOf_count (orb_id orb) pos rest
                    ({[orb_id o]} ∪ ids)) as (H0 & _).
      destruct (collectsOf pos ({[orb_id o]} ∪ ids) rest) as [ids' events].
      cbn [fst snd] in *. unfold count in *.
      rewrite filter_cons_True
        by (cbn [collectsId]; now rewrite bool_decide_eq_true).
      cbn [length]. rewrite H0 by set_solver. reflexivity.
    + specialize (IH Hrest ({[orb_id o]} ∪ ids)).
      destruct (collectsOf pos ({[orb_id o]} ∪ ids) rest) as [ids' events].
      cbn [fst snd] in *. unfold count in *.
      rewrite filter_cons_False
        by (cbn [collectsId]; rewrite bool_decide_eq_false_2;
            [discriminate|exact Hid]).
      apply IH. set_solver.
Qed.

(** ** Sequences of frames

    What [handlePositionChange] reads in one frame: the props of the render
    that created it and the position sample. *)
Record Props := {
  gameActive : bool;
  liveOrbs : list Orb;
  liveObstacles : list Obstacle;
  playerPos : Vector3
}.

(** The events of successive frames; [collectedIds] is carried from frame
    to frame. *)
Fixpoint trace (ids : gset Z) (frames : list Props) : gset Z * list Event :=
  match frames with
  | [] => (ids, [])
  | f :: rest =>
      let (ids1, events) :=
        emitted (gameActive f) (liveOrbs f) (liveObstacles f) (playerPos f)
          ids in
      let (ids2, later) := trace ids1 rest in
      (ids2, events ++ later)
  end.

Definition inRange (f : Props) : nat :=
  if gameActive f
  then length (filter (fun obs => near 1.2 (playerPos f) (obs_position obs)
                                  = true) (liveObstacles f))
  else 0%nat.

Lemma emitted_count (id : Z) (active : bool) (orbs : list Orb)
    (obstacles : list Obstacle) (pos : Vector3) (ids : gset Z) :
  let n := count (collectsId id) (snd (emitted active orbs obstacles pos ids)) in
  ids ⊆ fst (emitted active orbs obstacles pos ids) /\
  (id ∈ ids -> n = 0%nat) /\
  (n <= 1)%nat /\
  (n = 1%nat -> id ∈ fst (emitted active orbs obstacles pos ids)).
Proof.
  destruct active.
  - rewrite emitted_active. simpl.
    rewrite count_app, count_hitsOf_collects, Nat.add_0_r.
    split; [apply collectsOf_mono | apply collectsOf_count].
  - rewrite emitted_inactive. unfold count; simpl.
    repeat split; intros; try lia. reflexivity.
Qed.

Lemma trace_count (id : Z) (frames : list Props) (ids : gset Z) :
  let n := count (collectsId id) (snd (trace ids frames)) in
  ids ⊆ fst (trace ids frames) /\ (id ∈ ids -> n = 0%nat) /\ (n <= 1)%nat.
Proof.
  revert ids; induction frames as [|f rest IH]; intros ids; simpl.
  - unfold count; simpl. repeat split; intros; try lia. reflexivity.
  - pose proof (emitted_count id (gameActive f) (liveOrbs f) (liveObstacles f)
                  (playerPos f) ids) as (Hsub & H0 & H1 & Hin).
    destruct (emitted (gameActive f) (liveOrbs f) (liveObstacles f)
                (playerPos f) ids) as [ids1 events].
    specialize (IH ids1). destruct (trace ids1 rest) as [ids2 later].
    cbn [fst snd] in *. destruct IH as (Hsub' & H0' & H1').
    rewrite count_app.
    split; [set_solver|]. split.
    + intros Hid. rewrite H0 by exact Hid. rewrite H0' by set_solver. lia.
    + destruct (decide (count (collectsId id) events = 1%nat)) as [He|He].
      * rewrite H0' by (apply Hin; exact He). lia.
      * lia.
Qed.

(** C5.  Over any sequence of frames, whatever orbs, obstacles and positions
    they see, a Collect for a given id is emitted at most once, and never
    when the id is already in the collected set; the loop body leaves the set
    and the callbacks' state alone for an orb whose id is in the set, in
    range or not. *)
Theorem collect_at_most_once (id : Z) (ids : gset Z) (frames : list Props) :
  let n := count (collectsId id) (snd (trace ids frames)) in
  (n <= 1)%nat /\
  (id ∈ ids -> n = 0%nat) /\
  (forall (S : Type) (onCollect : Z -> Z -> S -> S) (pos : Vector3)
          (orb : Orb) (s : S),
      orb_id orb ∈ ids -> checkOrb onCollect pos (ids, s) orb = (ids, s)).
Proof.
  pose proof (trace_count id frames ids) as (_ & H0 & H1).
  split; [exact H1|]. split; [exact H0|].
  intros S onCollect pos orb s Hin. unfold checkOrb.
  now rewrite decide_True by exact Hin.
Qed.

Definition orbAtOrigin (id points : Z) : Orb :=
  {| orb_id := id; orb_position := (0, 0, 0)%float; orb_color := None;
     orb_points := points |}.

Definition obstacleAtOrigin (id : Z) : Obstacle :=
  {| obs_id := id; obs_position := (0, 0, 0)%float; obs_speed := 1 |}.

Definition overlap : Props :=
  {| gameActive := true; liveOrbs := [orbAtOrigin 7 15];
     liveObstacles := [obstacleAtOrigin 8]; playerPos := origin |}.

Lemma collect_at_most_once_witness :
  snd (trace ∅ [overlap; overlap; overlap])
    = [Collect 7 15; Hit; Hit; Hit] /\
  (count (collectsId 7) (snd (trace ∅ [overlap; overlap; overlap])) <= 1)%nat /\
  count (collectsId 7) (snd (trace {[ 7 ]} [overlap; overlap])) = 0%nat /\
  checkOrb (fun _ points (s : Z) => s + points) origin ({[ 7 ]}, 0)
    (orbAtOrigin 7 15) = ({[ 7 ]}, 0).
Proof.
  pose proof (collect_at_most_once 7 ∅ [overlap; overlap; overlap])
    as (H1 & _ & _).
  pose proof (collect_at_most_once 7 {[ 7 ]} [overlap; overlap])
    as (_ & H0 & Hbody).
  split; [vm_compute; reflexivity|]. split; [exact H1|].
  split; [apply H0; set_solver|].
  apply Hbody. set_solver.
Defined.

Lemma trace_hits (frames : list Props) (ids : gset Z) :
  count isHit (snd (trace ids frames)) = sum_list (inRange <$> frames).
Proof.
  revert ids; induction frames as [|f rest IH]; intros ids; simpl;
    [reflexivity|].
  unfold inRange at 1.
  destruct (gameActive f) eqn:Ha.
  - rewrite emitted_active. specialize (IH (fst (collectsOf (playerPos f) ids
                                                    (liveOrbs f)))).
    destruct (trace _ rest) as [ids2 later]. simpl in *.
    rewrite !count_app, collectsOf_no_hit, count_isHit_hitsOf, IH.
    reflexivity.
  - rewrite emitted_inactive. specialize (IH ids).
    destruct (trace ids rest) as [ids2 later]. simpl in *. exact IH.
Qed.

(** ** Frames of the running application *)

(** The Hit events of one input, and of a sequence of inputs. *)
Definition hitsIn (w : World) (i : Input) : nat :=
  match i with
  | Frame pos =>
      count isHit
        (snd (emitted (bool_decide (gameState (app w) = playing))
                (orbs (app w)) (obstacles (app w)) pos (collectedIds w)))
  | _ => 0%nat
  end.

Fixpoint hitCount (w : World) (inputs : list Input) : nat :=
  match inputs with
  | [] => 0%nat
  | i :: rest => (hitsIn w i + hitCount (step w i) rest)%nat
  end.

(** The player position 20 units down the z axis, where the obstacles
    generated from the draw [0.5] are. *)
Definition behind : Vector3 := {| vx := 0; vy := 0; vz := -20 |}.

(** *** What the events of a frame queue *)

Definition pointsOf (events : list Event) : list Z :=
  omap (fun e => match e with Collect _ points => Some points | Hit => None end)
    events.

Definition idsOf (events : list Event) : list Z :=
  omap (fun e => match e with Collect id _ => Some id | Hit => None end)
    events.

Definition remover (id : Z) : list Orb -> M (list Orb) :=
  fun prev => ret (filter (fun o => orb_id o ≠ id) prev).

Definition timer500 : Timer := {| delay := 500; task := Replenish |}.

Definition addTimers (k : nat) (h : Host) : Host :=
  {| clock := clock h; entropy := entropy h; clockReads := clockReads h;
     draws := draws h; timers := timers h ++ replicate k timer500 |}.

Lemma queued_events (rendered : Z) (events : list Event) (p : Pending)
    (h : Host) :
  foldl (dispatch (fun id points (s : Pending * Host) =>
                     handleCollect id points (fst s) (snd s))
                  (fun s : Pending * Host =>
                     (handleHit rendered (fst s), snd s)))
    (p, h) events
  = ({| scoreUpdates := scoreUpdates p ++ (scoreUpdater <$> pointsOf events);
        orbsUpdates := orbsUpdates p ++ (remover <$> idsOf events);
        livesUpdates :=
          livesUpdates p
          ++ replicate (count isHit events) (livesUpdater rendered) |},
     addTimers (length (pointsOf events)) h).
Proof.
  revert p h; induction events as [|e rest IH]; intros p h.
  - destruct p as [sq oq lq], h as [c en cr d t]. cbn [foldl].
    unfold pointsOf, idsOf, count, addTimers.
    rewrite filter_nil.
    cbn [omap list_omap fmap list_fmap length replicate scoreUpdates
         orbsUpdates livesUpdates clock entropy clockReads draws timers].
    now rewrite !app_nil_r.
  - cbn [foldl]. destruct e as [id points|]; cbn [dispatch fst snd].
    + change (handleCollect id points p h)
        with ({| scoreUpdates := scoreUpdates p ++ [scoreUpdater points];
                 orbsUpdates := orbsUpdates p ++ [remover id];
                 livesUpdates := livesUpdates p |}, addTimers 1 h).
      rewrite IH. unfold pointsOf, idsOf, count, addTimers.
      rewrite filter_cons_False by discriminate.
      cbn [omap list_omap fmap list_fmap length replicate scoreUpdates
           orbsUpdates livesUpdates clock entropy clockReads draws timers].
      now rewrite <- !app_assoc.
    + rewrite IH. unfold pointsOf, idsOf, count, handleHit.
      rewrite filter_cons_True by reflexivity.
      cbn [omap list_omap fmap list_fmap length replicate scoreUpdates
           orbsUpdates livesUpdates].
      now rewrite <- !app_assoc.
Qed.

(** *** What the render makes of it *)

(** The number of Collects of a frame that pass a multiple of 200, each on
    the score the Collects before it have left. *)
Fixpoint crossings (score : Z) (points : list Z) : nat :=
  match points with
  | [] => 0%nat
  | p :: rest =>
      Nat.add (if score / 200 <? (score + p) / 200 then 1%nat else 0%nat)
        (crossings (score + p) rest)
  end.

Definition total (score : Z) (points : list Z) : Z := foldl Z.add score points.

(** The Hits of a frame that leave no life, each on the lives the Hits
    before it have left. *)
Fixpoint fatalHits (lives : Z) (n : nat) : nat :=
  match n with
  | O => 0%nat
  | S n' =>
      Nat.add (if lives - 1 <=? 0 then 1%nat else 0%nat)
        (fatalHits (lives - 1) n')
  end.

Fixpoint batches {A} (generate : M (list A)) (m : nat) : M (list A) :=
  match m with
  | O => ret []
  | S m' =>
      first <- generate ;; rest <- batches generate m' ;; ret (first ++ rest)
  end.

Definition removeAll (ids : list Z) (l : list Orb) : list Orb :=
  foldl (fun l id => filter (fun o => orb_id o ≠ id) l) l ids.

Definition levelUps (m : nat) : Nested :=
  {| onGameState := []; onHighScore := [];
     onOrbs := replicate m (fun prevOrbs =>
                              fresh <- generateOrbs 3 ;;
                              ret (prevOrbs ++ fresh));
     onObstacles := replicate m (fun prevObs =>
                                   hazards <- generateObstacles 2 ;;
                                   ret (prevObs ++ hazards));
     onLevel := replicate m (fun l => l + 1) |}.

Definition lost (score : Z) (k : nat) : Nested :=
  {| onGameState := replicate k (fun _ => gameover);
     onHighScore := replicate k (fun h => Z.max h score);
     onOrbs := []; onObstacles := []; onLevel := [] |}.

Lemma nest_assoc (a b c : Nested) : nest (nest a b) c = nest a (nest b c).
Proof.
  unfold nest.
  cbn [onGameState onHighScore onOrbs onObstacles onLevel].
  now rewrite <- !app_assoc.
Qed.

Lemma foldl_score (points : list Z) (s : Z) (n0 : Nested) :
  foldl (fun acc f => let '(s, n) := f (fst acc) in (s, nest (snd acc) n))
    (s, n0) (scoreUpdater <$> points)
  = (total s points, nest n0 (levelUps (crossings s points))).
Proof.
  revert s n0; induction points as [|p rest IH]; intros s n0.
  - cbn [fmap list_fmap foldl total crossings]. unfold total. cbn [foldl].
    f_equal. destruct n0. unfold nest, levelUps.
    cbn [onGameState onHighScore onOrbs onObstacles onLevel replicate].
    now rewrite !app_nil_r.
  - cbn [fmap list_fmap foldl fst snd]. unfold scoreUpdater at 1.
    rewrite IH. unfold total. cbn [foldl crossings]. f_equal.
    rewrite nest_assoc. f_equal.
    destruct (s / 200 <? (s + p) / 200); reflexivity.
Qed.

Lemma foldl_lives (rendered : Z) (n : nat) (l : Z) (n0 : Nested) :
  foldl (fun acc f => let '(s, n) := f (fst acc) in (s, nest (snd acc) n))
    (l, n0) (replicate n (livesUpdater rendered))
  = (l - Z.of_nat n, nest n0 (lost rendered (fatalHits l n))).
Proof.
  revert l n0; induction n as [|n IH]; intros l n0.
  - cbn [replicate foldl fatalHits]. f_equal; [lia|].
    destruct n0. unfold nest, lost.
    cbn [onGameState onHighScore onOrbs onObstacles onLevel replicate].
    now rewrite !app_nil_r.
  - cbn [replicate foldl fst snd]. unfold livesUpdater at 1.
    rewrite IH. cbn [fatalHits]. f_equal; [lia|].
    rewrite nest_assoc. f_equal.
    destruct (l - 1 <=? 0); reflexivity.
Qed.

Lemma fatalHits_pos (l : Z) (n : nat) :
  (0 < fatalHits l n)%nat <-> (0 < n)%nat /\ l - Z.of_nat n <= 0.
Proof.
  revert l; induction n as [|n IH]; intros l; cbn [fatalHits]; [lia|].
  specialize (IH (l - 1)).
  destruct (Z.leb_spec (l - 1) 0) as [Hl|Hl]; lia.
Qed.

Lemma runQueue_app {A} (q1 q2 : list (A -> M A)) (state : A) (h : Host) :
  runQueue (q1 ++ q2) state h =
  let (s1, h1) := runQueue q1 state h in runQueue q2 s1 h1.
Proof.
  revert state h; induction q1 as [|f q1 IH]; intros state h;
    cbn [Datatypes.app runQueue]; [reflexivity|].
  unfold bind. destruct (f state h) as [s' h']. apply IH.
Qed.

Lemma runQueue_removers (ids : list Z) (l : list Orb) (h : Host) :
  runQueue (remover <$> ids) l h = (removeAll ids l, h).
Proof.
  revert l; induction ids as [|id rest IH]; intros l;
    cbn [fmap list_fmap runQueue]; [reflexivity|].
  unfold bind, remover at 1, ret. rewrite IH. reflexivity.
Qed.

Lemma runQueue_appends {A} (generate : M (list A)) (m : nat) (l : list A)
    (h : Host) :
  runQueue (replicate m (fun prev => x <- generate ;; ret (prev ++ x))) l h =
  let (fresh, h') := batches generate m h in (l ++ fresh, h').
Proof.
  revert l h; induction m as [|m IH]; intros l h;
    cbn [replicate runQueue batches]; unfold bind, ret.
  - now rewrite app_nil_r.
  - destruct (generate h) as [x h1]. rewrite IH.
    destruct (batches generate m h1) as [rest h2]. now rewrite app_assoc.
Qed.

Lemma applyAll_gameover (k : nat) (g : GameState) :
  applyAll (replicate k (fun _ => gameover)) g
  = if (0 <? k)%nat then gameover else g.
Proof.
  destruct k as [|k]; [reflexivity|]. unfold applyAll. cbn [replicate foldl].
  induction k as [|k IH]; [reflexivity|]. cbn [replicate foldl]. exact IH.
Qed.

Lemma applyAll_max (score : Z) (k : nat) (best : Z) :
  applyAll (replicate k (fun h => Z.max h score)) best
  = if (0 <? k)%nat then Z.max best score else best.
Proof.
  destruct k as [|k]; [reflexivity|]. unfold applyAll. cbn [replicate foldl].
  change (0 <? S k)%nat with true. cbv iota.
  generalize (eq_refl (Z.max best score)).
  generalize (Z.max best score) at 1 3 as b. intros b Hb.
  induction k as [|k IH]; cbn [replicate foldl]; [exact Hb|].
  replace (Z.max b score) with b by lia. exact IH.
Qed.

Lemma applyAll_succ (m : nat) (l : Z) :
  applyAll (replicate m (fun l => l + 1)) l = l + Z.of_nat m.
Proof.
  revert l; induction m as [|m IH]; intros l; unfold applyAll in *;
    cbn [replicate foldl]; [lia|]. rewrite IH. lia.
Qed.

(** The state after a frame in play.  The points are added and the ids
    removed; the orbs of every level-up are generated, then the obstacles of
    every level-up; a Hit that leaves no life ends the game and compares the
    high score with the rendered score. *)
Lemma frame_playing (pos : Vector3) (w : World) :
  gameState (app w) = playing ->
  let ev := emitted true (orbs (app w)) (obstacles (app w)) pos
              (collectedIds w) in
  let points := pointsOf (snd ev) in
  let n := count isHit (snd ev) in
  let m := crossings (score (app w)) points in
  let over := (0 <? fatalHits (lives (app w)) n)%nat in
  let fresh := batches (generateOrbs 3) m (addTimers (length points) (host w)) in
  let hazards := batches (generateObstacles 2) m (snd fresh) in
  frame pos w =
  {| app := {| gameState := if over then gameover else gameState (app w);
               score := total (score (app w)) points;
               highScore := if over
                            then Z.max (highScore (app w)) (score (app w))
                            else highScore (app w);
               orbs := removeAll (idsOf (snd ev)) (orbs (app w)) ++ fst fresh;
               obstacles := obstacles (app w) ++ fst hazards;
               lives := lives (app w) - Z.of_nat n;
               level := level (app w) + Z.of_nat m |};
     collectedIds := fst ev;
     host := snd hazards |}.
Proof.
  intros Hp. cbv zeta. unfold frame.
  rewrite bool_decide_eq_true_2 by exact Hp.
  rewrite handlePositionChange_events, emitted_active. cbn [fst snd].
  set (events := snd (collectsOf pos (collectedIds w) (orbs (app w)))
                 ++ hitsOf pos (obstacles (app w))).
  rewrite (queued_events (score (app w)) events idle (host w)).
  unfold render, idle.
  cbn [scoreUpdates orbsUpdates livesUpdates Datatypes.app].
  unfold runUpdaters. rewrite foldl_score, foldl_lives.
  unfold nest, noNested, levelUps, lost.
  cbn [onGameState onHighScore onOrbs onObstacles onLevel Datatypes.app
       runQueue].
  rewrite !app_nil_r.
  set (appendOrbs := fun prevOrbs : list Orb =>
                       fresh <- generateOrbs 3 ;; ret (prevOrbs ++ fresh)).
  set (appendObstacles := fun prevObs : list Obstacle =>
                            hazards <- generateObstacles 2 ;;
                            ret (prevObs ++ hazards)).
  unfold bind, ret.
  rewrite runQueue_app, runQueue_removers.
  subst appendOrbs. rewrite (runQueue_appends (generateOrbs 3)).
  destruct (batches (generateOrbs 3) _ _) as [fresh h2]. cbn [fst snd].
  subst appendObstacles. rewrite (runQueue_appends (generateObstacles 2)).
  destruct (batches (generateObstacles 2) _ _) as [hazards h3]. cbn [fst snd].
  rewrite applyAll_succ, applyAll_gameover, applyAll_max. reflexivity.
Qed.

Lemma frame_idle (pos : Vector3) (w : World) :
  gameState (app w) ≠ playing -> frame pos w = w.
Proof.
  intros Hp. unfold frame. rewrite bool_decide_eq_false_2 by exact Hp.
  destruct w as [[g s b o ob l lv] ids h]; reflexivity.
Qed.

Lemma batches_length {A} (generate : M (list A)) (c m : nat) (h : Host) :
  (forall g, length (fst (generate g)) = c) ->
  length (fst (batches generate m h)) = (c * m)%nat.
Proof.
  intros Hc. revert h; induction m as [|m IH]; intros h; cbn [batches];
    unfold bind, ret; [cbn; lia|].
  specialize (Hc h). destruct (generate h) as [x h1]. specialize (IH h1).
  destruct (batches generate m h1) as [rest h2]. cbn [fst] in *.
  rewrite length_app, Hc, IH. lia.
Qed.

Lemma batches_host {A B} (field : Host -> B) (generate : M (list A))
    (m : nat) (h : Host) :
  (forall g, field (snd (generate g)) = field g) ->
  field (snd (batches generate m h)) = field h.
Proof.
  intros Hf. revert h; induction m as [|m IH]; intros h; cbn [batches];
    unfold bind, ret; [reflexivity|].
  specialize (Hf h). destruct (generate h) as [x h1]. specialize (IH h1).
  destruct (batches generate m h1) as [rest h2]. cbn [snd] in *. congruence.
Qed.

Lemma batches_Forall {A} (P : A -> Prop) (Q : Host -> Prop)
    (generate : M (list A)) (m : nat) (h : Host) :
  (forall g, Q g -> Forall P (fst (generate g)) /\ Q (snd (generate g))) ->
  Q h -> Forall P (fst (batches generate m h)).
Proof.
  intros Hg. revert h; induction m as [|m IH]; intros h Hh; cbn [batches];
    unfold bind, ret; [constructor|].
  destruct (Hg h Hh) as [Hx Hq]. destruct (generate h) as [x h1].
  specialize (IH h1 Hq). destruct (batches generate m h1) as [rest h2].
  cbn [fst snd] in *. now apply Forall_app.
Qed.

Lemma removeAll_Forall (P : Orb -> Prop) (ids : list Z) (l : list Orb) :
  Forall P l -> Forall P (removeAll ids l).
Proof.
  unfold removeAll. revert l; induction ids as [|id rest IH]; intros l Hl;
    cbn [foldl]; [exact Hl|].
  apply IH. clear IH. induction Hl as [|x l Hx _ IHl]; [constructor|].
  rewrite filter_cons. destruct (decide (orb_id x ≠ id)); [constructor|];
    assumption.
Qed.



(** ** The collected set *)

Lemma step_collectedIds (w : World) (i : Input) :
  collectedIds w ⊆ collectedIds (step w i).
Proof.
  destruct i as [|pos|]; simpl.
  - unfold click. destruct (decide (gameState (app w) = playing));
      [reflexivity|].
    destruct (startGame (app w) (host w)). reflexivity.
  - destruct (decide (gameState (app w) = playing)) as [Hp|Hp].
    + rewrite (frame_playing pos w Hp). simpl. rewrite emitted_active.
      apply collectsOf_mono.
    + now rewrite (frame_idle pos w Hp).
  - unfold timeout. destruct (timers (host w)) as [|t rest]; [reflexivity|].
    destruct (runTask (task t) (app w) (dropTimer (host w))). reflexivity.
Qed.

Lemma run_collectedIds (inputs : list Input) (w : World) :
  collectedIds w ⊆ collectedIds (run w inputs).
Proof.
  revert w; induction inputs as [|i rest IH]; intros w; [reflexivity|].
  unfold run in *. simpl. etransitivity; [apply step_collectedIds | apply IH].
Qed.

(** C10.  A start resets score, lives and level and replaces the live sets
    but leaves the collected set as it is; no input ever removes an id from
    the set; and an id that was collected once is never collected again,
    after any inputs (later sessions included) and whatever orbs a frame
    sees: an orb is collectible only if its id is not in the set. *)
Theorem collectedIds_never_cleared (w : World) (inputs : list Input)
    (id : Z) (active : bool) (orbs : list Orb) (obstacles : list Obstacle)
    (pos : Vector3) :
  id ∈ collectedIds w ->
  collectedIds (click w) = collectedIds w /\
  collectedIds w ⊆ collectedIds (run w inputs) /\
  id ∈ collectedIds (run w inputs) /\
  count (collectsId id)
    (snd (emitted active orbs obstacles pos (collectedIds (run w inputs))))
    = 0%nat.
Proof.
  intros Hin. pose proof (run_collectedIds inputs w) as Hsub.
  split; [|split; [exact Hsub|split; [set_solver|]]].
  - unfold click. destruct (decide (gameState (app w) = playing));
      [reflexivity|].
    destruct (startGame (app w) (host w)). reflexivity.
  - apply emitted_count. set_solver.
Qed.
Lemma collectedIds_never_cleared_witness :
  let w := run (World_init (sameMillisecond [])) [Click; Frame origin] in
  let w' := run w [Frame behind; Click] in
  gameState (app w') = playing /\
  orb_id <$> orbs (app w') =
    (fun k => 1700000000000 + Z.of_nat k) <$> seq 0 10 /\
  1700000000000 ∈ collectedIds w' /\
  count (collectsId 1700000000000)
    (snd (emitted true (orbs (app w')) (obstacles (app w')) origin
            (collectedIds w'))) = 0%nat.
Proof.
  intros w w'.
  assert (Hin : 1700000000000 ∈ collectedIds w).
  { apply (bool_decide_unpack _). vm_compute. exact I. }
  pose proof (collectedIds_never_cleared w [Frame behind; Click]
                1700000000000 true (orbs (app w')) (obstacles (app w'))
                origin Hin) as (_ & _ & Hin' & Hnone).
  split; [vm_compute; reflexivity|].
  split; [vm_compute; reflexivity|].
  split; [exact Hin' | exact Hnone].
Defined.

(** ** Ranges of the generated entities *)

Definition within (lo hi x : float) : bool :=
  ((lo <=? x) && (x <=? hi))%float.

Definition orbInRange (o : Orb) : Prop :=
  let '(x, y, z) := orb_position o in
  within (-7.5) 7.5 x = true /\ within (-7.5) 7.5 y = true /\
  within (-7.5) 7.5 z = true /\ 10 <= orb_points o <= 59.

Definition obstacleInRange (obs : Obstacle) : Prop :=
  let '(x, y, z) := obs_position obs in
  within (-6) 6 x = true /\ within (-4) 4 y = true /\
  within (-30) (-10) z = true /\ within 1 3 (obs_speed obs) = true.

Lemma Array_from_Forall {A} (P : A -> Prop) (count : nat) (f : Z -> M A)
    (i : Z) (h : Host) :
  (forall j g, entropy g = entropy h ->
               P (fst (f j g)) /\ entropy (snd (f j g)) = entropy h) ->
  Forall P (fst (Array_from count f i h)).
Proof.
  intros Hf. assert (Hh : entropy h = entropy h) by reflexivity.
  revert i Hh. generalize h at 1 3. induction count as [|n IH];
    intros g i Hg; cbn [Array_from]; unfold bind, ret.
  - constructor.
  - destruct (Hf i g Hg) as [HP He].
    destruct (f i g) as [a g1]. cbn [fst snd] in *.
    specialize (IH g1 (i + 1) He).
    destruct (Array_from n f (i + 1) g1) as [rest g2]. cbn [fst] in *.
    constructor; assumption.
Qed.

Lemma within_both (lo hi x : float) :
  (lo <=? x)%float = true /\ (x <=? hi)%float = true -> within lo hi x = true.
Proof. intros [H1 H2]. unfold within. now rewrite H1, H2. Qed.

Lemma generateOrbs_inRange (count : nat) (h : Host) :
  (forall n, inUnitInterval (entropy h n)) ->
  Forall orbInRange (fst (generateOrbs count h)).
Proof.
  intros Hrand. unfold generateOrbs. apply Array_from_Forall.
  intros j g Hg. unfold randomPosition, bind, ret, Date_now, Math_random.
  cbn [fst snd entropy draws]. split; [|exact Hg].
  unfold orbInRange. cbn [orb_position orb_points]. rewrite Hg.
  repeat split.
  - apply within_both, orb_coordinate, Hrand.
  - apply within_both, orb_coordinate, Hrand.
  - apply within_both, orb_coordinate, Hrand.
  - apply orb_points_range, Hrand.
  - apply orb_points_range, Hrand.
Qed.

(** C9.  When [Math.random()] keeps its contract (every draw is in
    [[0, 1)]), every orb returned by [generateOrbs] has its three
    coordinates in [[-7.5, 7.5]] and a point value in [[10, 59]]. *)
Theorem generateOrbs_ranges (count : nat) (h : Host) :
  (forall n, inUnitInterval (entropy h n)) ->
  Forall orbInRange (fst (generateOrbs count h)).
Proof. apply generateOrbs_inRange. Qed.

Lemma sameMillisecond_unit (pending : list Timer) (n : nat) :
  inUnitInterval (entropy (sameMillisecond pending) n).
Proof. split; reflexivity. Qed.

Lemma generateOrbs_ranges_witness :
  Forall orbInRange (fst (generateOrbs 3 (sameMillisecond []))).
Proof.
  apply generateOrbs_ranges. intros n. split; reflexivity.
Defined.

Lemma generateObstacles_inRange (count : nat) (h : Host) :
  (forall n, inUnitInterval (entropy h n)) ->
  Forall obstacleInRange (fst (generateObstacles count h)).
Proof.
  intros Hrand. unfold generateObstacles. apply Array_from_Forall.
  intros j g Hg. unfold bind, ret, Date_now, Math_random.
  cbn [fst snd entropy draws]. split; [|exact Hg].
  unfold obstacleInRange. cbn [obs_position obs_speed]. rewrite Hg.
  repeat split.
  - apply within_both.
    apply (centred_range _ 12 (-6) 6 6755399441055744 (-49));
      [apply Hrand|reflexivity|reflexivity|reflexivity|lia|lia].
  - apply within_both.
    apply (centred_range _ 8 (-4) 4 4503599627370496 (-49));
      [apply Hrand|reflexivity|reflexivity|reflexivity|lia|lia].
  - apply within_both, obstacle_z, Hrand.
  - apply within_both, obstacle_speed, Hrand.
Qed.

(** Every obstacle returned by [generateObstacles] lies in the box
    [[-6, 6] x [-4, 4] x [-30, -10]] and has a speed in [[1, 3]], when the
    draws are in [[0, 1)]. *)
Theorem generateObstacles_ranges (count : nat) (h : Host) :
  (forall n, inUnitInterval (entropy h n)) ->
  Forall obstacleInRange (fst (generateObstacles count h)).
Proof. apply generateObstacles_inRange. Qed.

Lemma generateObstacles_ranges_witness :
  Forall obstacleInRange (fst (generateObstacles 2 (sameMillisecond []))).
Proof.
  apply generateObstacles_ranges. intros n. split; reflexivity.
Defined.

(** With draws in [[0, 1)] the colour index is in [[0, 4]]: every orb
    gets one of the five colours of the palette, never [undefined]. *)
Theorem generateOrbs_colors (count : nat) (h : Host) :
  (forall n, inUnitInterval (entropy h n)) ->
  Forall (fun o => exists c, orb_color o = Some c /\ c ∈ colors)
    (fst (generateOrbs count h)).
Proof.
  intros Hrand. unfold generateOrbs. apply Array_from_Forall.
  intros j g Hg. unfold randomPosition, bind, ret, Date_now, Math_random.
  cbn [fst snd entropy draws orb_color]. split; [|exact Hg].
  rewrite Hg.
  pose proof (color_index_range _ (Hrand (S (S (S (draws g)))))) as Hi.
  unfold index. destruct (Z.leb_spec 0 (Math_floor
    (entropy h (S (S (S (draws g)))) * 5))) as [_|]; [|lia].
  destruct (lookup_lt_is_Some_2 colors
              (Z.to_nat (Math_floor (entropy h (S (S (S (draws g)))) * 5))))
    as [c Hc]; [cbn [length colors]; lia|].
  exists c. split; [exact Hc|]. eapply list_elem_of_lookup_2, Hc.
Qed.

Lemma generateOrbs_colors_witness :
  Forall (fun o => exists c, orb_color o = Some c /\ c ∈ colors)
    (fst (generateOrbs 3 (sameMillisecond []))).
Proof.
  apply generateOrbs_colors. intros n. split; reflexivity.
Defined.

(** ** Ids within one call *)

(** [Date.now()] does not go backwards. *)
Definition clockMonotone (h : Host) : Prop :=
  forall n m : nat, (n <= m)%nat -> clock h n <= clock h m.

Lemma offset_ids_NoDup (h : Host) (off : Z) (count : nat) :
  clockMonotone h ->
  NoDup ((fun k : nat => clock h (clockReads h + k)%nat + Z.of_nat k + off)
           <$> seq 0 count).
Proof.
  intros Hmono. apply NoDup_fmap_2_strong; [|apply NoDup_seq].
  intros x y _ _ Heq.
  destruct (Nat.lt_trichotomy x y) as [Hlt|[Heq'|Hgt]]; [|assumption|].
  - pose proof (Hmono (clockReads h + x)%nat (clockReads h + y)%nat
                  ltac:(lia)). lia.
  - pose proof (Hmono (clockReads h + y)%nat (clockReads h + x)%nat
                  ltac:(lia)). lia.
Qed.

(** Within one call of a generator the ids are pairwise distinct, provided
    the clock does not go backwards during the call. *)
Theorem generate_ids_distinct (count : nat) (h : Host) :
  clockMonotone h ->
  NoDup (orb_id <$> fst (generateOrbs count h)) /\
  NoDup (obs_id <$> fst (generateObstacles count h)).
Proof.
  intros Hmono. rewrite generateOrbs_ids, generateObstacles_ids. split.
  - pose proof (offset_ids_NoDup h 0 count Hmono) as H.
    erewrite list_fmap_ext; [exact H|]. intros _ k _. cbv beta. lia.
  - apply offset_ids_NoDup, Hmono.
Qed.

Lemma arcade_monotone : clockMonotone arcade.
Proof.
  intros n m Hnm. cbn [clock arcade].
  destruct (Nat.ltb_spec n 15), (Nat.ltb_spec m 15),
    (Nat.ltb_spec n 20), (Nat.ltb_spec m 20); lia.
Qed.

Lemma generate_ids_distinct_witness :
  NoDup (orb_id <$> fst (generateOrbs 10 arcade)) /\
  NoDup (obs_id <$> fst (generateObstacles 10 arcade)).
Proof. apply generate_ids_distinct, arcade_monotone. Defined.

Lemma Array_from_reads {A} (count : nat) (f : Z -> M A) (i : Z) (h : Host) :
  (forall j g, clock (snd (f j g)) = clock g /\
               clockReads (snd (f j g)) = Datatypes.S (clockReads g)) ->
  clock (snd (Array_from count f i h)) = clock h /\
  clockReads (snd (Array_from count f i h)) = (clockReads h + count)%nat.
Proof.
  intros Hf. revert i h; induction count as [|n IH]; intros i h;
    cbn [Array_from]; unfold bind, ret.
  - cbn [snd]. split; [reflexivity|lia].
  - destruct (Hf i h) as [Hc Hr]. destruct (f i h) as [a h1].
    cbn [snd] in *. destruct (IH (i + 1) h1) as [IHc IHr].
    destruct (Array_from n f (i + 1) h1) as [rest h2]. cbn [snd] in *.
    split; [congruence|lia].
Qed.

Lemma generateOrbs_reads (count : nat) (h : Host) :
  clock (snd (generateOrbs count h)) = clock h /\
  clockReads (snd (generateOrbs count h)) = (clockReads h + count)%nat.
Proof. apply Array_from_reads. intros j g. split; reflexivity. Qed.

(** After a start the orbs have pairwise distinct ids, so have the
    obstacles, and no obstacle shares its id with an orb, provided the clock
    does not go backwards during the start. *)
Theorem startGame_ids_distinct (a : App) (h : Host) :
  clockMonotone h ->
  let a' := fst (startGame a h) in
  NoDup (orb_id <$> orbs a') /\ NoDup (obs_id <$> obstacles a') /\
  forall i j, i ∈ orb_id <$> orbs a' -> j ∈ obs_id <$> obstacles a' -> i < j.
Proof.
  intros Hmono. cbv zeta. unfold startGame, bind, ret.
  pose proof (generateOrbs_ids 10 h) as Io.
  destruct (generateOrbs_reads 10 h) as [Hc Hr].
  destruct (generateOrbs 10 h) as [fresh h1]. cbn [fst snd] in *.
  pose proof (generateObstacles_ids 5 h1) as Ib.
  destruct (generateObstacles 5 h1) as [hazards h2]. cbn [fst snd] in *.
  app_simpl. rewrite Io, Ib, Hc, Hr. split; [|split].
  - pose proof (offset_ids_NoDup h 0 10 Hmono) as H.
    erewrite list_fmap_ext; [exact H|]. intros _ k _. cbv beta. lia.
  - assert (Hm1 : clockMonotone h1) by (intros n m Hnm; rewrite Hc; auto).
    pose proof (offset_ids_NoDup h1 1000 5 Hm1) as H.
    rewrite Hc, Hr in H. exact H.
  - intros i j Hi Hj.
    apply list_elem_of_fmap in Hi as (x & -> & Hx).
    apply list_elem_of_fmap in Hj as (y & -> & Hy).
    apply elem_of_seq in Hx. apply elem_of_seq in Hy.
    pose proof (Hmono (clockReads h + x)%nat (clockReads h + 10 + y)%nat
                  ltac:(lia)). lia.
Qed.

Lemma startGame_ids_distinct_witness :
  let a' := fst (startGame App_init arcade) in
  NoDup (orb_id <$> orbs a') /\ NoDup (obs_id <$> obstacles a').
Proof.
  cbv zeta.
  destruct (startGame_ids_distinct App_init arcade arcade_monotone)
    as (Ho & Hb & _).
  split; assumption.
Defined.

(** ** Invariants of the running application *)

Lemma startGame_spec (a : App) (h : Host) :
  let fresh := fst (generateOrbs 10 h) in
  let hazards := fst (generateObstacles 5 (snd (generateOrbs 10 h))) in
  fst (startGame a h) =
    {| gameState := playing; score := 0; highScore := highScore a;
       orbs := fresh; obstacles := hazards; lives := 3; level := 1 |}.
Proof.
  cbv zeta. unfold startGame, bind, ret.
  destruct (generateOrbs 10 h) as [fresh h1]. cbn [fst snd].
  destruct (generateObstacles 5 h1) as [hazards h2]. reflexivity.
Qed.

Lemma click_app (w : World) :
  gameState (app w) ≠ playing ->
  app (click w) = fst (startGame (app w) (host w)) /\
  collectedIds (click w) = collectedIds w.
Proof.
  intros Hp. unfold click. rewrite decide_False by exact Hp.
  destruct (startGame (app w) (host w)). split; reflexivity.
Qed.

Lemma timeout_app (w : World) :
  let a' := app (timeout w) in
  gameState a' = gameState (app w) /\ score a' = score (app w) /\
  highScore a' = highScore (app w) /\ lives a' = lives (app w) /\
  level a' = level (app w) /\ obstacles a' = obstacles (app w) /\
  collectedIds (timeout w) = collectedIds w.
Proof.
  cbv zeta. unfold timeout. destruct (timers (host w)) as [|t rest].
  - repeat (split; [reflexivity|]). reflexivity.
  - destruct t as [d []]. unfold runTask, bind, ret.
    destruct (generateOrbs 1 (dropTimer (host w))) as [fresh h1].
    repeat (split; [reflexivity|]). reflexivity.
Qed.

Lemma step_highScore (w : World) (i : Input) :
  highScore (app w) <= highScore (app (step w i)) /\
  (gameState (app w) ≠ title -> gameState (app (step w i)) ≠ title).
Proof.
  destruct i as [|pos|]; cbn [step].
  - destruct (decide (gameState (app w) = playing)) as [Hp|Hp].
    + unfold click. rewrite decide_True by exact Hp. split; [lia|auto].
    + destruct (click_app w Hp) as [Ha _]. rewrite Ha, startGame_spec.
      cbn [highScore gameState]. split; [lia|discriminate].
  - destruct (decide (gameState (app w) = playing)) as [Hp|Hp].
    + rewrite (frame_playing pos w Hp). cbv zeta.
      cbn [app highScore gameState].
      destruct (0 <? fatalHits _ _)%nat; (split; [lia|]);
        [intros _; discriminate|auto].
    + rewrite (frame_idle pos w Hp). split; [lia|auto].
  - pose proof (timeout_app w) as (Hg & _ & Hh & _). cbv zeta in Hg, Hh.
    rewrite Hg, Hh. split; [lia|auto].
Qed.

(** The high score never decreases, whatever happens (frames, timeouts,
    restarts), and once the title screen is left the game never shows it
    again. *)
Theorem highScore_kept_title_left (w : World) (inputs : list Input) :
  highScore (app w) <= highScore (app (run w inputs)) /\
  (gameState (app w) ≠ title -> gameState (app (run w inputs)) ≠ title).
Proof.
  revert w; induction inputs as [|i rest IH]; intros w;
    [split; [reflexivity|auto]|].
  unfold run in *. cbn [foldl].
  destruct (step_highScore w i) as [Sh Sg].
  destruct (IH (step w i)) as [IHh IHg]. split; [lia|auto].
Qed.

Lemma highScore_kept_title_left_witness :
  gameState (app (run (click (World_init arcade))
                    [Frame behind; Click; Timeout])) ≠ title.
Proof.
  apply highScore_kept_title_left. vm_compute. discriminate.
Defined.

(** Five obstacles at the start and two more with each level. *)
Definition obstaclesPerLevel (a : App) : Prop :=
  Z.of_nat (length (obstacles a)) = 5 + 2 * (level a - 1).

Lemma step_obstacles (w : World) (i : Input) :
  gameState (app w) = title \/ obstaclesPerLevel (app w) ->
  gameState (app (step w i)) = title \/ obstaclesPerLevel (app (step w i)).
Proof.
  intros Hw. destruct i as [|pos|]; cbn [step].
  - destruct (decide (gameState (app w) = playing)) as [Hp|Hp].
    + unfold click. rewrite decide_True by exact Hp. exact Hw.
    + right. destruct (click_app w Hp) as [Ha _]. rewrite Ha, startGame_spec.
      unfold obstaclesPerLevel. cbn [obstacles level].
      rewrite generateObstacles_length. reflexivity.
  - destruct (decide (gameState (app w) = playing)) as [Hp|Hp].
    + destruct Hw as [Ht|Hw]; [congruence|]. right.
      rewrite (frame_playing pos w Hp). cbv zeta.
      unfold obstaclesPerLevel in *. cbn [app obstacles level].
      rewrite length_app, (batches_length (generateObstacles 2) 2);
        [lia|intros g; apply generateObstacles_length].
    + now rewrite (frame_idle pos w Hp).
  - pose proof (timeout_app w) as (Hg & _ & _ & _ & Hl & Hb & _).
    cbv zeta in Hg, Hl, Hb. unfold obstaclesPerLevel in *.
    rewrite Hg, Hl, Hb. exact Hw.
Qed.

Lemma run_obstacles (inputs : list Input) (w : World) :
  gameState (app w) = title \/ obstaclesPerLevel (app w) ->
  gameState (app (run w inputs)) = title
  \/ obstaclesPerLevel (app (run w inputs)).
Proof.
  revert w; induction inputs as [|i rest IH]; intros w Hw; [exact Hw|].
  unfold run in *. cbn [foldl]. apply IH. now apply step_obstacles.
Qed.

(** Obstacles are never removed: from the first start on there are exactly
    five obstacles plus two for every level above the first. *)
Theorem obstacles_per_level (h : Host) (inputs : list Input) :
  let w := run (World_init h) inputs in
  gameState (app w) ≠ title ->
  Z.of_nat (length (obstacles (app w))) = 5 + 2 * (level (app w) - 1).
Proof.
  cbv zeta. intros Ht.
  destruct (run_obstacles inputs (World_init h)) as [Hx|Hx];
    [now left|contradiction|exact Hx].
Qed.

Lemma obstacles_per_level_witness :
  let w := run (World_init arcade) [Click; Frame origin; Timeout] in
  level (app w) = 2 /\ length (obstacles (app w)) = 7%nat.
Proof.
  cbv zeta.
  pose proof (obstacles_per_level arcade [Click; Frame origin; Timeout]) as H.
  cbv zeta in H.
  assert (Hl : level (app (run (World_init arcade)
                             [Click; Frame origin; Timeout])) = 2)
    by (vm_compute; reflexivity).
  split; [exact Hl|]. rewrite Hl in H.
  apply Nat2Z.inj. rewrite H; [reflexivity|]. vm_compute. discriminate.
Defined.

(** ** Score and level *)

(** Every draw of the host's random source is in [[0, 1)]. *)
Definition fairHost (h : Host) : Prop :=
  forall n, inUnitInterval (entropy h n).

(** The state of play is consistent: the live orbs have generated
    coordinates and point values, the score is not negative and the level
    is one more than the number of multiples of 200 the score has passed. *)
Definition tallied (s : App * Host) : Prop :=
  fairHost (snd s) /\ Forall orbInRange (orbs (fst s)) /\
  level (fst s) = 1 + score (fst s) / 200 /\ 0 <= score (fst s).

Definition goodEvent (e : Event) : Prop :=
  match e with
  | Collect _ points => 10 <= points <= 59
  | Hit => True
  end.

Lemma Array_from_entropy {A} (count : nat) (f : Z -> M A) (i : Z)
    (h : Host) :
  (forall j g, entropy (snd (f j g)) = entropy g) ->
  entropy (snd (Array_from count f i h)) = entropy h.
Proof.
  intros Hf. revert i h; induction count as [|n IH]; intros i h;
    cbn [Array_from]; unfold bind, ret; [reflexivity|].
  specialize (Hf i h). destruct (f i h) as [a h1]. cbn [snd] in *.
  specialize (IH (i + 1) h1).
  destruct (Array_from n f (i + 1) h1) as [rest h2]. cbn [snd] in *.
  congruence.
Qed.

Lemma generateOrbs_entropy (count : nat) (h : Host) :
  entropy (snd (generateOrbs count h)) = entropy h.
Proof. apply Array_from_entropy. intros j g. reflexivity. Qed.

Lemma generateObstacles_entropy (count : nat) (h : Host) :
  entropy (snd (generateObstacles count h)) = entropy h.
Proof. apply Array_from_entropy. intros j g. reflexivity. Qed.

Lemma fairHost_ext (h g : Host) :
  entropy g = entropy h -> fairHost h -> fairHost g.
Proof. intros He Hh n. rewrite He. apply Hh. Qed.

Lemma pointsOf_good (events : list Event) :
  Forall goodEvent events -> Forall (fun p => 10 <= p <= 59) (pointsOf events).
Proof.
  induction 1 as [|e rest He _ IH]; [constructor|].
  destruct e as [id points|]; unfold pointsOf in *; cbn [omap list_omap];
    [constructor; assumption|exact IH].
Qed.

(** With point values between 10 and 59 no Collect passes two multiples of
    200, so the level-ups of a frame are the multiples its points pass. *)
Lemma crossings_spec (points : list Z) (s : Z) :
  Forall (fun p => 10 <= p <= 59) points -> 0 <= s ->
  Z.of_nat (crossings s points) = total s points / 200 - s / 200 /\
  s <= total s points.
Proof.
  intros Hp. revert s; induction Hp as [|p rest Hp _ IH]; intros s Hs.
  - unfold total. cbn [crossings foldl]. split; lia.
  - unfold total in *. cbn [crossings foldl].
    destruct (IH (s + p)) as [IHc IHs]; [lia|].
    split; [|lia]. rewrite Nat2Z.inj_add, IHc. clear IHc IHs IH.
    generalize (foldl Z.add (s + p) rest). intros t.
    destruct (Z.ltb_spec (s / 200) ((s + p) / 200)) as [Hup|Hup];
      Z.div_mod_to_equations; lia.
Qed.

Lemma collectsOf_good (pos : Vector3) (orbs : list Orb) (ids : gset Z) :
  Forall orbInRange orbs -> Forall goodEvent (snd (collectsOf pos ids orbs)).
Proof.
  intros Ho. revert ids; induction Ho as [|orb rest Horb _ IH]; intros ids;
    cbn [collectsOf]; [constructor|].
  destruct (decide (orb_id orb ∈ ids)); [apply IH|].
  destruct (near 0.8 pos (orb_position orb)); [|apply IH].
  specialize (IH ({[orb_id orb]} ∪ ids)).
  destruct (collectsOf pos ({[orb_id orb]} ∪ ids) rest) as [ids' events].
  cbn [snd] in *. constructor; [|exact IH].
  unfold orbInRange in Horb. destruct (orb_position orb) as [[x y] z].
  cbn [goodEvent]. tauto.
Qed.

Lemma hitsOf_good (pos : Vector3) (obstacles : list Obstacle) :
  Forall goodEvent (hitsOf pos obstacles).
Proof.
  unfold hitsOf. apply Forall_fmap, Forall_forall. intros. exact I.
Qed.

Lemma step_tallied (w : World) (i : Input) :
  tallied (app w, host w) ->
  tallied (app (step w i), host (step w i)) /\
  (i ≠ Click -> score (app w) <= score (app (step w i))).
Proof.
  intros Hw. destruct i as [|pos|]; cbn [step].
  - split; [|congruence]. unfold click.
    destruct (decide (gameState (app w) = playing)); [exact Hw|].
    pose proof (startGame_spec (app w) (host w)) as Hs. cbv zeta in Hs.
    destruct Hw as (Hh & _). cbn [fst snd] in Hh.
    assert (He : entropy (snd (startGame (app w) (host w))) = entropy (host w)).
    { unfold startGame, bind, ret.
      pose proof (generateOrbs_entropy 10 (host w)) as Eo.
      destruct (generateOrbs 10 (host w)) as [fresh h1]. cbn [snd] in *.
      pose proof (generateObstacles_entropy 5 h1) as Eb.
      destruct (generateObstacles 5 h1) as [hazards h2]. cbn [snd] in *.
      congruence. }
    destruct (startGame (app w) (host w)) as [a h']. cbn [fst snd app host] in *.
    subst a. unfold tallied. cbn [fst snd orbs level score].
    split; [exact (fairHost_ext _ _ He Hh)|].
    split; [now apply generateOrbs_inRange|split; [reflexivity|lia]].
  - destruct (decide (gameState (app w) = playing)) as [Hp|Hp].
    + rewrite (frame_playing pos w Hp). cbv zeta. cbn [app host].
      destruct Hw as (Hh & Ho & Hl & Hs). cbn [fst snd] in Hh, Ho, Hl, Hs.
      assert (Hg : Forall (fun p => 10 <= p <= 59)
                     (pointsOf (snd (emitted true (orbs (app w))
                                       (obstacles (app w)) pos
                                       (collectedIds w))))).
      { apply pointsOf_good. rewrite emitted_active. cbn [snd].
        apply Forall_app. split; [now apply collectsOf_good|].
        apply hitsOf_good. }
      destruct (crossings_spec _ (score (app w)) Hg Hs) as [Hc Ht].
      set (h1 := addTimers _ (host w)).
      assert (H1 : fairHost h1) by (intros n; apply Hh).
      unfold tallied. cbn [fst snd orbs level score].
      split; [|intros _; exact Ht]. split.
      { apply (fairHost_ext h1); [|exact H1].
        rewrite (batches_host entropy), (batches_host entropy);
          [reflexivity|intros g; apply generateOrbs_entropy
          |intros g; apply generateObstacles_entropy]. }
      split.
      { apply Forall_app. split; [now apply removeAll_Forall|].
        apply (batches_Forall orbInRange fairHost); [|exact H1].
        intros g Hf. split; [now apply generateOrbs_inRange|].
        apply (fairHost_ext g); [apply generateOrbs_entropy|exact Hf]. }
      split; lia.
    + rewrite (frame_idle pos w Hp). split; [exact Hw|lia].
  - split; [|intros _; pose proof (timeout_app w) as (_ & Hs & _);
             cbv zeta in Hs; lia].
    unfold timeout. destruct (timers (host w)) as [|t rest]; [exact Hw|].
    destruct t as [d []]. unfold runTask, bind, ret. cbn [task].
    destruct Hw as (Hh & Ho & Hl & Hs). cbn [fst snd] in *.
    assert (Hd : fairHost (dropTimer (host w))) by (intros n; apply Hh).
    pose proof (generateOrbs_entropy 1 (dropTimer (host w))) as He.
    pose proof (generateOrbs_inRange 1 (dropTimer (host w)) Hd) as Hf.
    destruct (generateOrbs 1 (dropTimer (host w))) as [fresh h1].
    cbn [fst snd app host] in *. unfold tallied. app_simpl.
    split; [exact (fairHost_ext _ _ He Hd)|].
    split; [now apply Forall_app|split; assumption].
Qed.

Lemma run_tallied (inputs : list Input) (w : World) :
  tallied (app w, host w) ->
  tallied (app (run w inputs), host (run w inputs)) /\
  (Click ∉ inputs -> score (app w) <= score (app (run w inputs))).
Proof.
  revert w; induction inputs as [|i rest IH]; intros w Hw;
    [split; [exact Hw|reflexivity]|].
  unfold run in *. cbn [foldl].
  destruct (step_tallied w i Hw) as [Ht Hs].
  destruct (IH (step w i) Ht) as [IHt IHs].
  split; [exact IHt|]. intros Hc.
  assert (i ≠ Click) by (intros ->; apply Hc; left).
  assert (Click ∉ rest) by (intros ?; apply Hc; now right).
  etransitivity; [apply Hs|apply IHs]; assumption.
Qed.

(** With a random source that keeps its contract, in every state the
    running game reaches the score is not negative and the level is exactly
    one more than the number of multiples of 200 the score has passed; and
    between two starts the score never decreases. *)
Theorem level_follows_score (h : Host) (before after : list Input) :
  fairHost h ->
  let w := run (World_init h) before in
  0 <= score (app w) /\ level (app w) = 1 + score (app w) / 200 /\
  (Click ∉ after -> score (app w) <= score (app (run w after))).
Proof.
  intros Hh. cbv zeta.
  assert (H0 : tallied (app (World_init h), host (World_init h))).
  { unfold tallied. cbn. repeat split; try constructor; try apply Hh;
      discriminate. }
  destruct (run_tallied before _ H0) as [Hw _].
  destruct (run_tallied after _ Hw) as [_ Hs].
  destruct Hw as (_ & _ & Hl & Hsc). cbn [fst] in *.
  split; [exact Hsc|]. split; [exact Hl|exact Hs].
Qed.

Lemma level_follows_score_witness :
  let w := run (World_init arcade) [Click; Frame origin] in
  0 <= score (app w) /\ level (app w) = 1 + score (app w) / 200 /\
  score (app w) <= score (app (run w [Timeout])).
Proof.
  cbv zeta.
  destruct (level_follows_score arcade [Click; Frame origin] [Timeout])
    as (H1 & H2 & H3); [intros n; split; reflexivity|].
  split; [exact H1|]. split; [exact H2|]. apply H3.
  intros Hc. apply elem_of_cons in Hc as [Hc|Hc]; [discriminate|].
  inversion Hc.
Defined.

(** ** Pending timeouts and the states outside play *)

Lemma startGame_timers (a : App) (h : Host) :
  timers (snd (startGame a h)) = timers h.
Proof.
  unfold startGame, bind, ret.
  pose proof (generateOrbs_timers 10 h) as Ho.
  destruct (generateOrbs 10 h) as [fresh h1]. cbn [snd] in Ho.
  pose proof (generateObstacles_timers 5 h1) as Hb.
  destruct (generateObstacles 5 h1) as [hazards h2]. cbn [snd] in *.
  congruence.
Qed.

(** A timeout that fires appends exactly one orb and leaves the queue. *)
Lemma timeout_fires (w : World) (t : Timer) (rest : list Timer) :
  timers (host w) = t :: rest ->
  (exists o, orbs (app (timeout w)) = orbs (app w) ++ [o]) /\
  timers (host (timeout w)) = rest.
Proof.
  intros Ht. unfold timeout. rewrite Ht. destruct t as [d []].
  unfold runTask, bind, ret. cbn [task].
  pose proof (generateOrbs_length 1 (dropTimer (host w))) as Hl.
  pose proof (generateOrbs_timers 1 (dropTimer (host w))) as Hq.
  destruct (generateOrbs 1 (dropTimer (host w))) as [fresh h1].
  cbn [fst snd app host] in *. app_simpl. split.
  - destruct fresh as [|o [|? ?]]; try discriminate. now exists o.
  - rewrite Hq. cbn [dropTimer timers]. now rewrite Ht.
Qed.

Lemma timeout_orbs (w : World) :
  orbs (app w) `prefix_of` orbs (app (timeout w)).
Proof.
  destruct (timers (host w)) as [|t rest] eqn:Ht.
  - unfold timeout. now rewrite Ht.
  - destruct (timeout_fires w t rest Ht) as [[o Ho] _]. rewrite Ho.
    now apply prefix_app_r.
Qed.

Lemma timeouts_fire (k : nat) (w : World) :
  (k <= length (timers (host w)))%nat ->
  length (orbs (app (run w (replicate k Timeout))))
    = (length (orbs (app w)) + k)%nat.
Proof.
  revert w; induction k as [|k IH]; intros w Hk.
  - cbn. lia.
  - cbn [replicate]. unfold run in *. cbn [foldl step].
    destruct (timers (host w)) as [|t rest] eqn:Ht; [cbn in Hk; lia|].
    destruct (timeout_fires w t rest Ht) as [[o Ho] Hq].
    rewrite IH by (rewrite Hq; cbn in Hk; lia).
    rewrite Ho, length_app. cbn. lia.
Qed.

(** [startGame] cancels no pending timeout (the source never calls
    [clearTimeout]): replenishments requested in the game before still arrive
    in the new one, on top of its ten orbs. *)
Theorem restart_keeps_timers (w : World) (k : nat) :
  gameState (app w) ≠ playing ->
  (k <= length (timers (host w)))%nat ->
  length (orbs (app (run w (Click :: replicate k Timeout)))) = (10 + k)%nat.
Proof.
  intros Hp Hk. unfold run. cbn [foldl step].
  fold (run (click w) (replicate k Timeout)).
  assert (Hq : timers (host (click w)) = timers (host w)).
  { unfold click. rewrite decide_False by exact Hp.
    pose proof (startGame_timers (app w) (host w)) as Hq.
    destruct (startGame (app w) (host w)) as [a h]. exact Hq. }
  rewrite timeouts_fire by (now rewrite Hq).
  destruct (click_app w Hp) as [Ha _].
  rewrite Ha, startGame_spec. cbn [orbs].
  now rewrite generateOrbs_length.
Qed.

Lemma restart_keeps_timers_witness :
  let w := run (World_init arcade) [Click; Frame origin; Frame behind] in
  gameState (app w) = gameover /\
  length (orbs (app (run w [Click; Timeout; Timeout]))) = 12%nat.
Proof.
  cbv zeta. split; [vm_compute; reflexivity|].
  apply (restart_keeps_timers
           (run (World_init arcade) [Click; Frame origin; Frame behind]) 2).
  - vm_compute. discriminate.
  - vm_compute. lia.
Defined.

Lemma step_idle (w : World) (i : Input) :
  gameState (app w) ≠ playing -> i ≠ Click ->
  let w' := step w i in
  gameState (app w') = gameState (app w) /\ score (app w') = score (app w) /\
  lives (app w') = lives (app w) /\ level (app w') = level (app w) /\
  highScore (app w') = highScore (app w) /\
  obstacles (app w') = obstacles (app w) /\
  collectedIds w' = collectedIds w /\
  orbs (app w) `prefix_of` orbs (app w').
Proof.
  intros Hp Hi. cbv zeta. destruct i as [|pos|]; [congruence| |]; cbn [step].
  - rewrite (frame_idle pos w Hp). do 7 (split; [reflexivity|]). reflexivity.
  - pose proof (timeout_app w) as (Hg & Hs & Hh & Hl & Hv & Hb & Hc).
    cbv zeta in *. do 7 (split; [assumption|]). apply timeout_orbs.
Qed.

(** Outside play nothing moves until a click: frames are ignored, and a
    timeout that is still pending only appends its orb.  In particular the
    game-over screen keeps its score until PLAY AGAIN. *)
Theorem idle_until_click (w : World) (inputs : list Input) :
  gameState (app w) ≠ playing -> Click ∉ inputs ->
  let w' := run w inputs in
  gameState (app w') = gameState (app w) /\ score (app w') = score (app w) /\
  lives (app w') = lives (app w) /\ level (app w') = level (app w) /\
  highScore (app w') = highScore (app w) /\
  obstacles (app w') = obstacles (app w) /\
  collectedIds w' = collectedIds w /\
  orbs (app w) `prefix_of` orbs (app w').
Proof.
  cbv zeta. revert w; induction inputs as [|i rest IH]; intros w Hp Hc.
  - cbn. do 7 (split; [reflexivity|]). reflexivity.
  - assert (Hi : i ≠ Click) by (intros ->; apply Hc; left).
    assert (Hr : Click ∉ rest) by (intros ?; apply Hc; now right).
    destruct (step_idle w i Hp Hi) as (Hg & Hs & Hl & Hv & Hh & Hb & Hd & Ho).
    cbv zeta in *. unfold run in *. cbn [foldl].
    destruct (IH (step w i)) as (Hg' & Hs' & Hl' & Hv' & Hh' & Hb' & Hd' & Ho');
      [congruence|exact Hr|].
    rewrite Hg', Hs', Hl', Hv', Hh', Hb', Hd'.
    do 7 (split; [assumption|]). now transitivity (orbs (app (step w i))).
Qed.

Lemma idle_until_click_witness :
  let w := run (World_init arcade) [Click; Frame origin; Frame behind] in
  let w' := run w [Frame origin; Timeout; Frame behind] in
  gameState (app w') = gameover /\ score (app w') = score (app w) /\
  lives (app w') = lives (app w).
Proof.
  cbv zeta.
  destruct (idle_until_click
              (run (World_init arcade) [Click; Frame origin; Frame behind])
              [Frame origin; Timeout; Frame behind])
    as (Hg & Hs & Hl & _).
  - vm_compute. discriminate.
  - intros H. repeat (apply elem_of_cons in H as [H|H]; [discriminate|]).
    inversion H.
  - cbv zeta in *. split; [|split; assumption].
    rewrite Hg. vm_compute. reflexivity.
Defined.

(** ** What the overlay shows *)

Definition lit (row : list bool) : Z :=
  Z.of_nat (length (filter (fun b => b = true) row)).

Definition alive (a : App) : Prop :=
  lives a <= 3 /\ (gameState a = playing -> 1 <= lives a).

Lemma livesRow_lit (n : Z) : lit (livesRow n) = Z.max 0 (Z.min 3 n).
Proof.
  unfold lit, livesRow. cbn [seq fmap list_fmap].
  change (Z.of_nat 0) with 0; change (Z.of_nat 1) with 1;
    change (Z.of_nat 2) with 2.
  destruct (0 <? n) eqn:H0, (1 <? n) eqn:H1, (2 <? n) eqn:H2;
    try (apply Z.ltb_lt in H0); try (apply Z.ltb_ge in H0);
    try (apply Z.ltb_lt in H1); try (apply Z.ltb_ge in H1);
    try (apply Z.ltb_lt in H2); try (apply Z.ltb_ge in H2);
    try lia; vm_compute length; lia.
Qed.

Lemma step_alive (w : World) (i : Input) :
  alive (app w) -> alive (app (step w i)).
Proof.
  intros Hw. destruct i as [|pos|]; cbn [step].
  - destruct (decide (gameState (app w) = playing)) as [Hp|Hp].
    + unfold click. now rewrite decide_True by exact Hp.
    + destruct (click_app w Hp) as [Ha _]. rewrite Ha, startGame_spec.
      unfold alive. cbn [lives gameState]. split; [lia|intros _; lia].
  - destruct (decide (gameState (app w) = playing)) as [Hp|Hp].
    + rewrite (frame_playing pos w Hp). cbv zeta.
      unfold alive in *. cbn [app lives gameState].
      destruct Hw as [H3 H1]. specialize (H1 Hp).
      set (n := count isHit _).
      pose proof (fatalHits_pos (lives (app w)) n) as Hf.
      destruct (Nat.ltb_spec 0 (fatalHits (lives (app w)) n));
        (split; [lia|]); [discriminate|]. intros _. lia.
    + now rewrite (frame_idle pos w Hp).
  - pose proof (timeout_app w) as (Hg & _ & _ & Hl & _).
    cbv zeta in Hg, Hl. unfold alive in *. now rewrite Hg, Hl.
Qed.

Lemma run_alive (inputs : list Input) (w : World) :
  alive (app w) -> alive (app (run w inputs)).
Proof.
  revert w; induction inputs as [|i rest IH]; intros w Hw; [exact Hw|].
  unfold run in *. cbn [foldl]. apply IH. now apply step_alive.
Qed.

(** Although [lives] can go below zero, the lives row never shows it:
    whenever the phase is Playing, [lives] is 1, 2 or 3 and exactly [lives]
    of the three slots are lit. *)
Theorem lives_row_while_playing (h : Host) (inputs : list Input) :
  let a := app (run (World_init h) inputs) in
  gameState a = playing ->
  1 <= lives a <= 3 /\ lit (livesRow (lives a)) = lives a.
Proof.
  cbv zeta. intros Hp.
  destruct (run_alive inputs (World_init h)) as [H3 H1].
  { unfold alive. cbn. split; [lia|discriminate]. }
  specialize (H1 Hp). split; [lia|]. rewrite livesRow_lit. lia.
Qed.

Lemma lives_row_while_playing_witness :
  let a := app (run (World_init arcade) [Click; Frame origin]) in
  1 <= lives a <= 3 /\ lit (livesRow (lives a)) = lives a.
Proof.
  cbv zeta.
  apply (lives_row_while_playing arcade [Click; Frame origin]).
  vm_compute. reflexivity.
Defined.

Lemma step_title (w : World) (i : Input) :
  gameState (app (step w i)) = title ->
  gameState (app w) = title /\ highScore (app (step w i)) = highScore (app w).
Proof.
  intros Ht.
  assert (Hw : gameState (app w) = title).
  { destruct (decide (gameState (app w) = title)) as [Hw|Hw]; [exact Hw|].
    now destruct (proj2 (step_highScore w i) Hw). }
  split; [exact Hw|].
  assert (Hp : gameState (app w) ≠ playing) by congruence.
  destruct i as [|pos|]; cbn [step] in *.
  - destruct (click_app w Hp) as [Ha _].
    rewrite Ha, startGame_spec in Ht. cbn [gameState] in Ht.
    discriminate Ht.
  - now rewrite (frame_idle pos w Hp).
  - now pose proof (timeout_app w) as (_ & _ & Hh & _).
Qed.

Lemma run_title (inputs : list Input) (w : World) :
  gameState (app (run w inputs)) = title ->
  highScore (app (run w inputs)) = highScore (app w).
Proof.
  induction inputs as [|i rest IH] using rev_ind; intros Ht; [reflexivity|].
  unfold run in *. rewrite foldl_app in *. cbn [foldl] in *.
  destruct (step_title _ i Ht) as [Hw Hh]. rewrite Hh. now apply IH.
Qed.

(** The title screen, the only place where the high score is printed, is
    shown only before the first game, and the high score is still 0 then:
    HIGH SCORE never shows another value. *)
Theorem title_shows_zero (h : Host) (inputs : list Input) :
  let a := app (run (World_init h) inputs) in
  gameState a = title -> highScore a = 0.
Proof.
  cbv zeta. intros Ht. now rewrite (run_title inputs (World_init h) Ht).
Qed.

Lemma title_shows_zero_witness :
  highScore (app (run (World_init arcade) [Frame behind; Timeout])) = 0.
Proof.
  apply (title_shows_zero arcade [Frame behind; Timeout]).
  vm_compute. reflexivity.
Defined.

(** * Rounding in general

    The rounding of [binary_round_aux] from any location, with overflow:
    enough to bound a result from below. *)

(** The second half of [binary_round_aux]: the rounded mantissa is
    brought back to 53 digits, and the exponent is checked. *)
Definition renormalise (s : bool) (m1 e1 : Z) : spec_float :=
  let '(mrs'', e'') := shr_fexp prec emax m1 e1 loc_Exact in
  match shr_m mrs'' with
  | Z0 => S754_zero s
  | Zpos m => if Z.leb e'' (Z.sub emax prec) then S754_finite s m e''
              else S754_infinity s
  | _ => S754_nan
  end.

Lemma second_shift_any (s : bool) (m1 e1 : Z) :
  0 <= m1 <= 2 ^ 53 -> -1074 <= e1 ->
  rounded s m1 e1 (renormalise s m1 e1) \/
  (0 < m1 /\ renormalise s m1 e1 = S754_infinity s).
Proof.
  intros Hm He.
  destruct (Z_le_gt_dec (e1 + 1) 971) as [Hmax|Hmax];
    [left; now apply second_shift|].
  unfold renormalise, shr_fexp, rounded.
  destruct m1 as [|p|p]; [| |lia].
  - left. left. cbn [Zdigits2]. rewrite fexp_eq.
    replace (0 + e1) with e1 by lia. unfold shr.
    destruct (Z.max (e1 - 53) (-1074) - e1) eqn:E; try (split; reflexivity).
    lia.
  - destruct (Z.eq_dec (Zpos p) (2 ^ 53)) as [Heq|Hne].
    + right. split; [lia|].
      assert (Hp : p = 9007199254740992%positive) by lia. subst p.
      cbn [Zdigits2].
      change (Zpos (digits2_pos 9007199254740992)) with 54.
      rewrite fexp_eq.
      replace (Z.max (54 + e1 - 53) (-1074) - e1) with 1 by lia.
      cbn [shr SpecFloat.iter_pos shr_record_of_loc shr_1 shr_m].
      change (Z.sub emax prec) with 971.
      destruct (Z.leb_spec (e1 + 1) 971); [lia|reflexivity].
    + cbn [Zdigits2]. rewrite fexp_eq.
      assert (Hd : Zpos (digits2_pos p) <= 53) by (apply digits2_pos_le; lia).
      unfold shr.
      destruct (Z.max (Z.pos (digits2_pos p) + e1 - 53) (-1074) - e1) eqn:E;
        try lia; cbn [shr_record_of_loc shr_m];
        change (Z.sub emax prec) with 971;
        (destruct (Z.leb_spec e1 971);
         [left; right; left; split; [lia|reflexivity]
         |right; split; [lia|reflexivity]]).
Qed.

Lemma round_nearest_even_range (m : Z) (l : location) :
  m <= round_nearest_even m l <= m + 1.
Proof.
  destruct l as [|[]]; cbn [round_nearest_even]; try lia.
  destruct (Z.even m); lia.
Qed.

Lemma loc_of_shr_record_of_loc (m : Z) (l : location) :
  loc_of_shr_record (shr_record_of_loc m l) = l /\
  shr_m (shr_record_of_loc m l) = m.
Proof. destruct l as [|[]]; split; reflexivity. Qed.

(** The mantissa is cut to [q], then stays or goes one up, at the exponent
    [e1]. *)
Lemma binary_round_aux_cut (s : bool) (N : positive) (ex : Z)
    (lx : location) :
  let e1 := Z.max ex (fexp prec emax (Zpos (digits2_pos N) + ex)) in
  let q := Zpos N / 2 ^ (e1 - ex) in
  exists m1, q <= m1 <= q + 1 /\
             binary_round_aux prec emax s (Zpos N) ex lx
             = renormalise s m1 e1.
Proof.
  intros e1 q.
  assert (Hex : ex <= e1) by (unfold e1; lia).
  unfold binary_round_aux.
  unfold shr_fexp at 1. cbn [Zdigits2]. unfold shr.
  destruct (fexp prec emax (Zpos (digits2_pos N) + ex) - ex)
    as [|p|p] eqn:En.
  - assert (q = Zpos N)
      by (unfold q; replace (e1 - ex) with 0 by (unfold e1; lia);
          rewrite Z.pow_0_r, Z.div_1_r; reflexivity).
    cbv beta iota.
    destruct (loc_of_shr_record_of_loc (Zpos N) lx) as [-> ->].
    pose proof (round_nearest_even_range (Zpos N) lx) as Hr.
    exists (round_nearest_even (Zpos N) lx). split; [lia|].
    replace ex with e1 at 1 by (unfold e1; lia). reflexivity.
  - cbv beta iota. rewrite iter_pos_nat.
    destruct (shr_iter (Zpos N) (Pos.to_nat p) (shr_record_of_loc (Zpos N) lx))
      as [Hm _]; [lia|apply loc_of_shr_record_of_loc|].
    rewrite positive_nat_Z in Hm.
    replace (Zpos p) with (e1 - ex) in Hm by (unfold e1; lia).
    fold q in Hm.
    set (rec := Nat.iter (Pos.to_nat p) shr_1 _) in *.
    pose proof (round_nearest_even_range (shr_m rec) (loc_of_shr_record rec))
      as Hr.
    exists (round_nearest_even (shr_m rec) (loc_of_shr_record rec)).
    split; [rewrite <- Hm; exact Hr|].
    replace (ex + Zpos p) with e1 by (unfold e1; lia). reflexivity.
  - assert (q = Zpos N)
      by (unfold q; replace (e1 - ex) with 0 by (unfold e1; lia);
          rewrite Z.pow_0_r, Z.div_1_r; reflexivity).
    cbv beta iota.
    destruct (loc_of_shr_record_of_loc (Zpos N) lx) as [-> ->].
    pose proof (round_nearest_even_range (Zpos N) lx) as Hr.
    exists (round_nearest_even (Zpos N) lx). split; [lia|].
    replace ex with e1 at 1 by (unfold e1; lia). reflexivity.
Qed.

Lemma binary_round_aux_any (s : bool) (N : positive) (ex : Z)
    (lx : location) :
  let e1 := Z.max ex (fexp prec emax (Zpos (digits2_pos N) + ex)) in
  let q := Zpos N / 2 ^ (e1 - ex) in
  let r := binary_round_aux prec emax s (Zpos N) ex lx in
  exists m1, q <= m1 <= q + 1 /\
             (rounded s m1 e1 r \/ (0 < m1 /\ r = S754_infinity s)).
Proof.
  intros e1 q r.
  assert (He1 : -1074 <= e1) by (unfold e1; rewrite fexp_eq; lia).
  assert (Hex : ex <= e1) by (unfold e1; lia).
  assert (Hpow : 0 < 2 ^ (e1 - ex)) by (apply pow2_pos; lia).
  assert (Hq : 0 <= q < 2 ^ 53).
  { unfold q. split; [apply Z.div_pos; lia|].
    apply Z.div_lt_upper_bound; [lia|].
    rewrite <- Z.pow_add_r by lia.
    destruct (digits2_pos_bounds N) as [_ Hhi].
    eapply Z.lt_le_trans; [exact Hhi|]. apply Z.pow_le_mono_r; [lia|].
    unfold e1. rewrite fexp_eq. lia. }
  destruct (binary_round_aux_cut s N ex lx) as (m1 & Hm1 & Hr).
  fold e1 q in Hm1, Hr. fold r in Hr. exists m1. split; [exact Hm1|].
  rewrite Hr. apply second_shift_any; lia.
Qed.

(** A number that is a NaN, the positive infinity, or finite, positive and
    at least the canonical pair [(kb, eb)]. *)
Definition atleast (kb : positive) (eb : Z) (x : spec_float) : Prop :=
  x = S754_nan \/ x = S754_infinity false \/ above false kb eb x.

Lemma round_atleast (s : bool) (N : positive) (ex : Z) (lx : location)
    (kb : positive) (eb : Z) :
  2 ^ 52 <= Zpos kb < 2 ^ 53 -> -1074 <= eb ->
  Zpos kb * 2 ^ (eb - Z.min eb ex) <= Zpos N * 2 ^ (ex - Z.min eb ex) ->
  let r := binary_round_aux prec emax s (Zpos N) ex lx in
  r = S754_infinity s \/ above s kb eb r.
Proof.
  intros Hkb Heb Hlow r.
  destruct (binary_round_aux_any s N ex lx) as (m1 & Hm1 & Hr).
  fold r in Hr.
  set (d := Zpos (digits2_pos N)) in *.
  set (e1 := Z.max ex (fexp prec emax (d + ex))) in *.
  set (c := Z.min eb ex) in *.
  assert (Hc1 : 0 < 2 ^ (eb - c)) by (apply pow2_pos; lia).
  assert (Hc2 : 0 < 2 ^ (ex - c)) by (apply pow2_pos; lia).
  destruct (digits2_pos_bounds N) as [Hlo Hhi]. fold d in Hlo, Hhi.
  assert (Hd : 52 + eb < d + ex).
  { assert (H1 : 2 ^ (52 + eb - c) <= Zpos kb * 2 ^ (eb - c)).
    { replace (52 + eb - c) with (52 + (eb - c)) by lia.
      rewrite Z.pow_add_r by lia. nia. }
    assert (H2 : Zpos N * 2 ^ (ex - c) < 2 ^ (d + ex - c)).
    { replace (d + ex - c) with (d + (ex - c)) by lia.
      rewrite Z.pow_add_r by lia. nia. }
    assert (52 + eb - c < d + ex - c); [|lia].
    apply (Z.pow_lt_mono_r_iff 2 (52 + eb - c) (d + ex - c)); lia. }
  assert (He1 : eb <= e1) by (unfold e1; rewrite fexp_eq; lia).
  assert (Hpn : 0 < 2 ^ (e1 - ex)) by (apply pow2_pos; unfold e1; lia).
  assert (Hq : 0 < Zpos N / 2 ^ (e1 - ex) /\
               (e1 = eb -> Zpos kb <= Zpos N / 2 ^ (e1 - ex))).
  { split.
    - destruct (Z.eq_dec e1 ex) as [Heq|Hne].
      + rewrite Heq, Z.sub_diag, Z.pow_0_r, Z.div_1_r. lia.
      + assert (Hn53 : e1 - ex = d - 53)
          by (unfold e1 in *; rewrite fexp_eq in *; lia).
        apply Z.lt_le_trans with (2 ^ 52); [lia|].
        apply Z.div_le_lower_bound; [lia|].
        rewrite <- Z.pow_add_r by lia.
        replace (e1 - ex + 52) with (d - 1) by lia. exact Hlo.
    - intros Heq. apply Z.div_le_lower_bound; [lia|].
      assert (Hcx : c = ex) by (unfold c, e1 in *; lia).
      rewrite Hcx, Z.sub_diag, Z.pow_0_r in Hlow.
      rewrite Heq. lia. }
  destruct Hq as [Hq0 Hqk].
  destruct Hr as [[[H0 _]|[[Hpos Hx]|[H53 Hx]]]|[_ Hx]];
    [lia| | |left; exact Hx]; right.
  - exists (Z.to_pos m1), e1. split; [exact Hx|].
    rewrite Z2Pos.id by lia.
    destruct (Z.eq_dec e1 eb) as [Heq|Hne]; [right|left; lia].
    split; [assumption|]. specialize (Hqk Heq). lia.
  - exists (Z.to_pos (2 ^ 52)), (e1 + 1). split; [exact Hx|]. left. lia.
Qed.

(** ** Magnitudes on a common scale *)

Lemma rescale (a b x y c0 c : Z) :
  c0 <= c -> c <= x -> c <= y ->
  a * 2 ^ (x - c0) <= b * 2 ^ (y - c0) ->
  a * 2 ^ (x - c) <= b * 2 ^ (y - c).
Proof.
  intros H0 Hx Hy H.
  replace (x - c0) with ((x - c) + (c - c0)) in H by lia.
  replace (y - c0) with ((y - c) + (c - c0)) in H by lia.
  rewrite !Z.pow_add_r, !Z.mul_assoc in H by lia.
  apply Z.mul_le_mono_pos_r in H; [exact H|]. apply pow2_pos; lia.
Qed.

Lemma above_value (s : bool) (m : positive) (e : Z) (kb : positive)
    (eb c : Z) :
  valid_binary (S754_finite s m e) = true ->
  eb < e \/ (e = eb /\ Zpos kb <= Zpos m) ->
  Zpos kb < 2 ^ 53 -> -1074 <= eb -> c <= eb -> c <= e ->
  Zpos kb * 2 ^ (eb - c) <= Zpos m * 2 ^ (e - c).
Proof.
  intros Hv Hab Hkb Heb Hc1 Hc2.
  assert (Hp : 0 < 2 ^ (eb - c)) by (apply pow2_pos; lia).
  destruct Hab as [Hlt|[-> Hle]]; [|now apply Z.mul_le_mono_nonneg_r; lia].
  destruct (valid_finite s m e Hv) as (Hf & _ & _ & _).
  rewrite fexp_eq in Hf.
  destruct (digits2_pos_bounds m) as [Hlo _].
  replace (Zpos (digits2_pos m) - 1) with 52 in Hlo by lia.
  transitivity (2 ^ 53 * 2 ^ (eb - c)); [nia|].
  transitivity (2 ^ 52 * 2 ^ (e - c));
    [|apply Z.mul_le_mono_nonneg_r; [apply Z.lt_le_incl, pow2_pos; lia|lia]].
  rewrite <- !Z.pow_add_r by lia. apply Z.pow_le_mono_r; lia.
Qed.

(** ** Squares, sums and square roots from below *)

Definition nonneg (x : spec_float) : Prop :=
  x = S754_nan \/ x = S754_infinity false \/ (exists s, x = S754_zero s) \/
  exists m e, x = S754_finite false m e.

Lemma round_sign (s : bool) (N : positive) (ex : Z) (lx : location) :
  let r := binary_round_aux prec emax s (Zpos N) ex lx in
  r = S754_zero s \/ r = S754_infinity s \/ exists m e, r = S754_finite s m e.
Proof.
  cbv zeta.
  destruct (binary_round_aux_any s N ex lx)
    as (m1 & _ & [[[_ ->]|[[_ ->]|[_ ->]]]|[_ ->]]); eauto.
Qed.

Lemma binary_round_sign (s : bool) (p : positive) (e : Z) :
  let r := binary_round prec emax s p e in
  r = S754_zero s \/ r = S754_infinity s \/ exists m' e', r = S754_finite s m' e'.
Proof.
  cbv zeta. unfold binary_round. destruct (shl_align p e _) as [mz ez].
  apply round_sign.
Qed.

Lemma mul_self_nonneg (x : spec_float) : nonneg (SF64mul x x).
Proof.
  unfold SF64mul, nonneg. destruct x as [s|s| |s m e]; cbn [SFmul].
  - right; right; left. eauto.
  - right; left. now destruct s.
  - now left.
  - replace (xorb s s) with false by (now destruct s).
    destruct (round_sign false (m * m) (e + e) loc_Exact)
      as [->|[->|(m' & e' & ->)]]; eauto 8.
Qed.

Lemma add_nonneg (x y : spec_float) :
  nonneg x -> nonneg y -> nonneg (SF64add x y).
Proof.
  unfold SF64add, nonneg.
  intros [->|[->|[[sx ->]|(mx & ex & ->)]]]
         [->|[->|[[sy ->]|(my & ey & ->)]]]; cbn [SFadd]; eauto 8.
  - destruct sx, sy; eauto 8.
  - cbn [cond_Zopp]. rewrite <- Pos2Z.inj_add. cbn [binary_normalize].
    destruct (binary_round_sign false
                (fst (shl_align mx ex (Z.min ex ey))
                 + fst (shl_align my ey (Z.min ex ey))) (Z.min ex ey))
      as [->|[->|(m' & e' & ->)]]; eauto 8.
Qed.

Lemma add_atleast (x y : spec_float) (kb : positive) (eb : Z) :
  nonneg x -> valid_binary y = true -> above false kb eb y ->
  2 ^ 52 <= Zpos kb < 2 ^ 53 -> -1074 <= eb ->
  atleast kb eb (SF64add x y).
Proof.
  unfold SF64add, atleast.
  intros Hx Hv (my & ey & -> & Hab) Hkb Heb.
  assert (Hy : above false kb eb (S754_finite false my ey))
    by (exists my, ey; split; [reflexivity|exact Hab]).
  destruct Hx as [->|[->|[[sx ->]|(mx & ex & ->)]]]; cbn [SFadd]; auto.
  cbn [cond_Zopp]. rewrite <- Pos2Z.inj_add. cbn [binary_normalize].
  set (ez := Z.min ex ey).
  assert (Hzy : ez <= ey) by (unfold ez; lia).
  pose proof (shl_align_spec mx ex ez) as Hax.
  pose proof (shl_align_spec my ey ez) as Hay.
  destruct (shl_align mx ex ez) as [mx' ex'], (shl_align my ey ez) as [my' ey'].
  destruct Hax as [_ _], Hay as [Hey' Hmy']. cbn [fst].
  assert (Hey : ey' = ez) by lia. subst ey'. clearbody ez.
  unfold binary_round.
  pose proof (shl_align_spec (mx' + my') ez
                (fexp prec emax (Zpos (digits2_pos (mx' + my')) + ez)))
    as Haz.
  destruct (shl_align (mx' + my') ez _) as [mz ez'].
  destruct Haz as [Hez' Hmz].
  assert (Hzz : ez' <= ez) by (rewrite Hez'; apply Z.le_min_l). clear Hez'.
  destruct (round_atleast false mz ez' loc_Exact kb eb Hkb Heb)
    as [Hr|Hr]; [|now right; left|now right; right].
  set (c := Z.min eb ez').
  assert (Hc : c <= eb /\ c <= ez') by (unfold c; lia). clearbody c.
  assert (Hle : Zpos kb * 2 ^ (eb - c) <= Zpos my * 2 ^ (ey - c))
    by (apply (above_value false my ey kb eb c Hv Hab); lia).
  etransitivity; [exact Hle|].
  rewrite Hmz, Pos2Z.inj_add, Hmy'.
  assert (H1 : 0 < 2 ^ (ez - ez')) by (apply pow2_pos; lia).
  assert (H2 : 0 < 2 ^ (ez' - c)) by (apply pow2_pos; lia).
  assert (H3 : 0 < 2 ^ (ey - ez)) by (apply pow2_pos; lia).
  replace (ey - c) with ((ey - ez) + (ez - ez') + (ez' - c)) by lia.
  rewrite !Z.pow_add_r by lia.
  rewrite !Z.mul_assoc.
  apply Z.mul_le_mono_nonneg_r; [lia|].
  apply Z.mul_le_mono_nonneg_r; [lia|].
  rewrite Hey. assert (0 < Zpos mx') by lia. lia.
Qed.

(** The square of a number of magnitude at least [(kb, eb)] is at least
    [(kb2, eb2)], when the square of the first pair is not below the
    second. *)
Lemma mul_self_atleast (s : bool) (m : positive) (e : Z) (kb : positive)
    (eb : Z) (kb2 : positive) (eb2 : Z) :
  valid_binary (S754_finite s m e) = true ->
  eb < e \/ (e = eb /\ Zpos kb <= Zpos m) ->
  Zpos kb < 2 ^ 53 -> -1074 <= eb ->
  2 ^ 52 <= Zpos kb2 < 2 ^ 53 -> -1074 <= eb2 ->
  eb + eb <= eb2 -> Zpos kb2 * 2 ^ (eb2 - (eb + eb)) <= Zpos kb * Zpos kb ->
  atleast kb2 eb2 (SF64mul (S754_finite s m e) (S754_finite s m e)).
Proof.
  intros Hv Hab Hkb Heb Hkb2 Heb2 Hee Hsq. unfold SF64mul, atleast.
  cbn [SFmul].
  replace (xorb s s) with false by (now destruct s).
  destruct (round_atleast false (m * m) (e + e) loc_Exact kb2 eb2)
    as [Hr|Hr]; [lia|lia| |now right; left|now right; right].
  set (c0 := Z.min eb e).
  assert (Hc0 : c0 <= eb /\ c0 <= e) by (unfold c0; lia). clearbody c0.
  pose proof (above_value s m e kb eb c0 Hv Hab
                ltac:(lia) ltac:(lia) ltac:(lia) ltac:(lia)) as Hval.
  apply (rescale _ _ _ _ (c0 + c0)); [lia|lia|lia|].
  set (A := 2 ^ (eb - c0)) in *. set (B := 2 ^ (e - c0)) in *.
  set (D := 2 ^ (eb2 - (eb + eb))) in *.
  assert (HA : 0 < A) by (apply pow2_pos; lia).
  assert (HB : 0 < B) by (apply pow2_pos; lia).
  assert (HD : 0 < D) by (apply pow2_pos; lia).
  replace (eb2 - (c0 + c0)) with (eb2 - (eb + eb) + (eb - c0) + (eb - c0))
    by lia.
  replace (e + e - (c0 + c0)) with ((e - c0) + (e - c0)) by lia.
  rewrite !Z.pow_add_r by lia. fold A B D.
  rewrite Pos2Z.inj_mul.
  transitivity ((Zpos kb * A) * (Zpos kb * A)).
  - replace (Zpos kb2 * (D * A * A)) with ((Zpos kb2 * D) * (A * A)) by ring.
    replace (Zpos kb * A * (Zpos kb * A)) with ((Zpos kb * Zpos kb) * (A * A))
      by ring.
    apply Z.mul_le_mono_nonneg_r; [nia|exact Hsq].
  - replace (Zpos m * Zpos m * (B * B)) with ((Zpos m * B) * (Zpos m * B))
      by ring.
    apply Z.mul_le_mono_nonneg; lia.
Qed.

Lemma sqrt_bracket (q r n K : Z) :
  n = q * q + r -> 0 <= r <= 2 * q -> 0 <= K -> K * K <= n -> K <= q.
Proof. intros -> Hr HK Hle. nia. Qed.

(** The square root of a number that is at least [(kb2, eb2)] is at least
    [(kb, eb)], when the square of the second pair is not above the
    first. *)
Lemma sqrt_atleast (m : positive) (e : Z) (kb : positive) (eb : Z)
    (kb2 : positive) (eb2 : Z) :
  valid_binary (S754_finite false m e) = true ->
  eb2 < e \/ (e = eb2 /\ Zpos kb2 <= Zpos m) ->
  2 ^ 52 <= Zpos kb < 2 ^ 53 -> -1074 <= eb ->
  Zpos kb2 < 2 ^ 53 -> -1074 <= eb2 ->
  eb + eb <= eb2 -> Zpos kb * Zpos kb <= Zpos kb2 * 2 ^ (eb2 - (eb + eb)) ->
  atleast kb eb (SF64sqrt (S754_finite false m e)).
Proof.
  intros Hv Hab Hkb Heb Hkb2 Heb2 Hee Hsq. unfold SF64sqrt, atleast.
  cbn [SFsqrt].
  unfold SFsqrt_core_binary. cbn [Zdigits2].
  set (d := Zpos (digits2_pos m)).
  set (e' := Z.min (fexp prec emax (Z.div2 (d + e + 1))) (Z.div2 e)).
  assert (He'1 : 2 * e' <= e).
  { assert (e' <= Z.div2 e) by (unfold e'; lia).
    rewrite Z.div2_div in *. pose proof (Z.mul_div_le e 2). lia. }
  assert (He'2 : -1074 < e' -> 2 * e' <= d + e - 105).
  { intros Hbig.
    assert (H : e' <= fexp prec emax (Z.div2 (d + e + 1))) by (unfold e'; lia).
    rewrite fexp_eq, Z.div2_div in H.
    pose proof (Z.mul_div_le (d + e + 1) 2). lia. }
  clearbody e'.
  set (m' := match e - 2 * e' with
             | Zpos _ => Z.shiftl (Zpos m) (e - 2 * e')
             | Z0 => Zpos m
             | Zneg _ => Z0
             end).
  assert (Hm' : m' = Zpos m * 2 ^ (e - 2 * e')).
  { unfold m'. destruct (e - 2 * e') as [|p|p] eqn:E; [| |lia].
    - rewrite Z.pow_0_r. lia.
    - rewrite Z.shiftl_mul_pow2 by lia. reflexivity. }
  clearbody m'.
  assert (Hp : 0 < 2 ^ (e - 2 * e')) by (apply pow2_pos; lia).
  pose proof (Z.sqrtrem_spec m' ltac:(nia)) as Hs.
  destruct (Z.sqrtrem m') as [q r]. destruct Hs as [Hqr Hr].
  assert (Hq : 0 < q) by nia.
  destruct q as [|N|N]; try lia.
  set (l := if Z.eqb r 0 then loc_Exact
            else loc_Inexact (if Z.leb r (Zpos N) then Lt else Gt)).
  clearbody l.
  destruct (round_atleast false N e' l kb eb)
    as [Hx|Hx]; [lia|lia| |now right; left|now right; right].
  destruct (Z_le_gt_dec e' eb) as [Hle|Hgt].
  - rewrite Z.min_r by lia. rewrite Z.sub_diag, Z.pow_0_r, Z.mul_1_r.
    set (A := 2 ^ (eb - e')).
    assert (HA : 0 < A) by (apply pow2_pos; lia).
    apply (sqrt_bracket (Zpos N) r m' (Zpos kb * A) Hqr Hr); [lia|].
    rewrite Hm'.
    pose proof (above_value false m e kb2 eb2 (2 * e') Hv Hab
                  ltac:(lia) ltac:(lia) ltac:(lia) ltac:(lia)) as Hval.
    etransitivity; [|exact Hval].
    replace (eb2 - 2 * e') with (eb2 - (eb + eb) + (eb - e') + (eb - e'))
      by lia.
    assert (HD : 0 < 2 ^ (eb2 - (eb + eb))) by (apply pow2_pos; lia).
    rewrite !Z.pow_add_r by lia. fold A.
    set (D := 2 ^ (eb2 - (eb + eb))) in *.
    replace (Zpos kb * A * (Zpos kb * A)) with ((Zpos kb * Zpos kb) * (A * A))
      by ring.
    replace (Zpos kb2 * (D * A * A)) with ((Zpos kb2 * D) * (A * A)) by ring.
    apply Z.mul_le_mono_nonneg_r; [nia|exact Hsq].
  - rewrite Z.min_l by lia. rewrite Z.sub_diag, Z.pow_0_r, Z.mul_1_r.
    assert (H52 : 2 ^ 52 <= Zpos N).
    { apply (sqrt_bracket (Zpos N) r m' (2 ^ 52) Hqr Hr); [lia|].
      rewrite Hm'. change (2 ^ 52 * 2 ^ 52) with (2 ^ 104).
      destruct (digits2_pos_bounds m) as [Hlo _]. fold d in Hlo.
      transitivity (2 ^ (d - 1) * 2 ^ (e - 2 * e'));
        [|apply Z.mul_le_mono_nonneg_r; lia].
      rewrite <- Z.pow_add_r by (unfold d; lia).
      apply Z.pow_le_mono_r; [lia|]. specialize (He'2 ltac:(lia)). lia. }
    assert (H2 : 2 ^ 1 <= 2 ^ (e' - eb))
      by (apply Z.pow_le_mono_r; lia).
    change (2 ^ 1) with 2 in H2. nia.
Qed.

(** * The plane of play *)

(** A position in the plane [z = 0] (a zero of either sign), or with no
    [z] at all (NaN, when a frame has no usable [delta]). *)
Definition inPlane (p : Vector3) : Prop :=
  Prim2SF (vz p) = S754_nan \/ exists s, Prim2SF (vz p) = S754_zero s.

Definition inPlaneInput (i : Input) : Prop :=
  match i with
  | Frame pos => inPlane pos
  | _ => True
  end.

Definition steady (s : PlayerShip) : Prop :=
  inPlane (meshPosition s) /\ Prim2SF (vz (targetPos s)) = S754_zero false.

Lemma lerp_inPlane (p v : Vector3) (alpha : float) :
  inPlane p -> Prim2SF (vz v) = S754_zero false -> inPlane (lerp p v alpha).
Proof.
  unfold inPlane, lerp. cbn [vz]. intros Hp Hv.
  rewrite add_spec, mul_spec, sub_spec, Hv.
  destruct Hp as [->|[s ->]]; [now left|].
  destruct (Prim2SF alpha) as [sa|sa| |sa ma ea], s; cbn; eauto;
    destruct sa; eauto.
Qed.

Lemma handlePointerMove_steady (scr : Screen) (x y : float)
    (s : PlayerShip) :
  steady s -> steady (handlePointerMove scr x y s).
Proof. intros [Hm _]. split; [exact Hm|reflexivity]. Qed.

Lemma handleTouchMove_steady (scr : Screen) (touches : list (float * float))
    (s : PlayerShip) :
  steady s -> steady (handleTouchMove scr touches s).
Proof.
  intros Hs. destruct touches as [|[x y] rest]; [exact Hs|].
  now apply handlePointerMove_steady.
Qed.

Lemma reported_inPlane (gs : list Gesture) (s : PlayerShip) :
  steady s -> Forall inPlane (reported s gs).
Proof.
  revert s; induction gs as [|g rest IH]; intros s Hs; [constructor|].
  destruct g as [scr x y|scr touches|delta]; cbn [reported].
  - now apply IH, handlePointerMove_steady.
  - now apply IH, handleTouchMove_steady.
  - unfold PlayerShip_frame. destruct Hs as [Hm Ht].
    assert (Hp : inPlane (lerp (meshPosition s) (targetPos s) (delta * 8)))
      by now apply lerp_inPlane.
    constructor; [exact Hp|]. apply IH. split; [exact Hp|exact Ht].
Qed.

(** Whatever the pointer, the touches, the screen and the frame times
    (the handlers only ever write 0 to the target's [z]), every position
    [PlayerShip] reports to [onPositionChange] is in the plane [z = 0]. *)
Theorem ship_stays_in_plane (gs : list Gesture) :
  Forall inPlane (reported PlayerShip_mount gs).
Proof.
  apply reported_inPlane. split; [right; now exists false|reflexivity].
Qed.

(** ** What is within reach of the plane *)

Lemma far_atleast (a b : float) (kb : positive) (eb : Z) (kb2 : positive)
    (eb2 : Z) :
  nonneg (Prim2SF a) -> atleast kb2 eb2 (Prim2SF b) ->
  2 ^ 52 <= Zpos kb < 2 ^ 53 -> -1074 <= eb ->
  2 ^ 52 <= Zpos kb2 < 2 ^ 53 -> -1074 <= eb2 ->
  eb + eb <= eb2 -> Zpos kb * Zpos kb <= Zpos kb2 * 2 ^ (eb2 - (eb + eb)) ->
  atleast kb eb (Prim2SF (sqrt (a + b))).
Proof.
  intros Ha Hb Hkb Heb Hkb2 Heb2 Hee Hsq. rewrite sqrt_spec.
  assert (Hs : atleast kb2 eb2 (Prim2SF (a + b))).
  { rewrite add_spec. destruct Hb as [->|[->|Hb]].
    - left. unfold SF64add. now destruct (Prim2SF a).
    - destruct Ha as [->|[->|[[s ->]|(m & e & ->)]]];
        [now left|now right; left|now right; left|now right; left].
    - apply add_atleast; [exact Ha|apply Prim2SF_valid|exact Hb|lia|lia]. }
  pose proof (Prim2SF_valid (a + b)) as Hv.
  destruct Hs as [->|[->|(m & e & Hx & He)]];
    [now left|now right; left|].
  rewrite Hx in *.
  apply (sqrt_atleast m e kb eb kb2 eb2); try assumption; lia.
Qed.

(** The distance from a position in the plane to a point whose depth,
    squared, is at least [(kb2, eb2)]. *)
Lemma distance_atleast (pos : Vector3) (x y z : float) (kb : positive)
    (eb : Z) (kb2 : positive) (eb2 : Z) :
  atleast kb2 eb2 (Prim2SF ((vz pos - z) * (vz pos - z))) ->
  2 ^ 52 <= Zpos kb < 2 ^ 53 -> -1074 <= eb ->
  2 ^ 52 <= Zpos kb2 < 2 ^ 53 -> -1074 <= eb2 ->
  eb + eb <= eb2 -> Zpos kb * Zpos kb <= Zpos kb2 * 2 ^ (eb2 - (eb + eb)) ->
  atleast kb eb (Prim2SF (distanceTo pos (Vector3_of (x, y, z)))).
Proof.
  intros Hz Hkb Heb Hkb2 Heb2 Hee Hsq.
  unfold distanceTo. cbn [Vector3_of vx vy vz].
  apply (far_atleast _ _ kb eb kb2 eb2); try assumption.
  rewrite add_spec, !mul_spec. apply add_nonneg; apply mul_self_nonneg.
Qed.

(** The [z] distance of a point at [z <= -10] from the plane. *)
Lemma depth_atleast (pz oz : float) :
  Prim2SF pz = S754_nan \/ (exists s, Prim2SF pz = S754_zero s) ->
  (oz <=? -10)%float = true ->
  atleast 7036874417766400 (-46) (Prim2SF ((pz - oz) * (pz - oz))).
Proof.
  intros Hp Hz. rewrite mul_spec, sub_spec.
  rewrite leb_spec in Hz.
  change (Prim2SF (-10)) with (S754_finite true 5629499534213120 (-49)) in Hz.
  pose proof (Prim2SF_valid oz) as Hv.
  destruct Hp as [->|[s ->]]; [now left|].
  destruct (Prim2SF oz) as [so|so| |so mo eo]; try discriminate Hz.
  - destruct so; [right; left; now destruct s|discriminate Hz].
  - destruct so; [|discriminate Hz].
    assert (Hab : -49 < eo \/ (eo = -49 /\ 5629499534213120 <= Zpos mo)).
    { unfold SFleb in Hz. cbn [SFcompare] in Hz.
      rewrite pos_compare_cont in Hz.
      destruct (Z.compare_spec eo (-49)) as [Heq|Hlt|Hgt];
        [right|discriminate Hz|left; lia].
      split; [exact Heq|].
      destruct (Z.compare_spec (Zpos mo) 5629499534213120);
        first [lia|discriminate Hz]. }
    replace (SF64sub (S754_zero s) (S754_finite true mo eo))
      with (S754_finite false mo eo) by (now destruct s).
    apply (mul_self_atleast false mo eo 5629499534213120 (-49));
      [exact Hv|exact Hab|lia|lia|lia|lia|lia|reflexivity].
Qed.

Lemma atleast_not_below (d : float) :
  atleast 5629499534213120 (-49) (Prim2SF d) -> (d <? 1.2)%float = false.
Proof.
  intros Hd. rewrite ltb_spec.
  change (Prim2SF 1.2) with (S754_finite false 5404319552844595 (-52)).
  destruct Hd as [->|[->|(m & e & -> & He)]]; try reflexivity.
  unfold SFltb. cbn [SFcompare].
  destruct (Z.compare_spec e (-52)); first [reflexivity|lia].
Qed.

(** A point at [z <= -10] is never within 1.2 of a position in the plane:
    the distance is at least 10, or not a number. *)
Lemma behind_plane (pos : Vector3) (x y z : float) :
  inPlane pos -> (z <=? -10)%float = true -> near 1.2 pos (x, y, z) = false.
Proof.
  intros Hp Hz. unfold near.
  apply atleast_not_below.
  apply (distance_atleast pos x y z 5629499534213120 (-49)
           7036874417766400 (-46)); [|lia|lia|lia|lia|lia|reflexivity].
  now apply depth_atleast.
Qed.

(** The [z] distance of a point at [z <= -0.8] or [z >= 0.8] from the
    plane, squared: at least the binary64 square of 0.8. *)
Lemma depth_orb (pz oz : float) :
  Prim2SF pz = S754_nan \/ (exists s, Prim2SF pz = S754_zero s) ->
  (oz <=? -0.8)%float = true \/ (0.8 <=? oz)%float = true ->
  atleast 5764607523034236 (-53) (Prim2SF ((pz - oz) * (pz - oz))).
Proof.
  intros Hp Hz. rewrite mul_spec, sub_spec.
  rewrite !leb_spec in Hz.
  change (Prim2SF (-0.8)) with (S754_finite true 7205759403792794 (-53)) in Hz.
  change (Prim2SF 0.8) with (S754_finite false 7205759403792794 (-53)) in Hz.
  pose proof (Prim2SF_valid oz) as Hv.
  destruct Hp as [->|[s ->]]; [now left|].
  destruct (Prim2SF oz) as [so|so| |so mo eo].
  - destruct Hz as [Hz|Hz]; destruct so; discriminate Hz.
  - right; left. destruct Hz as [Hz|Hz]; destruct so, s;
      first [reflexivity|discriminate Hz].
  - destruct Hz as [Hz|Hz]; discriminate Hz.
  - assert (Hab : -53 < eo \/ (eo = -53 /\ 7205759403792794 <= Zpos mo)).
    { destruct Hz as [Hz|Hz]; destruct so; try discriminate Hz;
        unfold SFleb in Hz; cbn [SFcompare] in Hz;
        rewrite pos_compare_cont in Hz.
      - destruct (Z.compare_spec eo (-53)) as [Heq|Hlt|Hgt];
          [right|discriminate Hz|left; lia].
        split; [exact Heq|].
        destruct (Z.compare_spec (Zpos mo) 7205759403792794);
          first [lia|discriminate Hz].
      - destruct (Z.compare_spec (-53) eo) as [Heq|Hlt|Hgt];
          [right|left; lia|discriminate Hz].
        split; [now symmetry|].
        destruct (Z.compare_spec 7205759403792794 (Zpos mo));
          first [lia|discriminate Hz]. }
    replace (SF64sub (S754_zero s) (S754_finite so mo eo))
      with (S754_finite (negb so) mo eo) by (now destruct s).
    assert (Hv' : valid_binary (S754_finite (negb so) mo eo) = true)
      by exact Hv.
    destruct (Z.eq_dec eo (-53)) as [He|He];
      [destruct (Z.eq_dec (Zpos mo) 7205759403792794) as [Hm|Hm]|].
    + subst eo. injection Hm as ->. right; right.
      exists 5764607523034236%positive, (-53). split; [|right; lia].
      now destruct so.
    + apply (mul_self_atleast _ mo eo 7205759403792795 (-53));
        [exact Hv'|lia|lia|lia|lia|lia|lia|vm_compute; discriminate].
    + apply (mul_self_atleast _ mo eo 7205759403792795 (-53));
        [exact Hv'|lia|lia|lia|lia|lia|lia|vm_compute; discriminate].
Qed.

Lemma atleast_not_near (d : float) :
  atleast 7205759403792794 (-53) (Prim2SF d) -> (d <? 0.8)%float = false.
Proof.
  intros Hd. rewrite ltb_spec.
  change (Prim2SF 0.8) with (S754_finite false 7205759403792794 (-53)).
  destruct Hd as [->|[->|(m & e & -> & He)]]; try reflexivity.
  unfold SFltb. cbn [SFcompare]. rewrite pos_compare_cont.
  destruct (Z.compare_spec e (-53));
    [destruct (Z.compare_spec (Zpos m) 7205759403792794)| |];
    first [reflexivity|lia].
Qed.

(** An orb at [z <= -0.8] or [z >= 0.8] is never within 0.8 of a position
    in the plane. *)
Lemma beside_plane (pos : Vector3) (x y z : float) :
  inPlane pos ->
  (z <=? -0.8)%float = true \/ (0.8 <=? z)%float = true ->
  near 0.8 pos (x, y, z) = false.
Proof.
  intros Hp Hz. unfold near.
  apply atleast_not_near.
  apply (distance_atleast pos x y z 7205759403792794 (-53)
           5764607523034236 (-53));
    [|lia|lia|lia|lia|lia|vm_compute; discriminate].
  now apply depth_orb.
Qed.

Lemma hitsOf_inPlane (pos : Vector3) (obstacles : list Obstacle) :
  inPlane pos -> Forall obstacleInRange obstacles ->
  hitsOf pos obstacles = [].
Proof.
  intros Hp Ho. unfold hitsOf.
  induction Ho as [|obs rest Hobs _ IH]; [reflexivity|].
  rewrite filter_cons_False; [exact IH|].
  unfold obstacleInRange in Hobs.
  destruct (obs_position obs) as [[x y] z].
  destruct Hobs as (_ & _ & Hz & _). unfold within in Hz.
  apply andb_prop in Hz as [_ Hz].
  rewrite (behind_plane pos x y z Hp Hz). discriminate.
Qed.

(** ** Orbs within reach *)

(** An orb whose [z] is strictly between -0.8 and 0.8 (or is not a
    number). *)
Definition shallow (o : Orb) : Prop :=
  let '(_, _, z) := orb_position o in
  (z <=? -0.8)%float = false /\ (0.8 <=? z)%float = false.

Lemma collectsOf_near (pos : Vector3) (orbs : list Orb) (ids : gset Z)
    (id points : Z) :
  Collect id points ∈ snd (collectsOf pos ids orbs) ->
  exists orb, orb ∈ orbs /\ orb_id orb = id /\ orb_points orb = points /\
              near 0.8 pos (orb_position orb) = true.
Proof.
  revert ids; induction orbs as [|orb rest IH]; intros ids;
    cbn [collectsOf]; [intros H; inversion H|].
  assert (Hrest : forall ids',
            Collect id points ∈ snd (collectsOf pos ids' rest) ->
            exists o, o ∈ orb :: rest /\ orb_id o = id /\
                      orb_points o = points /\
                      near 0.8 pos (orb_position o) = true).
  { intros ids' H. destruct (IH ids' H) as (o & Ho & Hrest).
    exists o. split; [now right|exact Hrest]. }
  destruct (decide (orb_id orb ∈ ids)); [apply Hrest|].
  destruct (near 0.8 pos (orb_position orb)) eqn:Hn; [|apply Hrest].
  specialize (Hrest ({[orb_id orb]} ∪ ids)).
  destruct (collectsOf pos ({[orb_id orb]} ∪ ids) rest) as [ids' events].
  cbn [snd] in *. intros H. apply elem_of_cons in H as [H|H]; [|now apply Hrest].
  injection H as -> ->. exists orb. split; [now left|]. now repeat split.
Qed.

(** With the ship in the plane, a frame collects only orbs whose [z] is
    strictly between -0.8 and 0.8: every Collect it emits is for such an
    orb of the rendered list.  ([randomPosition(15)] spreads [z] over
    [[-7.5, 7.5]], so most orbs can never be collected.) *)
Theorem collect_only_shallow (active : bool) (orbs : list Orb)
    (obstacles : list Obstacle) (pos : Vector3) (ids : gset Z)
    (id points : Z) :
  inPlane pos ->
  Collect id points ∈ snd (emitted active orbs obstacles pos ids) ->
  exists orb, orb ∈ orbs /\ orb_id orb = id /\ orb_points orb = points /\
              shallow orb.
Proof.
  intros Hp Hin. destruct active; [|inversion Hin].
  rewrite emitted_active in Hin. cbn [snd] in Hin.
  apply elem_of_app in Hin as [Hin|Hin].
  - destruct (collectsOf_near pos orbs ids id points Hin)
      as (orb & Ho & Hid & Hpt & Hn).
    exists orb. split; [exact Ho|]. split; [exact Hid|].
    split; [exact Hpt|]. unfold shallow.
    destruct (orb_position orb) as [[x y] z].
    destruct (z <=? -0.8)%float eqn:E1;
      [rewrite (beside_plane pos x y z Hp (or_introl E1)) in Hn;
       discriminate Hn|].
    destruct (0.8 <=? z)%float eqn:E2;
      [rewrite (beside_plane pos x y z Hp (or_intror E2)) in Hn;
       discriminate Hn|].
    split; reflexivity.
  - unfold hitsOf in Hin. apply list_elem_of_fmap in Hin as (obs & Hobs & _).
    discriminate Hobs.
Qed.

Lemma collect_only_shallow_witness :
  exists orb, orb ∈ [orbAtOrigin 7 15] /\ orb_id orb = 7 /\
              orb_points orb = 15 /\ shallow orb.
Proof.
  apply (collect_only_shallow true [orbAtOrigin 7 15] [] origin ∅ 7 15).
  - right. now exists false.
  - vm_compute. left.
Defined.

(** ** The game cannot be lost *)

(** Nothing has been lost so far, and nothing can be: the obstacles are
    where [generateObstacles] puts them. *)
Definition safe (s : App * Host) : Prop :=
  fairHost (snd s) /\ Forall obstacleInRange (obstacles (fst s)) /\
  lives (fst s) = 3 /\ gameState (fst s) ≠ gameover /\ highScore (fst s) = 0.

Lemma frame_no_hit (pos : Vector3) (w : World) :
  inPlane pos -> Forall obstacleInRange (obstacles (app w)) ->
  hitsIn w (Frame pos) = 0%nat.
Proof.
  intros Hp Ho. cbn [hitsIn].
  destruct (bool_decide (gameState (app w) = playing)); [|reflexivity].
  rewrite emitted_active. cbn [snd].
  rewrite count_app, collectsOf_no_hit, (hitsOf_inPlane pos _ Hp Ho).
  reflexivity.
Qed.

Lemma step_safe (w : World) (i : Input) :
  inPlaneInput i -> safe (app w, host w) ->
  safe (app (step w i), host (step w i)) /\ hitsIn w i = 0%nat.
Proof.
  intros Hi Hw. destruct i as [|pos|]; cbn [step].
  - split; [|reflexivity]. unfold click.
    destruct (decide (gameState (app w) = playing)); [exact Hw|].
    pose proof (startGame_spec (app w) (host w)) as Hs. cbv zeta in Hs.
    destruct Hw as (Hh & _ & _ & _ & Hhs). cbn [fst snd] in Hh, Hhs.
    assert (He : entropy (snd (startGame (app w) (host w))) = entropy (host w)).
    { unfold startGame, bind, ret.
      pose proof (generateOrbs_entropy 10 (host w)) as Eo.
      destruct (generateOrbs 10 (host w)) as [fresh h1]. cbn [snd] in *.
      pose proof (generateObstacles_entropy 5 h1) as Eb.
      destruct (generateObstacles 5 h1) as [hazards h2]. cbn [snd] in *.
      congruence. }
    destruct (startGame (app w) (host w)) as [a h']. cbn [fst snd app host] in *.
    subst a. unfold safe.
    cbn [fst snd obstacles lives gameState highScore].
    split; [exact (fairHost_ext _ _ He Hh)|].
    split; [|split; [reflexivity|split; [discriminate|exact Hhs]]].
    apply generateObstacles_inRange.
    exact (fairHost_ext _ _ (generateOrbs_entropy 10 (host w)) Hh).
  - cbn [inPlaneInput] in Hi.
    split; [|apply frame_no_hit; [exact Hi|apply Hw]].
    destruct (decide (gameState (app w) = playing)) as [Hp|Hp].
    + rewrite (frame_playing pos w Hp). cbv zeta. cbn [app host].
      destruct Hw as (Hh & Ho & Hl & Hg & Hs).
      cbn [fst snd] in Hh, Ho, Hl, Hg, Hs.
      assert (Hn : count isHit
                     (snd (emitted true (orbs (app w)) (obstacles (app w))
                             pos (collectedIds w))) = 0%nat).
      { rewrite emitted_active. cbn [snd].
        rewrite count_app, collectsOf_no_hit, (hitsOf_inPlane pos _ Hi Ho).
        reflexivity. }
      rewrite Hn. change (0 <? fatalHits (lives (app w)) 0)%nat with false.
      cbv iota.
      set (h1 := addTimers _ (host w)).
      assert (H1 : fairHost h1) by (intros n; apply Hh).
      set (fresh := batches (generateOrbs 3) _ h1).
      assert (H2 : fairHost (snd fresh)).
      { apply (fairHost_ext h1); [|exact H1]. subst fresh.
        rewrite (batches_host entropy);
          [reflexivity|intros g; apply generateOrbs_entropy]. }
      unfold safe. cbn [fst snd obstacles lives gameState highScore].
      split.
      { apply (fairHost_ext (snd fresh)); [|exact H2].
        rewrite (batches_host entropy);
          [reflexivity|intros g; apply generateObstacles_entropy]. }
      split.
      { apply Forall_app. split; [exact Ho|].
        apply (batches_Forall obstacleInRange fairHost); [|exact H2].
        intros g Hf. split; [now apply generateObstacles_inRange|].
        apply (fairHost_ext g); [apply generateObstacles_entropy|exact Hf]. }
      split; [cbn [Z.of_nat]; lia|]. split; assumption.
    + rewrite (frame_idle pos w Hp). exact Hw.
  - split; [|reflexivity].
    pose proof (timeout_app w) as (Eg & _ & Eh & El & _ & Eo & _).
    cbv zeta in Eg, Eh, El, Eo.
    destruct Hw as (Hh & Ho & Hl & Hg & Hs). cbn [fst snd] in *.
    unfold safe. cbn [fst snd]. rewrite Eg, Eh, El, Eo.
    split; [|split; [exact Ho|split; [exact Hl|split; [exact Hg|exact Hs]]]].
    unfold timeout. destruct (timers (host w)) as [|t rest]; [exact Hh|].
    destruct t as [d []]. unfold runTask, bind, ret. cbn [task].
    assert (Hd : fairHost (dropTimer (host w))) by (intros n; apply Hh).
    pose proof (generateOrbs_entropy 1 (dropTimer (host w))) as He.
    destruct (generateOrbs 1 (dropTimer (host w))) as [fresh h1].
    cbn [fst snd app host] in *. exact (fairHost_ext _ _ He Hd).
Qed.

Lemma run_safe (inputs : list Input) (w : World) :
  Forall inPlaneInput inputs -> safe (app w, host w) ->
  safe (app (run w inputs), host (run w inputs)) /\
  hitCount w inputs = 0%nat.
Proof.
  revert w; induction inputs as [|i rest IH]; intros w Hi Hw;
    [split; [exact Hw|reflexivity]|].
  apply Forall_cons in Hi as [Hi Hrest].
  destruct (step_safe w i Hi Hw) as [Hs Hn].
  destruct (IH (step w i) Hrest Hs) as [IHs IHn].
  unfold run in *. cbn [foldl hitCount]. split; [exact IHs|].
  rewrite Hn, IHn. reflexivity.
Qed.

(** In the game as it is played the ship never leaves the plane [z = 0]
    and the obstacles that collisions are tested against stay where
    [generateObstacles] put them, at [z <= -10] (the [Obstacle] component
    moves its mesh, not the record).  So, with a random source that keeps
    its contract, no frame ever calls [onHit]: [lives] stays 3, the game is
    never over and the high score stays 0. *)
Theorem never_lost (h : Host) (inputs : list Input) :
  fairHost h -> Forall inPlaneInput inputs ->
  let a := app (run (World_init h) inputs) in
  hitCount (World_init h) inputs = 0%nat /\
  lives a = 3 /\ gameState a ≠ gameover /\ highScore a = 0.
Proof.
  intros Hh Hi. cbv zeta.
  destruct (run_safe inputs (World_init h) Hi)
    as [(_ & _ & Hl & Hg & Hs) Hn].
  { unfold safe. cbn. split; [exact Hh|]. split; [constructor|].
    split; [reflexivity|]. split; [discriminate|reflexivity]. }
  cbn [fst] in *. split; [exact Hn|]. split; [exact Hl|].
  split; [exact Hg|exact Hs].
Qed.

Lemma never_lost_witness :
  let a := app (run (World_init arcade)
                  [Click; Frame origin; Timeout; Frame origin]) in
  hitCount (World_init arcade) [Click; Frame origin; Timeout; Frame origin]
    = 0%nat /\
  lives a = 3 /\ gameState a ≠ gameover /\ highScore a = 0.
Proof.
  apply (never_lost arcade [Click; Frame origin; Timeout; Frame origin]).
  - intros n. split; reflexivity.
  - assert (Ho : inPlane origin) by (right; now exists false).
    repeat apply Forall_cons_2; first [exact I|exact Ho|apply Forall_nil_2].
Defined.

(** ** A whole session *)

Definition sound (s : Session) : Prop :=
  safe (app (world s), host (world s)) /\ steady (ship s).

Lemma PlayerShip_mount_steady : steady PlayerShip_mount.
Proof. split; [right; now exists false|reflexivity]. Qed.

Lemma act_sound (s : Session) (a : Action) : sound s -> sound (act s a).
Proof.
  intros [Hw Hs]. unfold act.
  destruct (bool_decide (gameState (app (world s)) = playing)) eqn:Hp.
  - destruct a as [|scr x y|scr touches|delta|].
    + split; assumption.
    + split; [exact Hw|now apply handlePointerMove_steady].
    + split; [exact Hw|now apply handleTouchMove_steady].
    + unfold PlayerShip_frame. destruct Hs as [Hm Ht].
      assert (Hpos : inPlane (lerp (meshPosition (ship s)) (targetPos (ship s))
                                (delta * 8)))
        by now apply lerp_inPlane.
      split; [|split; [exact Hpos|exact Ht]].
      cbn [world]. apply (step_safe (world s) (Frame _) Hpos Hw).
    + split; [|exact Hs]. cbn [world].
      apply (step_safe (world s) Timeout I Hw).
  - destruct a as [|scr x y|scr touches|delta|]; try (split; assumption).
    + split; [|exact PlayerShip_mount_steady]. cbn [world].
      apply (step_safe (world s) Click I Hw).
    + split; [|exact Hs]. cbn [world].
      apply (step_safe (world s) Timeout I Hw).
Qed.

(** The game cannot be lost.  With a random source that keeps its
    contract, whatever the player does and whatever the frame times, no
    session ever loses a life: [lives] is always 3, the phase is never
    GameOver and the high score is always 0. *)
Theorem cannot_lose (h : Host) (actions : list Action) :
  fairHost h ->
  let a := app (world (play h actions)) in
  lives a = 3 /\ gameState a ≠ gameover /\ highScore a = 0.
Proof.
  intros Hh. cbv zeta.
  assert (Hs : sound (play h actions)).
  { unfold play. induction actions as [|a rest IH] using rev_ind.
    - split; [|exact PlayerShip_mount_steady]. unfold safe. cbn.
      split; [exact Hh|]. split; [constructor|].
      split; [reflexivity|]. split; [discriminate|reflexivity].
    - rewrite foldl_app. cbn [foldl]. now apply act_sound. }
  destruct Hs as [(_ & _ & Hl & Hg & Hs) _]. cbn [fst] in *.
  split; [exact Hl|]. split; [exact Hg|exact Hs].
Qed.

Definition desktop : Screen :=
  {| innerWidth := 1280; innerHeight := 720;
     viewportWidth := 20; viewportHeight := 11 |}.

Lemma cannot_lose_witness :
  let a := app (world (play arcade
                         [Press; Pointer desktop 100 100; Render 1; Expire;
                          Render 1])) in
  lives a = 3 /\ gameState a ≠ gameover /\ highScore a = 0.
Proof.
  apply (cannot_lose arcade).
  intros n. split; reflexivity.
Defined.

(** ** Lives and Hits over a session *)










(** ** The high score over a session *)






(** * The obstacle meshes *)

(** Inside the window in which obstacles are spawned, and not past the
    camera. *)
Definition inWindow (p : Vector3) : Prop :=
  within (-6) 6 (vx p) = true /\ within (-4) 4 (vy p) = true /\
  (10 <? vz p)%float = false.

Lemma not_past_camera (z : float) :
  (z <=? -10)%float = true -> (10 <? z)%float = false.
Proof.
  rewrite leb_spec, ltb_spec.
  change (Prim2SF (-10)) with (S754_finite true 5629499534213120 (-49)).
  change (Prim2SF 10) with (S754_finite false 5629499534213120 (-49)).
  destruct (Prim2SF z) as [s|s| |s m e]; try (destruct s);
    try reflexivity; try discriminate.
Qed.

Lemma Obstacle_frame_inWindow (speed delta : float) (m : Mesh) (h : Host) :
  fairHost h -> inWindow (mesh_position m) ->
  inWindow (mesh_position (fst (Obstacle_frame speed delta m h))) /\
  entropy (snd (Obstacle_frame speed delta m h)) = entropy h.
Proof.
  intros Hh (Hx & Hy & Hz). unfold Obstacle_frame.
  destruct (10 <? vz (mesh_position m) + delta * speed * 2)%float eqn:E.
  - unfold bind, ret, Math_random. cbn [fst snd entropy draws mesh_position].
    split; [|reflexivity]. unfold inWindow. cbn [vx vy vz].
    split; [|split; [|reflexivity]].
    + apply within_both.
      apply (centred_range _ 12 (-6) 6 6755399441055744 (-49));
        [apply Hh|reflexivity|reflexivity|reflexivity|lia|lia].
    + apply within_both.
      apply (centred_range _ 8 (-4) 4 4503599627370496 (-49));
        [apply Hh|reflexivity|reflexivity|reflexivity|lia|lia].
  - unfold ret. cbn [fst snd mesh_position]. split; [|reflexivity].
    unfold inWindow. cbn [vx vy vz]. split; [exact Hx|].
    split; [exact Hy|exact E].
Qed.

Lemma Obstacle_frames_inWindow (speed : float) (deltas : list float)
    (m : Mesh) (h : Host) :
  fairHost h -> inWindow (mesh_position m) ->
  inWindow (mesh_position (fst (Obstacle_frames speed deltas m h))).
Proof.
  revert m h; induction deltas as [|delta rest IH]; intros m h Hh Hm;
    cbn [Obstacle_frames]; [exact Hm|].
  unfold bind.
  destruct (Obstacle_frame_inWindow speed delta m h Hh Hm) as [Hm' He].
  destruct (Obstacle_frame speed delta m h) as [m' h']. cbn [fst snd] in *.
  apply IH; [exact (fairHost_ext h h' He Hh)|exact Hm'].
Qed.

(** However long it flies and whatever the frame times, the mesh of a
    generated obstacle is never left past [z = 10] by a frame, and its [x]
    and [y] stay inside the window [[-6, 6] x [-4, 4]] in which it was
    spawned and is respawned. *)
Theorem obstacle_mesh_in_window (obs : Obstacle) (deltas : list float)
    (h : Host) :
  fairHost h -> obstacleInRange obs ->
  inWindow (mesh_position
              (fst (Obstacle_frames (obs_speed obs) deltas
                      (Obstacle_mount obs) h))).
Proof.
  intros Hh Ho. apply Obstacle_frames_inWindow; [exact Hh|].
  unfold Obstacle_mount, obstacleInRange, inWindow in *.
  cbn [mesh_position].
  destruct (obs_position obs) as [[x y] z]. cbn [Vector3_of vx vy vz].
  destruct Ho as (Hx & Hy & Hz & _).
  split; [exact Hx|]. split; [exact Hy|].
  unfold within in Hz. apply andb_prop in Hz as [_ Hz].
  now apply not_past_camera.
Qed.

Lemma obstacle_mesh_in_window_witness :
  inWindow (mesh_position
              (fst (Obstacle_frames 2%float [4%float; 4%float; 4%float]
                      (Obstacle_mount
                         {| obs_id := 1; obs_position := (0, 0, -12)%float;
                            obs_speed := 2 |})
                      (sameMillisecond [])))).
Proof.
  apply (obstacle_mesh_in_window
           {| obs_id := 1; obs_position := (0, 0, -12)%float; obs_speed := 2 |}
           [4%float; 4%float; 4%float] (sameMillisecond [])).
  - intros n. split; reflexivity.
  - unfold obstacleInRange. cbn. repeat split; reflexivity.
Defined.

(** ** An obstacle through the ship *)

(** A random source that puts the ten orbs of the start away from the ship
    and the five obstacles straight ahead of it, at [(0, 0, -20)] with
    speed 2. *)
Definition headOn : Host :=
  {| clock := fun _ => 1700000000000;
     entropy := fun n => if (n <? 50)%nat then 0.25%float else 0.5%float;
     clockReads := 0; draws := 0; timers := [] |}.

(** A frame time of 1/64 s. *)
Definition tick : float := 0.015625.

(** The session after a start and [n] frames, the pointer at rest. *)
Definition flight (n : nat) : Session :=
  play headOn (Press :: replicate n (Render tick)).

(** Where the mesh of an obstacle of the start is after [n] frames. *)
Definition meshAfter (n : nat) (obs : Obstacle) : Vector3 :=
  mesh_position (fst (Obstacle_frames (obs_speed obs) (replicate n tick)
                        (Obstacle_mount obs) headOn)).

(** C8 (the defect).  A game is started and left alone.  The five
    obstacles fly at the ship, 1/16 of a unit per frame; from the sample
    after frame 301 to the sample after frame 339 every one of them is
    within 1.2 of the player's position sample (at frame 320 they are on
    it), and in none of these frames is a Hit emitted: the loop measures
    the distance to the position in the obstacle's record, which the
    [Obstacle] component never updates, and the game goes on with three
    lives. *)
Theorem mesh_through_ship_no_hit :
  Forall (fun n =>
            let s := flight n in
            let pos := snd (PlayerShip_frame tick (ship s)) in
            gameState (app (world s)) = playing /\
            length (obstacles (app (world s))) = 5%nat /\
            forallb (fun obs =>
                       (distanceTo pos (meshAfter n obs) <? 1.2)%float)
              (obstacles (app (world s))) = true /\
            hitsIn (world s) (Frame pos) = 0%nat /\
            lives (app (world (act s (Render tick)))) = 3)
    (seq 301 39).
Proof.
  cbv [seq].
  repeat (apply Forall_cons_2;
          [vm_compute; split; [reflexivity|]; split; [reflexivity|];
           split; [reflexivity|]; split; reflexivity|]).
  apply Forall_nil_2.
Qed.
